(** * ASR transcript post-processing: text cleaning, segmentation, rendering

    A shallow embedding of the post-processing code of [asr_transcriber.py]
    (class [ASRTranscriber]): [_clean_text],
    [_create_segments_from_timestamps], [format_transcription_output],
    [_format_as_srt], [_format_as_vtt], [_seconds_to_srt_time] and
    [_seconds_to_vtt_time], with [_clean_segments],
    [_clean_segments_with_timestamps] and the result dicts of
    [transcribe_audio] and [transcribe_with_timestamps]; and of the
    renderer of [mcp_server.py].

    Conventions of the embedding:
    - a Python [str] is the list of its Unicode code points ([pystr]);
    - a Python [float] is a binary64 value ([PrimFloat.float]);
    - a Python [int] is a [Z];
    - code that can raise returns an [outcome], with the exception class. *)

From Stdlib Require Import String Ascii.
From Stdlib Require Import List ZArith NArith Lia Bool.
From Stdlib Require Import Sorting.Sorted.
From Stdlib Require Import Floats.
From Stdlib Require DecimalN.
Import ListNotations.

Set Implicit Arguments.

(* ================================================================== *)
(** * Python strings *)
(* ================================================================== *)

Module PyStr.

Definition pystr := list N.

(** Decoding of a UTF-8 byte sequence, used only to write literals. *)
Fixpoint utf8_decode (bs : list N) : pystr :=
  match bs with
  | [] => []
  | b0 :: t =>
    if (b0 <? 128)%N then b0 :: utf8_decode t
    else if (b0 <? 224)%N then
      match t with
      | b1 :: t1 => ((b0 mod 32) * 64 + b1 mod 64)%N :: utf8_decode t1
      | _ => []
      end
    else if (b0 <? 240)%N then
      match t with
      | b1 :: b2 :: t2 =>
        ((b0 mod 16) * 4096 + (b1 mod 64) * 64 + b2 mod 64)%N :: utf8_decode t2
      | _ => []
      end
    else
      match t with
      | b1 :: b2 :: b3 :: t3 =>
        ((b0 mod 8) * 262144 + (b1 mod 64) * 4096 + (b2 mod 64) * 64 + b3 mod 64)%N
          :: utf8_decode t3
      | _ => []
      end
  end.

Definition u (s : string) : pystr :=
  utf8_decode (map N_of_ascii (list_ascii_of_string s)).

Definition nl : pystr := [10%N].

(** [a == b] on strings. *)
Fixpoint eqb (a b : pystr) : bool :=
  match a, b with
  | [], [] => true
  | x :: a', y :: b' => (x =? y)%N && eqb a' b'
  | _, _ => false
  end.

(** [Py_UNICODE_ISSPACE]: the predicate behind [str.strip()] (no argument)
    and behind the class [\s] of a [str] pattern. *)
Definition is_space (c : N) : bool :=
  ((9 <=? c) && (c <=? 13) || (28 <=? c) && (c <=? 32)
   || (c =? 133) || (c =? 160) || (c =? 5760)
   || (8192 <=? c) && (c <=? 8202)
   || (c =? 8232) || (c =? 8233) || (c =? 8239) || (c =? 8287)
   || (c =? 12288))%N.

Fixpoint lstrip (s : pystr) : pystr :=
  match s with
  | [] => []
  | c :: t => if is_space c then lstrip t else s
  end.

Fixpoint rstrip (s : pystr) : pystr :=
  match s with
  | [] => []
  | c :: t =>
    match rstrip t with
    | [] => if is_space c then [] else [c]
    | r => c :: r
    end
  end.

(** [s.strip()] *)
Definition strip (s : pystr) : pystr := rstrip (lstrip s).

(** Truth value of a [str]: non-empty. *)
Definition truthy (s : pystr) : bool :=
  match s with [] => false | _ => true end.

(** [s.startswith(p)] *)
Fixpoint startswith (s p : pystr) : bool :=
  match p, s with
  | [], _ => true
  | _ :: _, [] => false
  | a :: p', b :: s' => (a =? b)%N && startswith s' p'
  end.

(** [s.endswith(p)] *)
Definition endswith (s p : pystr) : bool := startswith (rev s) (rev p).

(** [w in [m1, m2, ...]] on strings. *)
Definition mem (w : pystr) (l : list pystr) : bool := existsb (eqb w) l.

End PyStr.
Import PyStr.

(* ================================================================== *)
(** * Exceptions *)
(* ================================================================== *)

Inductive exn : Type :=
| TypeError | ValueError | OverflowError | KeyError | ZeroDivisionError.

Inductive outcome (A : Type) : Type :=
| Ok (a : A)
| Raise (e : exn).
Arguments Ok {A} a.
Arguments Raise {A} e.

Definition bind {A B} (r : outcome A) (k : A -> outcome B) : outcome B :=
  match r with
  | Ok a => k a
  | Raise e => Raise e
  end.

Notation "x <- r ;; k" := (bind r (fun x => k))
  (at level 61, r at next level, right associativity).

(* ================================================================== *)
(** * TextCleaner: [_clean_text] *)
(* ================================================================== *)

Module Clean.

Definition LT : N := 60.    (* the character < *)
Definition PIPE : N := 124. (* the character | *)
Definition GT : N := 62.    (* the character > *)
Definition SP : N := 32.    (* the space *)

(** After the opening [<|]: the class [[^|]] repeated takes every
    character up to the first pipe, and the match succeeds exactly when
    that pipe is followed by [>]; what is returned is the text after the
    match. *)
Fixpoint markup_tail (s : pystr) : option pystr :=
  match s with
  | [] => None
  | c :: t =>
    if (c =? PIPE)%N then
      match t with
      | d :: r => if (d =? GT)%N then Some r else None
      | [] => None
      end
    else markup_tail t
  end.

(** A match of the markup pattern (open, any non-pipe characters, close)
    at the head of [s]. *)
Definition match_markup (s : pystr) : option pystr :=
  match s with
  | a :: b :: t => if (a =? LT)%N && (b =? PIPE)%N then markup_tail t else None
  | _ => None
  end.

(** [re.sub(markup, '', s)]: scan from the left; at a match, drop it and go
    on after it; otherwise keep the character and move one position. *)
Fixpoint remove_markup_fuel (fuel : nat) (s : pystr) : pystr :=
  match fuel with
  | O => []
  | S f =>
    match s with
    | [] => []
    | c :: t =>
      match match_markup s with
      | Some rest => remove_markup_fuel f rest
      | None => c :: remove_markup_fuel f t
      end
    end
  end.

Definition remove_markup (s : pystr) : pystr :=
  remove_markup_fuel (S (length s)) s.

(** [re.sub(r'\s+', ' ', s)]: every maximal run of whitespace becomes one
    space; [in_run] tells that the previous character was whitespace. *)
Fixpoint sub_ws_runs (in_run : bool) (s : pystr) : pystr :=
  match s with
  | [] => []
  | c :: t =>
    if is_space c then
      if in_run then sub_ws_runs true t else SP :: sub_ws_runs true t
    else c :: sub_ws_runs false t
  end.

Definition collapse_ws (s : pystr) : pystr := sub_ws_runs false s.

Definition _clean_text (text : pystr) : pystr :=
  if negb (truthy text) then []
  else
    let cleaned_text := remove_markup text in
    let cleaned_text := collapse_ws cleaned_text in
    let cleaned_text := strip cleaned_text in
    cleaned_text.

End Clean.
Import Clean.


(* ================================================================== *)
(** * Python numbers *)
(* ================================================================== *)

Module PyNum.

Local Open Scope Z_scope.

(** ** binary64 helpers that the kernel primitives do not provide *)

(** The nearest binary64 to an integer (ties to even); infinite past the
    largest finite value. *)
Definition float_of_Z (z : Z) : float :=
  SF2Prim (binary_normalize prec emax z 0 false).

(** C's [copysign(0.0, w)]. *)
Definition copysign_zero (w : float) : float :=
  if get_sign w then neg_zero else zero.

(** C's truth value of a double: [x != 0.0] (a NaN is true). *)
Definition nonzero (x : float) : bool := negb (x =? zero)%float.

(** C's [fmod]: the exact remainder of the truncated quotient, with the
    sign of [x]. It is computed on the exact values [m * 2^e]. *)
Definition fmod (x y : float) : float :=
  match Prim2SF x, Prim2SF y with
  | S754_nan, _ => nan
  | _, S754_nan => nan
  | S754_infinity _, _ => nan
  | _, S754_zero _ => nan
  | S754_zero _, _ => x
  | S754_finite _ _ _, S754_infinity _ => x
  | S754_finite sx mx ex, S754_finite _ my ey =>
    let e := Z.min ex ey in
    let X := Zpos mx * 2 ^ (ex - e) in
    let Y := Zpos my * 2 ^ (ey - e) in
    let r := X mod Y in
    if r =? 0 then (if sx then neg_zero else zero)
    else SF2Prim (binary_normalize prec emax (if sx then - r else r) e false)
  end.

(** C's [floor]. *)
Definition floor (x : float) : float :=
  match Prim2SF x with
  | S754_finite s m e =>
    if 0 <=? e then x
    else
      let q := Zpos m / 2 ^ (- e) in
      if s then
        float_of_Z (- (if Zpos m mod 2 ^ (- e) =? 0 then q else q + 1))
      else float_of_Z q
  | _ => x
  end.

(** [int(x)] on a float: truncation toward zero. *)
Definition float_to_int (x : float) : outcome Z :=
  match Prim2SF x with
  | S754_nan => Raise ValueError
  | S754_infinity _ => Raise OverflowError
  | S754_zero _ => Ok 0
  | S754_finite s m e =>
    let a := if 0 <=? e then Zpos m * 2 ^ e else Zpos m / 2 ^ (- e) in
    Ok (if s then - a else a)
  end.

(** CPython's [_float_div_mod] (floatobject.c), for a non-zero [wx]:
    the pair (floor quotient, remainder). *)
Definition float_divmod (vx wx : float) : float * float :=
  let mod_ := fmod vx wx in
  let div := ((vx - mod_) / wx)%float in
  let '(mod_, div) :=
    if nonzero mod_ then
      if xorb (wx <? zero)%float (mod_ <? zero)%float
      then ((mod_ + wx)%float, (div - one)%float)
      else (mod_, div)
    else (copysign_zero wx, div) in
  let floordiv :=
    if nonzero div then
      let f := floor div in
      if (0.5 <? div - f)%float then (f + one)%float else f
    else copysign_zero (vx / wx)%float in
  (floordiv, mod_).

(** CPython's [float_rem] (the operator [%] on floats), non-zero [wx]. *)
Definition float_rem (vx wx : float) : float :=
  let mod_ := fmod vx wx in
  if nonzero mod_ then
    if xorb (wx <? zero)%float (mod_ <? zero)%float then (mod_ + wx)%float else mod_
  else copysign_zero wx.

(** ** The values that reach the time-code arithmetic *)

Inductive pyval : Type :=
| PyNone
| PyInt (z : Z)
| PyFloat (f : float).

(** Conversion of an [int] operand to [float] in mixed arithmetic. *)
Definition int_to_float (z : Z) : outcome float :=
  let f := float_of_Z z in
  if is_infinity f then Raise OverflowError else Ok f.

Definition arith (iop : Z -> Z -> outcome pyval)
  (fop : float -> float -> outcome pyval) (a b : pyval) : outcome pyval :=
  match a, b with
  | PyInt x, PyInt y => iop x y
  | PyInt x, PyFloat g => f <- int_to_float x ;; fop f g
  | PyFloat f, PyInt y => g <- int_to_float y ;; fop f g
  | PyFloat f, PyFloat g => fop f g
  | _, _ => Raise TypeError
  end.

Definition py_add : pyval -> pyval -> outcome pyval :=
  arith (fun x y => Ok (PyInt (x + y))) (fun f g => Ok (PyFloat (f + g))).

Definition py_sub : pyval -> pyval -> outcome pyval :=
  arith (fun x y => Ok (PyInt (x - y))) (fun f g => Ok (PyFloat (f - g))).

Definition py_mul : pyval -> pyval -> outcome pyval :=
  arith (fun x y => Ok (PyInt (x * y))) (fun f g => Ok (PyFloat (f * g))).

(** [a // b] *)
Definition py_floordiv : pyval -> pyval -> outcome pyval :=
  arith
    (fun x y => if y =? 0 then Raise ZeroDivisionError else Ok (PyInt (x / y)))
    (fun f g => if (g =? zero)%float then Raise ZeroDivisionError
                else Ok (PyFloat (fst (float_divmod f g)))).

(** [a % b] *)
Definition py_mod : pyval -> pyval -> outcome pyval :=
  arith
    (fun x y => if y =? 0 then Raise ZeroDivisionError else Ok (PyInt (x mod y)))
    (fun f g => if (g =? zero)%float then Raise ZeroDivisionError
                else Ok (PyFloat (float_rem f g))).

(** [int(a)] *)
Definition py_int (a : pyval) : outcome Z :=
  match a with
  | PyNone => Raise TypeError
  | PyInt z => Ok z
  | PyFloat f => float_to_int f
  end.

(** [a > b], for [max]. *)
Definition py_gt (a b : pyval) : outcome bool :=
  match a, b with
  | PyInt x, PyInt y => Ok (y <? x)
  | PyInt x, PyFloat g => f <- int_to_float x ;; Ok (g <? f)%float
  | PyFloat f, PyInt y => g <- int_to_float y ;; Ok (g <? f)%float
  | PyFloat f, PyFloat g => Ok (g <? f)%float
  | _, _ => Raise TypeError
  end.

(** [max(a, b)]: the first argument unless the second is greater. *)
Definition py_max (a b : pyval) : outcome pyval :=
  gt <- py_gt b a ;; Ok (if gt then b else a).

(** ** Formatting *)

Fixpoint uint_chars (d : Decimal.uint) : pystr :=
  match d with
  | Decimal.Nil => []
  | Decimal.D0 d => 48%N :: uint_chars d
  | Decimal.D1 d => 49%N :: uint_chars d
  | Decimal.D2 d => 50%N :: uint_chars d
  | Decimal.D3 d => 51%N :: uint_chars d
  | Decimal.D4 d => 52%N :: uint_chars d
  | Decimal.D5 d => 53%N :: uint_chars d
  | Decimal.D6 d => 54%N :: uint_chars d
  | Decimal.D7 d => 55%N :: uint_chars d
  | Decimal.D8 d => 56%N :: uint_chars d
  | Decimal.D9 d => 57%N :: uint_chars d
  end.

(** The decimal digits of a natural number. *)
Definition digits (n : Z) : pystr := uint_chars (N.to_uint (Z.to_N n)).

(** [str(z)] for an [int]. *)
Definition str_int (z : Z) : pystr :=
  if z <? 0 then 45%N :: digits (- z) else digits z.

(** Sign-aware zero padding to a minimal width (the [0w] of a format
    spec): zeros go between the sign and the digits. *)
Definition zero_pad (w : nat) (neg : bool) (body : pystr) : pystr :=
  let sign := if neg then [45%N] else [] in
  sign ++ repeat 48%N (w - length sign - length body) ++ body.

(** [format(z, '0wd')] *)
Definition fmt_d (w : nat) (z : Z) : pystr :=
  zero_pad w (z <? 0) (digits (Z.abs z)).

(** The exact value [m * 2^e] times 1000, rounded to an integer, ties to
    even: the correctly rounded three-decimal conversion. *)
Definition round_milli (m : positive) (e : Z) : Z :=
  if 0 <=? e then Zpos m * 2 ^ e * 1000
  else
    let num := Zpos m * 1000 in
    let den := 2 ^ (- e) in
    let q := num / den in
    let r := num mod den in
    if (den <? 2 * r) || ((den =? 2 * r) && Z.odd q) then q + 1 else q.

(** [format(x, '0w.3f')] on a float. *)
Definition fmt_f3 (w : nat) (x : float) : pystr :=
  match Prim2SF x with
  | S754_nan => zero_pad w false (u "nan")
  | S754_infinity s => zero_pad w s (u "inf")
  | S754_zero s => zero_pad w s (u "0.000")
  | S754_finite s m e =>
    let k := round_milli m e in
    zero_pad w s (digits (k / 1000) ++ [46%N] ++ zero_pad 3 false (digits (k mod 1000)))
  end.

(** [format(v, '0w.3f')] on a number: an [int] is converted first. *)
Definition py_fmt_f3 (w : nat) (v : pyval) : outcome pystr :=
  match v with
  | PyNone => Raise TypeError
  | PyInt z => f <- int_to_float z ;; Ok (fmt_f3 w f)
  | PyFloat f => Ok (fmt_f3 w f)
  end.

End PyNum.
Import PyNum.

(* ================================================================== *)
(** * TimeCodeFormatter *)
(* ================================================================== *)

Module TimeCode.

(** The four integer fields that [_seconds_to_srt_time] prints. *)
Definition srt_fields (seconds : pyval) : outcome (Z * Z * Z * Z) :=
  h <- py_floordiv seconds (PyInt 3600) ;;
  hours <- py_int h ;;
  r <- py_mod seconds (PyInt 3600) ;;
  q <- py_floordiv r (PyInt 60) ;;
  minutes <- py_int q ;;
  s <- py_mod seconds (PyInt 60) ;;
  secs <- py_int s ;;
  i <- py_int seconds ;;
  d <- py_sub seconds (PyInt i) ;;
  p <- py_mul d (PyInt 1000) ;;
  millisecs <- py_int p ;;
  Ok (hours, minutes, secs, millisecs).

Definition srt_print (fields : Z * Z * Z * Z) : pystr :=
  let '(hours, minutes, secs, millisecs) := fields in
  fmt_d 2 hours ++ u ":" ++ fmt_d 2 minutes ++ u ":" ++ fmt_d 2 secs
    ++ u "," ++ fmt_d 3 millisecs.

Definition _seconds_to_srt_time (seconds : pyval) : outcome pystr :=
  fields <- srt_fields seconds ;; Ok (srt_print fields).

(** The fields that [_seconds_to_vtt_time] prints: two integers and the
    seconds within the minute, still a number. *)
Definition vtt_fields (seconds : pyval) : outcome (Z * Z * pyval) :=
  h <- py_floordiv seconds (PyInt 3600) ;;
  hours <- py_int h ;;
  r <- py_mod seconds (PyInt 3600) ;;
  q <- py_floordiv r (PyInt 60) ;;
  minutes <- py_int q ;;
  secs <- py_mod seconds (PyInt 60) ;;
  Ok (hours, minutes, secs).

Definition vtt_print (fields : Z * Z * pyval) : outcome pystr :=
  let '(hours, minutes, secs) := fields in
  s <- py_fmt_f3 6 secs ;;
  Ok (fmt_d 2 hours ++ u ":" ++ fmt_d 2 minutes ++ u ":" ++ s).

Definition _seconds_to_vtt_time (seconds : pyval) : outcome pystr :=
  fields <- vtt_fields seconds ;; vtt_print fields.

End TimeCode.
Import TimeCode.

(* ================================================================== *)
(** * Segmenter: [_create_segments_from_timestamps] *)
(* ================================================================== *)

Module Segmenter.

Local Open Scope Z_scope.

(** [word.startswith('<|') and word.endswith('|>')] *)
Definition is_markup (word : pystr) : bool :=
  startswith word (u "<|") && endswith word (u "|>").

(** The list that closes a segment: 。！？.!?,， *)
Definition split_markers : list pystr :=
  [u "。"; u "！"; u "？"; u "."; u "!"; u "?"; u ","; u "，"].

(** [start_ms, end_ms = timestamp] *)
Definition unpack2 (timestamp : list Z) : outcome (Z * Z) :=
  match timestamp with
  | [a; b] => Ok (a, b)
  | _ => Raise ValueError
  end.

(** [ms / 1000.0] in Python: the [int] is converted to binary64 (an
    OverflowError past its range), then divided. *)
Definition ms_to_sec_float (ms : Z) : outcome float :=
  f <- int_to_float ms ;; Ok (f / 1000)%float.

Section WithSeconds.

(** The segmenter only moves the quotients [ms / 1000.0] around: it is
    written over the type [F] of seconds and the conversion, which
    Python instantiates with binary64 and [ms_to_sec_float]. *)
Variable F : Type.
Variable ms_to_sec : Z -> outcome F.

Record word_timing : Type := {
  word : pystr;
  w_start : F;
  w_end : F
}.

Record segment : Type := {
  text : pystr;
  start : option F;
  end_ : option F;
  words : list word_timing
}.

Definition empty_segment : segment :=
  {| text := []; start := None; end_ := None; words := [] |}.

(** One iteration of the [for] loop on the pair
    ([current_segment], [segments]); [n] is [len(words)]. *)
Definition loop_body (n i : Z) (word : pystr) (timestamp : list Z)
  (st : segment * list segment) : outcome (segment * list segment) :=
  let '(current_segment, segments) := st in
  if is_markup word then Ok st
  else
    ms <- unpack2 timestamp ;;
    start_sec <- ms_to_sec (fst ms) ;;
    end_sec <- ms_to_sec (snd ms) ;;
    let current_segment :=
      {| text := text current_segment ++ word;
         start := match start current_segment with
                  | None => Some start_sec
                  | Some s => Some s
                  end;
         end_ := Some end_sec;
         words := words current_segment
                    ++ [{| word := word; w_start := start_sec; w_end := end_sec |}] |} in
    if mem word split_markers || (i =? n - 1) then
      Ok (empty_segment,
          if truthy (strip (text current_segment))
          then segments ++ [current_segment] else segments)
    else Ok (current_segment, segments).

(** [for i, (word, timestamp) in enumerate(zip(words, timestamps))],
    from index [i] on. *)
Fixpoint loop (n i : Z) (items : list (pystr * list Z))
  (st : segment * list segment) : outcome (list segment) :=
  match items with
  | [] => Ok (snd st)
  | (word, timestamp) :: rest =>
    st' <- loop_body n i word timestamp st ;; loop n (i + 1) rest st'
  end.

Definition is_nil {A} (l : list A) : bool :=
  match l with [] => true | _ => false end.

Definition _create_segments_from_timestamps (text : pystr)
  (timestamps : list (list Z)) (words : list pystr) : outcome (list segment) :=
  if is_nil timestamps || is_nil words
     || negb (Nat.eqb (length timestamps) (length words))
  then Ok []
  else loop (Z.of_nat (length words)) 0 (combine words timestamps)
            (empty_segment, []).

End WithSeconds.

End Segmenter.

(* ================================================================== *)
(** * OutputRenderer *)
(* ================================================================== *)

Module Render.

Local Open Scope Z_scope.

(** An entry of [result["formatted_segments"]], as
    [transcribe_with_timestamps] builds it. *)
Record formatted_segment : Type := {
  index : Z;
  start_time : pyval;
  end_time : pyval;
  ftext : pystr;
  confidence : pyval
}.

(** An entry of [result["segments"]]: a string, or a dict in which each of
    the keys text, start and end is present ([Some]) or not. *)
Record segment_dict : Type := {
  seg_text : option pystr;
  seg_start : option pyval;
  seg_end : option pyval
}.

Inductive segment_entry : Type :=
| SegStr (s : pystr)
| SegDict (d : segment_dict).

(** The result dict; an absent key is [None]. *)
Record transcription_result : Type := {
  success : bool;
  error : option pystr;
  text : option pystr;
  segments : option (list segment_entry);
  formatted_segments : option (list formatted_segment)
}.

Definition arrow : pystr := u " --> ".

(** The three lines of an SRT block and the blank line after them. *)
Definition srt_block (number start_time end_time text : pystr) : pystr :=
  number ++ nl ++ start_time ++ arrow ++ end_time ++ nl ++ text ++ nl ++ nl.

(** The two lines of a VTT cue and the blank line after them. *)
Definition vtt_block (start_time end_time text : pystr) : pystr :=
  start_time ++ arrow ++ end_time ++ nl ++ text ++ nl ++ nl.

(** The sentence ends the fallback splits on: 。！？.!? *)
Definition sentence_delims : list N := [12290; 65281; 65311; 46; 33; 63]%N.

Definition is_delim (c : N) : bool := existsb (N.eqb c) sentence_delims.

(** [re.split] on a character class: [piece] is the piece being read. *)
Fixpoint re_split (delim : N -> bool) (s piece : pystr) : list pystr :=
  match s with
  | [] => [piece]
  | c :: t =>
    if delim c then piece :: re_split delim t []
    else re_split delim t (piece ++ [c])
  end.

(** [[s.strip() for s in re.split(...) if s.strip()]] *)
Definition split_sentences (text : pystr) : list pystr :=
  map strip (filter (fun s => truthy (strip s)) (re_split is_delim text [])).

(** [sentence.endswith(('。', '！', '？', '.', '!', '?'))] *)
Definition ends_with_terminator (sentence : pystr) : bool :=
  existsb (fun c => endswith sentence [c]) sentence_delims.

(** [max(2.0, len(text) * 0.4)]; the constant 0.4 is the binary64
    nearest to it. *)
Definition estimate_duration (text : pystr) : outcome pyval :=
  x <- py_mul (PyInt (Z.of_nat (length text))) (PyFloat 0x1.999999999999ap-2) ;;
  py_max (PyFloat 2) x.

(** ** SRT *)

(** Tier 1: the loop over [result["formatted_segments"]]. *)
Fixpoint srt_formatted_loop (segments : list formatted_segment)
  (srt_content : pystr) : outcome pystr :=
  match segments with
  | [] => Ok srt_content
  | segment :: rest =>
    start_time <- _seconds_to_srt_time (start_time segment) ;;
    end_time <- _seconds_to_srt_time (end_time segment) ;;
    srt_formatted_loop rest
      (srt_content ++ srt_block (str_int (index segment)) start_time end_time
                                (ftext segment))
  end.

(** Tier 2: the loop over [enumerate(result["segments"])]. *)
Fixpoint srt_segments_loop (i : Z) (segments : list segment_entry)
  (srt_content : pystr) : outcome pystr :=
  match segments with
  | [] => Ok srt_content
  | segment :: rest =>
    match segment with
    | SegDict {| seg_text := t; seg_start := Some st; seg_end := Some en |} =>
      start_time <- _seconds_to_srt_time st ;;
      end_time <- _seconds_to_srt_time en ;;
      let text := match t with Some x => x | None => [] end in
      srt_segments_loop (i + 1) rest
        (srt_content ++ srt_block (str_int (i + 1)) start_time end_time text)
    | _ => srt_segments_loop (i + 1) rest srt_content
    end
  end.

(** Tier 3: the loop over [enumerate(sentences)]. *)
Fixpoint srt_sentences_loop (i : Z) (sentences : list pystr)
  (current_time : pyval) (srt_content : pystr) : outcome pystr :=
  match sentences with
  | [] => Ok srt_content
  | sentence :: rest =>
    duration <- estimate_duration sentence ;;
    start_time <- _seconds_to_srt_time current_time ;;
    t <- py_add current_time duration ;;
    end_time <- _seconds_to_srt_time t ;;
    current_time <- py_add current_time duration ;;
    let sentence :=
      if negb (ends_with_terminator sentence)
      then sentence ++ u "。" else sentence in
    srt_sentences_loop (i + 1) rest current_time
      (srt_content ++ srt_block (str_int (i + 1)) start_time end_time sentence)
  end.

Definition srt_fallback (result : transcription_result) : outcome pystr :=
  let text := match text result with Some x => x | None => [] end in
  if truthy text
  then srt_sentences_loop 0 (split_sentences text) (PyInt 0) []
  else Ok [].

Definition _format_as_srt (result : transcription_result) : outcome pystr :=
  match formatted_segments result with
  | Some ((_ :: _) as segments) => srt_formatted_loop segments []
  | _ =>
    match segments result with
    | Some ((_ :: _) as segments) => srt_segments_loop 0 segments []
    | _ => srt_fallback result
    end
  end.

(** ** VTT *)

Section WithRepr.

(** [str(segment)] of a dict entry: the built-in representation. *)
Variable dict_repr : segment_dict -> pystr.

Definition vtt_header : pystr := u "WEBVTT" ++ nl ++ nl.

Fixpoint vtt_formatted_loop (segments : list formatted_segment)
  (vtt_content : pystr) : outcome pystr :=
  match segments with
  | [] => Ok vtt_content
  | segment :: rest =>
    start_time <- _seconds_to_vtt_time (start_time segment) ;;
    end_time <- _seconds_to_vtt_time (end_time segment) ;;
    vtt_formatted_loop rest
      (vtt_content ++ vtt_block start_time end_time (ftext segment))
  end.

(** The estimated cue of entry [i] when it carries no time stamps. *)
Definition vtt_estimated (i : Z) (text : pystr) : outcome (pystr * pystr) :=
  duration <- estimate_duration text ;;
  a <- py_mul (PyInt i) duration ;;
  start_time <- _seconds_to_vtt_time a ;;
  b <- py_mul (PyInt (i + 1)) duration ;;
  end_time <- _seconds_to_vtt_time b ;;
  Ok (start_time, end_time).

Fixpoint vtt_segments_loop (i : Z) (segments : list segment_entry)
  (vtt_content : pystr) : outcome pystr :=
  match segments with
  | [] => Ok vtt_content
  | segment :: rest =>
    cue <-
      match segment with
      | SegDict d =>
        times <-
          match seg_start d, seg_end d with
          | Some st, Some en =>
            start_time <- _seconds_to_vtt_time st ;;
            end_time <- _seconds_to_vtt_time en ;;
            Ok (start_time, end_time)
          | _, _ =>
            vtt_estimated i (match seg_text d with Some x => x | None => [] end)
          end ;;
        Ok (times, match seg_text d with Some x => x | None => dict_repr d end)
      | SegStr s =>
        times <- vtt_estimated i s ;; Ok (times, s)
      end ;;
    vtt_segments_loop (i + 1) rest
      (vtt_content ++ vtt_block (fst (fst cue)) (snd (fst cue)) (snd cue))
  end.

Fixpoint vtt_sentences_loop (sentences : list pystr)
  (current_time : pyval) (vtt_content : pystr) : outcome pystr :=
  match sentences with
  | [] => Ok vtt_content
  | sentence :: rest =>
    duration <- estimate_duration sentence ;;
    start_time <- _seconds_to_vtt_time current_time ;;
    t <- py_add current_time duration ;;
    end_time <- _seconds_to_vtt_time t ;;
    current_time <- py_add current_time duration ;;
    let sentence :=
      if negb (ends_with_terminator sentence)
      then sentence ++ u "。" else sentence in
    vtt_sentences_loop rest current_time
      (vtt_content ++ vtt_block start_time end_time sentence)
  end.

Definition _format_as_vtt (result : transcription_result) : outcome pystr :=
  match formatted_segments result with
  | Some ((_ :: _) as segments) => vtt_formatted_loop segments vtt_header
  | _ =>
    match segments result with
    | Some ((_ :: _) as segments) => vtt_segments_loop 0 segments vtt_header
    | _ =>
      let text := match text result with Some x => x | None => [] end in
      if truthy text
      then vtt_sentences_loop (split_sentences text) (PyInt 0) vtt_header
      else Ok vtt_header
    end
  end.

(** [json.dumps(result, ensure_ascii=False, indent=2)]: the library
    serializer. *)
Variable json_dumps : transcription_result -> outcome pystr.

Definition format_transcription_output (result : transcription_result)
  (output_format : pystr) : outcome pystr :=
  if negb (success result) then
    Ok (u "转录失败: "
        ++ match error result with Some e => e | None => u "未知错误" end)
  else if eqb output_format (u "text") then
    match text result with Some x => Ok x | None => Raise KeyError end
  else if eqb output_format (u "srt") then _format_as_srt result
  else if eqb output_format (u "vtt") then _format_as_vtt result
  else if eqb output_format (u "json") then json_dumps result
  else
    match text result with Some x => Ok x | None => Raise KeyError end.

End WithRepr.

End Render.

(* ================================================================== *)
(** * Segment lists between the transcriber and the renderer *)
(* ================================================================== *)

Module Pipeline.

Import Render.
Local Open Scope Z_scope.

(** The copy of a dict entry whose text, when the key is there, is
    cleaned; the other keys are kept. *)
Definition clean_dict (segment : segment_dict) : segment_dict :=
  {| seg_text := option_map _clean_text (seg_text segment);
     seg_start := seg_start segment;
     seg_end := seg_end segment |}.

(** [_clean_segments]: one entry is appended for each segment. *)
Definition _clean_segments (segments : list segment_entry)
  : list segment_entry :=
  map (fun segment =>
         match segment with
         | SegDict d => SegDict (clean_dict d)
         | SegStr s => SegStr (_clean_text s)
         end) segments.

(** [_clean_segments_with_timestamps]: a string becomes a dict whose
    start and end are None. *)
Definition _clean_segments_with_timestamps (segments : list segment_entry)
  : list segment_entry :=
  map (fun segment =>
         match segment with
         | SegDict d => SegDict (clean_dict d)
         | SegStr s =>
           SegDict {| seg_text := Some (_clean_text s);
                      seg_start := Some PyNone;
                      seg_end := Some PyNone |}
         end) segments.

(** The entry of [formatted_segments] that [transcribe_with_timestamps]
    builds for the segment at position [i]; [get(key, 0)] gives the value
    of a key that is there, whatever it is. The dict entries of this
    model carry no confidence key, so that field is the default. *)
Definition formatted_of (i : Z) (segment : segment_entry) : formatted_segment :=
  match segment with
  | SegDict d =>
    {| index := i + 1;
       start_time := match seg_start d with Some v => v | None => PyInt 0 end;
       end_time := match seg_end d with Some v => v | None => PyInt 0 end;
       ftext := match seg_text d with Some x => x | None => [] end;
       confidence := PyInt 0 |}
  | SegStr s =>
    {| index := i + 1; start_time := PyInt 0; end_time := PyInt 0;
       ftext := s; confidence := PyInt 0 |}
  end.

(** [for i, segment in enumerate(result["segments"])], from [i] on. *)
Fixpoint formatted_loop (i : Z) (segments : list segment_entry)
  : list formatted_segment :=
  match segments with
  | [] => []
  | segment :: rest => formatted_of i segment :: formatted_loop (i + 1) rest
  end.

(** What [transcribe_with_timestamps] does to the result of
    [transcribe_audio]. *)
Definition add_formatted_segments (result : transcription_result)
  : outcome transcription_result :=
  if success result then
    match segments result with
    | None => Raise KeyError
    | Some [] => Ok result
    | Some segments =>
      Ok {| success := success result; error := error result;
            text := text result; segments := Some segments;
            formatted_segments := Some (formatted_loop 0 segments) |}
    end
  else Ok result.

(** A segment of the segmenter as the renderer reads it. *)
Definition entry_of_segment (sg : Segmenter.segment float) : segment_entry :=
  let time (o : option float) :=
    match o with Some x => PyFloat x | None => PyNone end in
  SegDict {| seg_text := Some (Segmenter.text sg);
             seg_start := Some (time (Segmenter.start sg));
             seg_end := Some (time (Segmenter.end_ sg)) |}.

Section WithMessages.

(** [str(e)] of a caught exception. *)
Variable exn_str : exn -> pystr.

(** [transcribe_audio] from the first engine result on: the text, the time
    stamps and the words of the engine become the result dict; an
    exception on the way is caught and becomes a failure dict. *)
Definition result_of_engine (raw_text : pystr) (timestamps : list (list Z))
  (words : list pystr) : transcription_result :=
  let cleaned_text := _clean_text raw_text in
  match Segmenter._create_segments_from_timestamps
          Segmenter.ms_to_sec_float cleaned_text timestamps words with
  | Ok cleaned_segments =>
    {| success := true; error := None; text := Some cleaned_text;
       segments := Some (map entry_of_segment cleaned_segments);
       formatted_segments := None |}
  | Raise e =>
    {| success := false; error := Some (u "转录失败: " ++ exn_str e);
       text := Some []; segments := Some []; formatted_segments := None |}
  end.

End WithMessages.

End Pipeline.

(* ================================================================== *)
(** * The renderer of [mcp_server.py] *)
(* ================================================================== *)

Module McpServer.

Import Render.
Local Open Scope Z_scope.

(** [s.replace(a, b)] for two characters. *)
Definition replace_char (a b : N) (s : pystr) : pystr :=
  map (fun c => if (c =? a)%N then b else c) s.

(** [format_vtt_time]: hours and minutes as integers, the seconds within
    the minute in fixed point. *)
Definition format_vtt_time (seconds : pyval) : outcome pystr :=
  h <- py_floordiv seconds (PyInt 3600) ;;
  hours <- py_int h ;;
  r <- py_mod seconds (PyInt 3600) ;;
  q <- py_floordiv r (PyInt 60) ;;
  minutes <- py_int q ;;
  seconds <- py_mod seconds (PyInt 60) ;;
  s <- py_fmt_f3 6 seconds ;;
  Ok (fmt_d 2 hours ++ u ":" ++ fmt_d 2 minutes ++ u ":" ++ s).

(** [format_srt_time]: the same, with every dot replaced by a comma. *)
Definition format_srt_time (seconds : pyval) : outcome pystr :=
  s <- format_vtt_time seconds ;; Ok (replace_char 46 44 s).

(** [segment["start"]], [segment["end"]] and [segment["text"]]: a string
    cannot be indexed by a key, and a dict must have the key. *)
Definition item_start (segment : segment_entry) : outcome pyval :=
  match segment with
  | SegStr _ => Raise TypeError
  | SegDict d => match seg_start d with Some v => Ok v | None => Raise KeyError end
  end.

Definition item_end (segment : segment_entry) : outcome pyval :=
  match segment with
  | SegStr _ => Raise TypeError
  | SegDict d => match seg_end d with Some v => Ok v | None => Raise KeyError end
  end.

Definition item_text (segment : segment_entry) : outcome pystr :=
  match segment with
  | SegStr _ => Raise TypeError
  | SegDict d => match seg_text d with Some v => Ok v | None => Raise KeyError end
  end.

(** [for i, segment in enumerate(segments, 1)], from [i] on. *)
Fixpoint srt_loop (i : Z) (segments : list segment_entry)
  (srt_content : pystr) : outcome pystr :=
  match segments with
  | [] => Ok srt_content
  | segment :: rest =>
    st <- item_start segment ;;
    start_time <- format_srt_time st ;;
    en <- item_end segment ;;
    end_time <- format_srt_time en ;;
    t <- item_text segment ;;
    let text := strip t in
    srt_loop (i + 1) rest
      (srt_content ++ str_int i ++ nl ++ start_time ++ arrow ++ end_time
         ++ nl ++ text ++ nl ++ nl)
  end.

Fixpoint vtt_loop (segments : list segment_entry)
  (vtt_content : pystr) : outcome pystr :=
  match segments with
  | [] => Ok vtt_content
  | segment :: rest =>
    st <- item_start segment ;;
    start_time <- format_vtt_time st ;;
    en <- item_end segment ;;
    end_time <- format_vtt_time en ;;
    t <- item_text segment ;;
    let text := strip t in
    vtt_loop rest
      (vtt_content ++ start_time ++ arrow ++ end_time ++ nl ++ text ++ nl ++ nl)
  end.

Section WithLibrary.

(** [json.dumps] of the video information and the result, and [str(e)] of
    a caught exception. *)
Variable json_dumps : transcription_result -> outcome pystr.
Variable exn_str : exn -> pystr.

(** The body of the [try]. *)
Definition format_body (result : transcription_result)
  (output_format : pystr) : outcome pystr :=
  if eqb output_format (u "text") then
    Ok (match text result with Some x => x | None => [] end)
  else if eqb output_format (u "json") then json_dumps result
  else if eqb output_format (u "srt") then
    srt_loop 1 (match segments result with Some l => l | None => [] end) []
  else if eqb output_format (u "vtt") then
    vtt_loop (match segments result with Some l => l | None => [] end)
             (u "WEBVTT" ++ nl ++ nl)
  else Ok (u "不支持的输出格式: " ++ output_format).

Definition format_transcription_output (result : transcription_result)
  (output_format : pystr) : pystr :=
  match format_body result output_format with
  | Ok s => s
  | Raise e => u "格式化输出失败: " ++ exn_str e
  end.

End WithLibrary.

End McpServer.

Unset Implicit Arguments.

(* ================================================================== *)
(** * Facts about strings *)
(* ================================================================== *)

Module PyStrFacts.

Lemma eqb_eq (a : pystr) : forall b, eqb a b = true <-> a = b.
Proof.
  induction a as [|x a IH]; intros [|y b]; cbn; split; intro H;
    try reflexivity; try discriminate.
  - apply andb_true_iff in H. destruct H as [Hx Hab].
    apply N.eqb_eq in Hx. apply IH in Hab. now subst.
  - inversion H. subst. rewrite N.eqb_refl. cbn. now apply IH.
Qed.

(** A property of the integers below a bound, decided by running through
    them. *)
Lemma below_bound (P : Z -> bool) (n : nat) :
  forallb (fun k => P (Z.of_nat k)) (seq 0 n) = true ->
  forall z, (0 <= z < Z.of_nat n)%Z -> P z = true.
Proof.
  intros H z Hz. rewrite forallb_forall in H.
  specialize (H (Z.to_nat z)). rewrite Z2Nat.id in H by lia.
  apply H. apply in_seq. lia.
Qed.

End PyStrFacts.


(* ================================================================== *)
(** * Facts about the text cleaner *)
(* ================================================================== *)

Module CleanFacts.

(** ** Stripping *)

Lemma lstrip_length s : length (lstrip s) <= length s.
Proof.
  induction s as [|c t IH]; cbn; [lia|]. destruct (is_space c); cbn; lia.
Qed.

Lemma rstrip_length s : length (rstrip s) <= length s.
Proof.
  induction s as [|c t IH]; cbn; [lia|].
  destruct (rstrip t); [destruct (is_space c)|]; cbn in *; lia.
Qed.

Lemma strip_length s : length (strip s) <= length s.
Proof.
  unfold strip. pose proof (rstrip_length (lstrip s)). pose proof (lstrip_length s). lia.
Qed.

(** A string that does not start with whitespace. *)
Definition starts_clean (s : pystr) : Prop :=
  match s with [] => True | c :: _ => is_space c = false end.

Lemma lstrip_starts_clean s : starts_clean (lstrip s).
Proof.
  induction s as [|c t IH]; cbn; [exact I|].
  destruct (is_space c) eqn:E; [assumption | exact E].
Qed.

Lemma lstrip_id s : starts_clean s -> lstrip s = s.
Proof. destruct s as [|c t]; cbn; [reflexivity|]. now intros ->. Qed.

Lemma rstrip_starts_clean s : starts_clean s -> starts_clean (rstrip s).
Proof.
  destruct s as [|c t]; cbn; [auto|]. intro H.
  destruct (rstrip t); [rewrite H|]; exact H.
Qed.

Lemma rstrip_cons c t :
  rstrip (c :: t)
  = match rstrip t with
    | [] => if is_space c then [] else [c]
    | r => c :: r
    end.
Proof. reflexivity. Qed.

Lemma rstrip_idem s : rstrip (rstrip s) = rstrip s.
Proof.
  induction s as [|c t IH]; [reflexivity|]. rewrite rstrip_cons.
  destruct (rstrip t) as [|d r] eqn:E.
  - destruct (is_space c) eqn:Ec; cbn; [reflexivity | now rewrite Ec].
  - rewrite rstrip_cons, IH. reflexivity.
Qed.

Lemma strip_idem s : strip (strip s) = strip s.
Proof.
  unfold strip.
  rewrite (lstrip_id (rstrip (lstrip s))).
  - apply rstrip_idem.
  - apply rstrip_starts_clean, lstrip_starts_clean.
Qed.

(** ** Whitespace runs *)

(** Whitespace occurs only as single spaces; [prev] tells that the
    character before was one. *)
Fixpoint ws_norm (prev : bool) (s : pystr) : Prop :=
  match s with
  | [] => True
  | c :: t =>
    if is_space c then c = SP /\ prev = false /\ ws_norm true t
    else ws_norm false t
  end.

Lemma sub_ws_runs_norm s : forall b, ws_norm b (sub_ws_runs b s).
Proof.
  induction s as [|c t IH]; intro b; cbn; [exact I|].
  destruct (is_space c) eqn:E.
  - destruct b; [apply IH|]. cbn. auto.
  - cbn. rewrite E. apply IH.
Qed.

Lemma sub_ws_runs_id s : forall b, ws_norm b s -> sub_ws_runs b s = s.
Proof.
  induction s as [|c t IH]; intros b H; cbn in *; [reflexivity|].
  destruct (is_space c).
  - destruct H as (-> & -> & H). f_equal. now apply IH.
  - f_equal. now apply IH.
Qed.

Lemma sub_ws_runs_length s : forall b, length (sub_ws_runs b s) <= length s.
Proof.
  induction s as [|c t IH]; intro b; cbn; [lia|].
  destruct (is_space c); [destruct b|]; cbn;
    try pose proof (IH true); try pose proof (IH false); lia.
Qed.

Lemma lstrip_norm s : forall b b', ws_norm b s -> ws_norm b' (lstrip s).
Proof.
  induction s as [|c t IH]; intros b b' H; cbn in *; [exact I|].
  destruct (is_space c) eqn:E.
  - destruct H as (_ & _ & H). now apply IH with (b := true).
  - cbn. now rewrite E.
Qed.

Lemma rstrip_norm s : forall b, ws_norm b s -> ws_norm b (rstrip s).
Proof.
  induction s as [|c t IH]; intros b H; cbn in *; [exact I|].
  destruct (is_space c) eqn:E.
  - destruct H as (Hc & Hb & H). apply IH in H.
    destruct (rstrip t); [exact I|]. cbn [ws_norm]. rewrite E. auto.
  - apply IH in H. destruct (rstrip t); cbn [ws_norm]; rewrite E; [exact I | assumption].
Qed.

Lemma strip_collapse_norm s : ws_norm false (strip (collapse_ws s)).
Proof.
  unfold strip, collapse_ws. apply rstrip_norm.
  apply lstrip_norm with (b := false). apply sub_ws_runs_norm.
Qed.

(** Collapsing and stripping again changes nothing. *)
Lemma strip_collapse_idem s :
  strip (collapse_ws (strip (collapse_ws s))) = strip (collapse_ws s).
Proof.
  unfold collapse_ws at 1.
  rewrite (sub_ws_runs_id _ _ (strip_collapse_norm s)). apply strip_idem.
Qed.

(** ** Markup removal *)

(** The string contains a match of the markup pattern. *)
Definition contains_markup (s : pystr) : Prop :=
  exists pre body post,
    s = pre ++ [LT; PIPE] ++ body ++ [PIPE; GT] ++ post /\ ~ In PIPE body.

Lemma markup_tail_complete body post :
  ~ In PIPE body -> markup_tail (body ++ PIPE :: GT :: post) = Some post.
Proof.
  induction body as [|c body IH]; intro H; cbn.
  - reflexivity.
  - destruct (N.eqb_spec c PIPE) as [->|Hc]; [exfalso; apply H; now left|].
    apply IH. intro Hin. apply H. now right.
Qed.

Lemma markup_tail_sound s : forall r,
  markup_tail s = Some r ->
  exists body, s = body ++ PIPE :: GT :: r /\ ~ In PIPE body.
Proof.
  induction s as [|c t IH]; intros r H; cbn in H; [discriminate|].
  destruct (N.eqb_spec c PIPE) as [->|Hc].
  - destruct t as [|d t']; [discriminate|].
    destruct (N.eqb_spec d GT) as [->|Hd]; [|discriminate].
    inversion H. subst. exists []. split; [reflexivity | intros []].
  - destruct (IH r H) as (body & -> & Hb). exists (c :: body).
    split; [reflexivity|]. intros [E|E]; [congruence | contradiction].
Qed.

Lemma match_markup_sound s r :
  match_markup s = Some r ->
  exists body, s = [LT; PIPE] ++ body ++ [PIPE; GT] ++ r /\ ~ In PIPE body.
Proof.
  destruct s as [|a [|b t]]; cbn; try discriminate.
  destruct (N.eqb_spec a LT) as [->|]; [|discriminate].
  destruct (N.eqb_spec b PIPE) as [->|]; [|discriminate].
  cbn. intro H. destruct (markup_tail_sound _ _ H) as (body & -> & Hb).
  now exists body.
Qed.

Lemma match_markup_complete body post :
  ~ In PIPE body ->
  match_markup ([LT; PIPE] ++ body ++ [PIPE; GT] ++ post) = Some post.
Proof. intro H. cbn. now apply markup_tail_complete. Qed.

Lemma match_markup_length s r :
  match_markup s = Some r -> length r < length s.
Proof.
  intro H. destruct (match_markup_sound _ _ H) as (body & -> & _).
  rewrite !length_app. cbn. lia.
Qed.

Lemma remove_markup_fuel_enough f1 : forall f2 s,
  length s <= f1 -> length s <= f2 ->
  remove_markup_fuel f1 s = remove_markup_fuel f2 s.
Proof.
  induction f1 as [|f1 IH]; intros f2 s H1 H2.
  - destruct s; [|cbn in H1; lia]. now destruct f2.
  - destruct s as [|c t]; [now destruct f2|].
    destruct f2 as [|f2]; [cbn in H2; lia|].
    cbn [remove_markup_fuel].
    destruct (match_markup (c :: t)) as [rest|] eqn:E.
    + apply match_markup_length in E. apply IH; cbn in *; lia.
    + f_equal. apply IH; cbn in *; lia.
Qed.

Lemma remove_markup_fuel_step f c t :
  remove_markup_fuel (S f) (c :: t)
  = match match_markup (c :: t) with
    | Some rest => remove_markup_fuel f rest
    | None => c :: remove_markup_fuel f t
    end.
Proof. reflexivity. Qed.

(** The two equations of the scan. *)
Lemma remove_markup_match s rest :
  match_markup s = Some rest -> remove_markup s = remove_markup rest.
Proof.
  intro E. destruct s as [|c t]; [discriminate|].
  unfold remove_markup. rewrite (remove_markup_fuel_step _ c t), E.
  apply match_markup_length in E. apply remove_markup_fuel_enough; cbn in *; lia.
Qed.

Lemma remove_markup_keep c t :
  match_markup (c :: t) = None ->
  remove_markup (c :: t) = c :: remove_markup t.
Proof.
  intro E. unfold remove_markup. rewrite (remove_markup_fuel_step _ c t), E.
  reflexivity.
Qed.

Lemma remove_markup_length_le n : forall s,
  length s <= n -> length (remove_markup s) <= length s.
Proof.
  induction n as [|n IH]; intros s H.
  - destruct s; [cbn; lia | cbn in H; lia].
  - destruct s as [|c t]; [cbn; lia|].
    destruct (match_markup (c :: t)) as [rest|] eqn:E.
    + rewrite (remove_markup_match _ _ E). apply match_markup_length in E.
      assert (length (remove_markup rest) <= length rest) by (apply IH; cbn in *; lia).
      lia.
    + rewrite (remove_markup_keep _ _ E). cbn [length] in *.
      assert (length (remove_markup t) <= length t) by (apply IH; lia).
      lia.
Qed.

Lemma contains_markup_tail c t :
  match_markup (c :: t) = None -> contains_markup (c :: t) -> contains_markup t.
Proof.
  intros E (pre & body & post & Hs & Hb).
  destruct pre as [|p pre].
  - cbn [app] in Hs. rewrite Hs in E.
    change (LT :: PIPE :: body ++ PIPE :: GT :: post)
      with ([LT; PIPE] ++ body ++ [PIPE; GT] ++ post) in E.
    rewrite (match_markup_complete body post Hb) in E. discriminate.
  - inversion Hs. subst. now exists pre, body, post.
Qed.

(** Removing shortens a string that contains markup. *)
Lemma remove_markup_shrinks s :
  contains_markup s -> length (remove_markup s) < length s.
Proof.
  induction s as [|c t IH]; intro H.
  - destruct H as (pre & body & post & Hs & _). destruct pre; discriminate.
  - destruct (match_markup (c :: t)) as [rest|] eqn:E.
    + rewrite (remove_markup_match _ _ E). apply match_markup_length in E.
      pose proof (remove_markup_length_le (length rest) rest (Nat.le_refl _)). lia.
    + rewrite (remove_markup_keep _ _ E). cbn [length].
      apply contains_markup_tail in H; [|assumption]. apply IH in H. lia.
Qed.

(** Removing leaves a string without markup as it is. *)
Lemma remove_markup_id s : ~ contains_markup s -> remove_markup s = s.
Proof.
  induction s as [|c t IH]; intro H; [reflexivity|].
  destruct (match_markup (c :: t)) as [rest|] eqn:E.
  - exfalso. apply H. destruct (match_markup_sound _ _ E) as (body & Hs & Hb).
    exists [], body, rest. split; assumption.
  - rewrite (remove_markup_keep _ _ E). f_equal. apply IH.
    intros (pre & body & post & -> & Hb). apply H.
    now exists (c :: pre), body, post.
Qed.

(** ** Idempotence *)

Lemma clean_unfold x :
  _clean_text x = strip (collapse_ws (remove_markup x)).
Proof. unfold _clean_text. now destruct x. Qed.

(** Collapsing whitespace and stripping create no markup token: the
    characters that are not whitespace stay adjacent as they were, and a
    token may hold any whitespace. *)
Lemma contains_markup_cons c s : contains_markup s -> contains_markup (c :: s).
Proof.
  intros (pre & body & post & -> & Hb). now exists (c :: pre), body, post.
Qed.

Lemma contains_markup_app pre s suf :
  contains_markup s -> contains_markup (pre ++ s ++ suf).
Proof.
  intros (p & body & post & -> & Hb). exists (pre ++ p), body, (post ++ suf).
  split; [|assumption]. now rewrite <- !app_assoc.
Qed.

Lemma sub_ws_runs_false_head t d Y :
  sub_ws_runs false t = d :: Y -> is_space d = false ->
  exists t', t = d :: t' /\ Y = sub_ws_runs false t'.
Proof.
  destruct t as [|c t']; cbn [sub_ws_runs]; [discriminate|].
  destruct (is_space c) eqn:E; intros H Hd; inversion H; subst.
  - discriminate.
  - now exists t'.
Qed.

Lemma markup_tail_collapse s : forall b r,
  markup_tail (sub_ws_runs b s) = Some r -> exists r', markup_tail s = Some r'.
Proof.
  induction s as [|c t IH]; intros b r H; cbn [sub_ws_runs] in H; [discriminate|].
  destruct (is_space c) eqn:E.
  - assert (Hc : (c =? PIPE)%N = false).
    { destruct (N.eqb_spec c PIPE) as [->|]; [discriminate | reflexivity]. }
    cbn [markup_tail]. rewrite Hc.
    destruct b; [now apply (IH true r)|].
    cbn [markup_tail] in H. change (SP =? PIPE)%N with false in H.
    now apply (IH true r).
  - cbn [markup_tail] in *. destruct (c =? PIPE)%N.
    + destruct (sub_ws_runs false t) as [|d Y] eqn:Ht; [discriminate|].
      destruct (N.eqb_spec d GT) as [->|]; [|discriminate].
      destruct (sub_ws_runs_false_head _ _ _ Ht eq_refl) as (t' & -> & _).
      now exists t'.
    + now apply (IH false r).
Qed.

Lemma contains_markup_collapse s : forall b,
  contains_markup (sub_ws_runs b s) -> contains_markup s.
Proof.
  induction s as [|c t IH]; intros b H; cbn [sub_ws_runs] in H; [assumption|].
  destruct (is_space c) eqn:E.
  - apply contains_markup_cons. destruct b; [now apply (IH true)|].
    apply contains_markup_tail in H; [now apply (IH true)|].
    destruct (sub_ws_runs true t); reflexivity.
  - destruct (match_markup (c :: sub_ws_runs false t)) as [r|] eqn:Hm.
    + destruct (sub_ws_runs false t) as [|d Y] eqn:Ht; [discriminate|].
      cbn [match_markup] in Hm.
      destruct (N.eqb_spec c LT) as [->|]; [|discriminate].
      destruct (N.eqb_spec d PIPE) as [->|]; [|discriminate].
      cbn [andb] in Hm.
      destruct (sub_ws_runs_false_head _ _ _ Ht eq_refl) as (t' & -> & ->).
      destruct (markup_tail_collapse _ _ _ Hm) as [r' Hr'].
      destruct (markup_tail_sound _ _ Hr') as (body & -> & Hb).
      now exists [], body, r'.
    + apply contains_markup_cons, (IH false).
      now apply (contains_markup_tail c).
Qed.

Lemma lstrip_suffix s : exists pre, s = pre ++ lstrip s.
Proof.
  induction s as [|c t [pre IH]]; [now exists []|]. cbn [lstrip].
  destruct (is_space c).
  - exists (c :: pre). cbn. now rewrite <- IH.
  - now exists [].
Qed.

Lemma rstrip_prefix s : exists suf, s = rstrip s ++ suf.
Proof.
  induction s as [|c t [suf IH]]; [now exists []|]. rewrite rstrip_cons.
  destruct (rstrip t) as [|d r].
  - destruct (is_space c).
    + now exists (c :: t).
    + exists suf. cbn in *. now rewrite <- IH.
  - exists suf. cbn in *. now rewrite <- IH.
Qed.

Lemma contains_markup_strip s : contains_markup (strip s) -> contains_markup s.
Proof.
  intro H. unfold strip in H.
  destruct (lstrip_suffix s) as [pre Hpre].
  destruct (rstrip_prefix (lstrip s)) as [suf Hsuf].
  rewrite Hpre, Hsuf. now apply contains_markup_app.
Qed.

(** A string that removal leaves as it is contains no markup. *)
Lemma remove_markup_fixed s : remove_markup s = s -> ~ contains_markup s.
Proof.
  intros H Hc. apply remove_markup_shrinks in Hc. rewrite H in Hc. lia.
Qed.

(** C5, amended. Cleaning a cleaned text again gives the same text
    exactly when the cleaned text contains no markup token: one pass of
    removal can splice a new token together, which a second pass
    removes, as on [<<|a|>|b|>]. In particular cleaning twice is
    cleaning once for every text from which one pass of removal leaves
    no token, since collapsing whitespace and stripping create none. *)
Theorem clean_idempotent_iff x :
  (_clean_text (_clean_text x) = _clean_text x
   <-> ~ contains_markup (_clean_text x))
  /\
  (~ contains_markup (remove_markup x) ->
   _clean_text (_clean_text x) = _clean_text x)
  /\
  (remove_markup (u "<<|a|>|b|>") = u "<|b|>" /\ remove_markup (u "<|b|>") = []).
Proof.
  assert (Hback : ~ contains_markup (_clean_text x) ->
                  _clean_text (_clean_text x) = _clean_text x).
  { intro H. rewrite (clean_unfold (_clean_text x)).
    rewrite (remove_markup_id _ H). rewrite (clean_unfold x).
    apply strip_collapse_idem. }
  split; [split|split; [|split; reflexivity]].
  - intros H Hc. apply remove_markup_shrinks in Hc.
    rewrite (clean_unfold (_clean_text x)) in H.
    pose proof (strip_length (collapse_ws (remove_markup (_clean_text x)))) as H1.
    pose proof (sub_ws_runs_length (remove_markup (_clean_text x)) false) as H2.
    fold (collapse_ws (remove_markup (_clean_text x))) in H2.
    rewrite H in H1. lia.
  - exact Hback.
  - intro H. apply Hback. intro Hc. apply H.
    rewrite clean_unfold in Hc.
    apply contains_markup_strip in Hc. unfold collapse_ws in Hc.
    now apply contains_markup_collapse in Hc.
Qed.

(** C5, amended, on a text with two tokens and loose whitespace: one
    pass of removal leaves no token, and cleaning twice is cleaning
    once. *)
Lemma clean_idempotent_iff_witness :
  _clean_text (u " <|zh|> hello <|NEUTRAL|>   world ") = u "hello world"
  /\ _clean_text (_clean_text (u " <|zh|> hello <|NEUTRAL|>   world "))
     = _clean_text (u " <|zh|> hello <|NEUTRAL|>   world ").
Proof.
  split; [reflexivity|].
  apply (proj1 (proj2 (clean_idempotent_iff (u " <|zh|> hello <|NEUTRAL|>   world ")))).
  apply remove_markup_fixed. reflexivity.
Defined.

(** C5, as stated, fails: the cleaned form of this text is the token
    [<|b|>], and cleaning it again gives the empty string. *)
Lemma clean_not_idempotent :
  _clean_text (u "<<|a|>|b|>") = u "<|b|>" /\
  _clean_text (_clean_text (u "<<|a|>|b|>")) = [] /\
  _clean_text (_clean_text (u "<<|a|>|b|>")) <> _clean_text (u "<<|a|>|b|>").
Proof. repeat split. discriminate. Qed.

End CleanFacts.

(* ================================================================== *)
(** * Facts about the time codes *)
(* ================================================================== *)

Module TimeCodeFacts.

Import PyStrFacts.
Local Open Scope Z_scope.

(** The character of a decimal digit. *)
Definition digit (k : Z) : N := (48 + Z.to_N k)%N.

(** Two and three decimal digits, with leading zeros. *)
Definition dd (z : Z) : pystr := [digit (z / 10); digit (z mod 10)].


Lemma fmt_d2 z : 0 <= z < 100 -> fmt_d 2 z = dd z.
Proof.
  intro H. apply eqb_eq.
  apply (below_bound (fun z => eqb (fmt_d 2 z) (dd z)) 100); [|exact H].
  vm_compute. reflexivity.
Qed.







End TimeCodeFacts.

(* ================================================================== *)
(** * Order of binary64 quotients *)
(* ================================================================== *)

(** The division [ms / 1000.0] of the segmenter is monotone in [ms]. The
    proof reads the library's specification of binary64 ([SpecFloat]):
    rounding acts on an integer code of the position of the exact value,
    and each step of it is monotone on codes. *)
Module FloatOrder.

Local Open Scope Z_scope.

(** The position of a real number in units of [2^e], as an integer: four
    times the integer part, plus 0 (on the grid), 1 (below the middle),
    2 (the middle) or 3 (above it). *)
Definition code (r : shr_record) : Z :=
  4 * shr_m r + (if shr_r r then 2 else 0) + (if shr_s r then 1 else 0).

(** One shift to the right, on codes. *)
Definition sh (c : Z) : Z := 2 * (c / 4) + (if c mod 4 =? 0 then 0 else 1).

(** Rounding to nearest, ties to even, on codes. *)
Definition rne (c : Z) : Z :=
  let m := c / 4 in
  let k := c mod 4 in
  if k <=? 1 then m
  else if k =? 2 then (if Z.even m then m else m + 1)
  else m + 1.

Lemma shr_1_code r :
  0 <= shr_m r -> code (shr_1 r) = sh (code r) /\ 0 <= shr_m (shr_1 r).
Proof.
  destruct r as [m b s]. cbn [shr_m]. intro Hm.
  destruct m as [|p|p]; [| |lia].
  - destruct b, s; cbn; auto with zarith.
  - unfold sh, code.
    destruct p as [p|p|]; destruct b, s; cbn [shr_1 shr_m shr_r shr_s orb];
      split; try lia.
    all: match goal with |- context [?c / 4] =>
           let q := fresh "q" in let r := fresh "r" in
           remember (c / 4) as q; remember (c mod 4) as r end.
    all: match goal with Hq : ?q = ?c / 4, Hr : ?r = ?c mod 4 |- _ =>
           assert (Hc : c = 4 * q + r /\ 0 <= r < 4)
             by (subst; split; [apply Z.div_mod; lia | apply Z.mod_pos_bound; lia]) end.
    all: destruct (r =? 0) eqn:E; lia.
Qed.

Lemma iter_pos_nat {A} (f : A -> A) p : forall x,
  iter_pos f p x = Nat.iter (Pos.to_nat p) f x.
Proof.
  induction p as [p IH|p IH|]; intro x; cbn [iter_pos].
  - rewrite !IH. rewrite Pos2Nat.inj_xI. rewrite <- Nat.iter_add.
    replace (S (2 * Pos.to_nat p))%nat with (S (Pos.to_nat p + Pos.to_nat p)) by lia.
    now rewrite Nat.iter_succ_r.
  - rewrite !IH. rewrite Pos2Nat.inj_xO. rewrite <- Nat.iter_add.
    f_equal. lia.
  - reflexivity.
Qed.

Definition shn (n : nat) (c : Z) : Z := Nat.iter n sh c.

Lemma shr_n_code n : forall r,
  0 <= shr_m r ->
  code (Nat.iter n shr_1 r) = shn n (code r) /\ 0 <= shr_m (Nat.iter n shr_1 r).
Proof.
  induction n as [|n IH]; intros r Hr.
  - now split.
  - change (Nat.iter (S n) shr_1 r) with (shr_1 (Nat.iter n shr_1 r)).
    change (shn (S n) (code r)) with (sh (shn n (code r))).
    destruct (IH r Hr) as [Hc Hm].
    destruct (shr_1_code _ Hm) as [Hc' Hm'].
    split; [|assumption]. now rewrite Hc', Hc.
Qed.

Lemma sh_mono c c' : c <= c' -> sh c <= sh c'.
Proof.
  intro H. unfold sh.
  pose proof (Z.div_mod c 4 ltac:(lia)). pose proof (Z.mod_pos_bound c 4 ltac:(lia)).
  pose proof (Z.div_mod c' 4 ltac:(lia)). pose proof (Z.mod_pos_bound c' 4 ltac:(lia)).
  destruct (c mod 4 =? 0) eqn:E; destruct (c' mod 4 =? 0) eqn:E'; lia.
Qed.

Lemma shn_mono n : forall c c', c <= c' -> shn n c <= shn n c'.
Proof.
  induction n as [|n IH]; intros c c' H; [assumption|].
  change (shn (S n) c) with (sh (shn n c)).
  change (shn (S n) c') with (sh (shn n c')). apply sh_mono. now apply IH.
Qed.

Lemma sh_div c : sh c / 4 = c / 4 / 2.
Proof.
  unfold sh.
  pose proof (Z.div_mod (c / 4) 2 ltac:(lia)). pose proof (Z.mod_pos_bound (c / 4) 2 ltac:(lia)).
  symmetry. apply Z.div_unique with (r := 2 * (c / 4 mod 2) + (if c mod 4 =? 0 then 0 else 1)).
  - left. destruct (c mod 4 =? 0); lia.
  - lia.
Qed.

Lemma shn_div n : forall c, shn n c / 4 = c / 4 / 2 ^ Z.of_nat n.
Proof.
  induction n as [|n IH]; intro c.
  - cbn. now rewrite Z.div_1_r.
  - change (shn (S n) c) with (sh (shn n c)). rewrite sh_div, IH.
    rewrite Nat2Z.inj_succ, Z.pow_succ_r by lia.
    rewrite Z.div_div by lia. f_equal. lia.
Qed.

Lemma rne_mono c c' : c <= c' -> rne c <= rne c'.
Proof.
  intro H. unfold rne.
  pose proof (Z.div_mod c 4 ltac:(lia)). pose proof (Z.mod_pos_bound c 4 ltac:(lia)).
  pose proof (Z.div_mod c' 4 ltac:(lia)). pose proof (Z.mod_pos_bound c' 4 ltac:(lia)).
  assert (c / 4 < c' / 4 \/ (c / 4 = c' / 4 /\ c mod 4 <= c' mod 4)) as [Hq|[Hq Hr]] by lia.
  - destruct (c mod 4 <=? 1), (c mod 4 =? 2), (Z.even (c / 4)),
             (c' mod 4 <=? 1), (c' mod 4 =? 2), (Z.even (c' / 4)); lia.
  - rewrite Hq.
    destruct (c mod 4 <=? 1) eqn:E1, (c mod 4 =? 2) eqn:E2,
             (c' mod 4 <=? 1) eqn:E3, (c' mod 4 =? 2) eqn:E4, (Z.even (c' / 4)); lia.
Qed.

Lemma rne_bounds c : c / 4 <= rne c <= c / 4 + 1.
Proof.
  unfold rne. destruct (c mod 4 <=? 1), (c mod 4 =? 2), (Z.even (c / 4)); lia.
Qed.

Lemma rne_code r :
  round_nearest_even (shr_m r) (loc_of_shr_record r) = rne (code r).
Proof.
  destruct r as [m b s]. unfold rne, code. cbn [shr_m shr_r shr_s].
  destruct b, s; cbn [loc_of_shr_record round_nearest_even].
  all: match goal with |- context [?c / 4] =>
         assert (Hq : c / 4 = m) by (symmetry; apply Z.div_unique with (r := c - 4 * m); lia);
         assert (Hr : c mod 4 = c - 4 * m) by (symmetry; apply Z.mod_unique with (q := m); lia);
         rewrite Hq, Hr end.
  all: match goal with |- context [?a <=? 1] => replace a with (a - 0) by lia;
         ring_simplify (a - 0) end.
  all: cbn; try reflexivity.
Qed.

Lemma digits2_size p : digits2_pos p = Pos.size p.
Proof. induction p as [p IH|p IH|]; cbn; congruence. Qed.

Lemma Zdigits2_log2 m : 0 < m -> Zdigits2 m = Z.log2 m + 1.
Proof.
  destruct m as [|p|p]; try lia. intros _. cbn [Zdigits2].
  rewrite digits2_size. destruct p; cbn [Pos.size Z.log2]; lia.
Qed.

Lemma log2_52 m : 2 ^ 52 <= m < 2 ^ 53 -> Z.log2 m = 52.
Proof. intro H. apply Z.log2_unique; [lia|]. exact H. Qed.

Lemma code_div r : code r / 4 = shr_m r.
Proof.
  unfold code. symmetry.
  apply Z.div_unique with
    (r := (if shr_r r then 2 else 0) + (if shr_s r then 1 else 0));
    destruct (shr_r r), (shr_s r); lia.
Qed.

Lemma code_of_loc_div m l : code (shr_record_of_loc m l) / 4 = m.
Proof. rewrite code_div. now destruct l as [|[]]. Qed.

Lemma shr_code r e n :
  0 <= shr_m r -> 0 <= n ->
  code (fst (shr r e n)) = shn (Z.to_nat n) (code r) /\
  snd (shr r e n) = e + n /\ 0 <= shr_m (fst (shr r e n)).
Proof.
  intros Hr Hn. destruct n as [|p|p]; [| |lia]; cbn [shr fst snd].
  - repeat split; [lia | assumption].
  - rewrite iter_pos_nat. rewrite Z2Nat.inj_pos.
    destruct (shr_n_code (Pos.to_nat p) r Hr). repeat split; assumption.
Qed.

(** The float that [binary_round_aux] returns for a mantissa of at least
    53 bits, in terms of the code of its argument. *)
Definition rounded_mantissa (c : Z) : Z :=
  rne (shn (Z.to_nat (Z.log2 (c / 4) - 52)) c).

Definition normal (s : bool) (c e : Z) : spec_float :=
  let n := Z.log2 (c / 4) - 52 in
  let M0 := rounded_mantissa c in
  let M := if M0 =? 2 ^ 53 then 2 ^ 52 else M0 in
  let E := if M0 =? 2 ^ 53 then e + n + 1 else e + n in
  if E <=? 971 then S754_finite s (Z.to_pos M) E else S754_infinity s.

Lemma rounded_mantissa_bounds c :
  2 ^ 52 <= c / 4 -> 2 ^ 52 <= rounded_mantissa c <= 2 ^ 53.
Proof.
  intro H. unfold rounded_mantissa.
  set (n := Z.log2 (c / 4) - 52).
  assert (Hlog : 52 <= Z.log2 (c / 4)) by (apply Z.log2_le_pow2; lia).
  pose proof (Z.log2_spec (c / 4) ltac:(lia)) as [Hlo Hhi].
  pose proof (rne_bounds (shn (Z.to_nat n) c)) as Hb.
  rewrite shn_div in Hb. rewrite Z2Nat.id in Hb by lia.
  assert (Hp : 0 < 2 ^ n) by (apply Z.pow_pos_nonneg; lia).
  assert (H1 : 2 ^ 52 <= c / 4 / 2 ^ n).
  { apply Z.div_le_lower_bound; [assumption|].
    rewrite Z.mul_comm, <- Z.pow_add_r by lia.
    replace (52 + n) with (Z.log2 (c / 4)) by lia. assumption. }
  assert (H2 : c / 4 / 2 ^ n < 2 ^ 53).
  { apply Z.div_lt_upper_bound; [assumption|].
    rewrite <- Z.pow_add_r by lia.
    replace (n + 53) with (Z.succ (Z.log2 (c / 4))) by lia. assumption. }
  lia.
Qed.

Lemma binary_round_aux_normal s m e l :
  2 ^ 52 <= m -> -1074 <= e + (Z.log2 m - 52) ->
  binary_round_aux prec emax s m e l = normal s (code (shr_record_of_loc m l)) e.
Proof.
  intros Hm He.
  assert (Hlog : 52 <= Z.log2 m) by (apply Z.log2_le_pow2; lia).
  unfold normal. rewrite (code_of_loc_div m l).
  pose proof (rounded_mantissa_bounds (code (shr_record_of_loc m l))) as HM.
  rewrite code_of_loc_div in HM. specialize (HM Hm).
  unfold rounded_mantissa in *. rewrite code_of_loc_div in *.
  set (n := Z.log2 m - 52) in *.
  set (c := code (shr_record_of_loc m l)) in *.
  unfold binary_round_aux, shr_fexp.
  rewrite (Zdigits2_log2 m) by lia.
  replace (fexp prec emax (Z.log2 m + 1 + e) - e) with n
    by (unfold fexp, SpecFloat.emin, prec, emax; lia).
  assert (Hrec : 0 <= shr_m (shr_record_of_loc m l))
    by (destruct l as [|[]]; cbn; lia).
  destruct (shr_code (shr_record_of_loc m l) e n Hrec ltac:(lia)) as (Hc & He' & Hm').
  destruct (shr (shr_record_of_loc m l) e n) as [r' e'].
  cbn [fst snd] in *. subst e'. fold c in Hc.
  rewrite rne_code, Hc.
  set (M0 := rne (shn (Z.to_nat n) c)) in *.
  destruct (M0 =? 2 ^ 53) eqn:E.
  - apply Z.eqb_eq in E. rewrite E.
    replace (fexp prec emax (Zdigits2 (2 ^ 53) + (e + n)) - (e + n)) with 1
      by (unfold fexp, SpecFloat.emin, prec, emax; cbn [Zdigits2 Z.pow Z.pow_pos Pos.iter Z.mul Pos.mul digits2_pos Pos.succ]; lia).
    cbn. reflexivity.
  - apply Z.eqb_neq in E.
    rewrite (Zdigits2_log2 M0) by lia. rewrite (log2_52 M0) by lia.
    replace (fexp prec emax (52 + 1 + (e + n)) - (e + n)) with 0
      by (unfold fexp, SpecFloat.emin, prec, emax; lia).
    cbn [shr shr_record_of_loc shr_m].
    destruct M0 as [|p|p]; try lia. reflexivity.
Qed.

(** The mantissa and the exponent of the result: when rounding carries
    to [2^53] the mantissa is [2^52] at the next exponent. *)
Definition mant (c : Z) : Z :=
  if rounded_mantissa c =? 2 ^ 53 then 2 ^ 52 else rounded_mantissa c.

Definition expo (c e : Z) : Z :=
  if rounded_mantissa c =? 2 ^ 53 then e + (Z.log2 (c / 4) - 52) + 1
  else e + (Z.log2 (c / 4) - 52).

(** The float of a mantissa and an exponent: infinite past the largest
    exponent. *)
Definition pack (s : bool) (M E : Z) : spec_float :=
  if E <=? 971 then S754_finite s (Z.to_pos M) E else S754_infinity s.

Lemma normal_pack s c e : normal s c e = pack s (mant c) (expo c e).
Proof. reflexivity. Qed.

Lemma mant_bounds c : 2 ^ 52 <= c / 4 -> 2 ^ 52 <= mant c < 2 ^ 53.
Proof.
  intro H. pose proof (rounded_mantissa_bounds c H). unfold mant.
  destruct (rounded_mantissa c =? 2 ^ 53) eqn:E.
  - lia.
  - apply Z.eqb_neq in E. lia.
Qed.

(** Lexicographic order on (exponent, mantissa): the order of the values
    for normalised mantissas. *)
Definition lex_le (E1 M1 E2 M2 : Z) : Prop :=
  E1 < E2 \/ (E1 = E2 /\ M1 <= M2).

Lemma normal_mono c1 c2 e :
  2 ^ 52 <= c1 / 4 -> c1 <= c2 ->
  lex_le (expo c1 e) (mant c1) (expo c2 e) (mant c2).
Proof.
  intros H1 H12.
  assert (Hq : c1 / 4 <= c2 / 4) by (apply Z.div_le_mono; lia).
  assert (Hl : Z.log2 (c1 / 4) <= Z.log2 (c2 / 4)) by now apply Z.log2_le_mono.
  pose proof (rounded_mantissa_bounds c1 H1) as B1.
  pose proof (rounded_mantissa_bounds c2 ltac:(lia)) as B2.
  unfold lex_le, expo, mant.
  destruct (Z.eq_dec (Z.log2 (c1 / 4)) (Z.log2 (c2 / 4))) as [Heq|Hne].
  - assert (HM : rounded_mantissa c1 <= rounded_mantissa c2).
    { unfold rounded_mantissa. rewrite Heq. apply rne_mono, shn_mono, H12. }
    destruct (rounded_mantissa c1 =? 2 ^ 53) eqn:E1;
      destruct (rounded_mantissa c2 =? 2 ^ 53) eqn:E2;
      rewrite ?Z.eqb_eq, ?Z.eqb_neq in *; lia.
  - destruct (rounded_mantissa c1 =? 2 ^ 53) eqn:E1;
      destruct (rounded_mantissa c2 =? 2 ^ 53) eqn:E2;
      rewrite ?Z.eqb_eq, ?Z.eqb_neq in *; lia.
Qed.

Lemma pack_le M1 E1 M2 E2 :
  0 < M1 -> 0 < M2 -> lex_le E1 M1 E2 M2 ->
  SFleb (pack false M1 E1) (pack false M2 E2) = true /\
  SFleb (pack true M2 E2) (pack true M1 E1) = true.
Proof.
  intros H1 H2 H. unfold pack, SFleb, SFcompare.
  destruct (E1 <=? 971) eqn:L1; destruct (E2 <=? 971) eqn:L2;
    rewrite ?Z.leb_le, ?Z.leb_gt in *; try (split; reflexivity).
  - destruct H as [H|[He Hm]].
    + apply Z.compare_lt_iff in H as Hc. rewrite Hc.
      apply Z.compare_gt_iff in H as Hc'. rewrite Hc'. now split.
    + subst E2. rewrite Z.compare_refl.
      change (Pos.compare_cont Eq) with Pos.compare.
      assert (Hm' : (Z.to_pos M1 <= Z.to_pos M2)%positive) by lia.
      split.
      * destruct (Pos.compare_spec (Z.to_pos M1) (Z.to_pos M2)); try reflexivity. lia.
      * destruct (Pos.compare_spec (Z.to_pos M2) (Z.to_pos M1)); try reflexivity. lia.
  - unfold lex_le in H. lia.
Qed.

Lemma iter_xO p k : Zpos (Pos.iter xO p k) = Zpos p * 2 ^ Zpos k.
Proof.
  rewrite (Pos.iter_swap_gen _ _ Zpos xO (Z.mul 2)) by reflexivity.
  change (Pos.iter (Z.mul 2) (Zpos p) k) with (Z.shiftl (Zpos p) (Zpos k)).
  apply Z.shiftl_mul_pow2. lia.
Qed.

(** The float nearest to a positive integer: by how many bits
    [shl_align] shifts an integer of less than 53 bits to the left. *)
Definition lift (z : Z) : Z := Z.max 0 (52 - Z.log2 z).

Lemma binary_round_int s p :
  binary_round prec emax s p 0
  = normal s (4 * (Zpos p * 2 ^ lift (Zpos p))) (- lift (Zpos p)).
Proof.
  unfold binary_round, shl_align, lift.
  pose proof (Zdigits2_log2 (Zpos p) ltac:(lia)) as Hd. cbn [Zdigits2] in Hd.
  rewrite Hd.
  pose proof (Z.log2_nonneg (Zpos p)) as Hnn.
  pose proof (Z.log2_spec (Zpos p) ltac:(lia)) as [Hlo Hhi].
  replace (fexp prec emax (Z.log2 (Zpos p) + 1 + 0) - 0) with (Z.log2 (Zpos p) - 52)
    by (unfold fexp, SpecFloat.emin, prec, emax; lia).
  replace (fexp prec emax (Z.log2 (Zpos p) + 1 + 0)) with (Z.log2 (Zpos p) - 52)
    by (unfold fexp, SpecFloat.emin, prec, emax; lia).
  destruct (Z.log2 (Zpos p) - 52) as [|d|d] eqn:Hk.
  - replace (Z.max 0 (52 - Z.log2 (Zpos p))) with 0 by lia.
    rewrite Z.pow_0_r, Z.mul_1_r.
    rewrite binary_round_aux_normal.
    + reflexivity.
    + replace 52 with (Z.log2 (Zpos p)) by lia. assumption.
    + lia.
  - replace (Z.max 0 (52 - Z.log2 (Zpos p))) with 0 by lia.
    rewrite Z.pow_0_r, Z.mul_1_r.
    rewrite binary_round_aux_normal.
    + reflexivity.
    + apply Z.le_trans with (2 ^ Z.log2 (Zpos p)); [|assumption].
      apply Z.pow_le_mono_r; lia.
    + lia.
  - replace (Z.max 0 (52 - Z.log2 (Zpos p))) with (Zpos d) by lia.
    rewrite iter_xO.
    assert (Hb : 2 ^ 52 <= Zpos p * 2 ^ Zpos d < 2 ^ 53).
    { replace 52 with (Z.log2 (Zpos p) + Zpos d) by lia.
      replace 53 with (Z.succ (Z.log2 (Zpos p)) + Zpos d) by lia.
      rewrite !Z.pow_add_r by lia.
      assert (0 < 2 ^ Zpos d) by (apply Z.pow_pos_nonneg; lia). nia. }
    rewrite binary_round_aux_normal.
    + cbn [shr_record_of_loc]. unfold code. cbn [shr_m shr_r shr_s].
      f_equal; lia.
    + lia.
    + rewrite (log2_52 _ Hb). lia.
Qed.

(** The code of a positive integer, once shifted left to at least 53
    bits. *)
Definition conv_code (z : Z) : Z := 4 * (z * 2 ^ lift z).

Lemma rne_exact m : rne (4 * m) = m.
Proof.
  unfold rne. rewrite (Z.mul_comm 4 m), Z.div_mul, Z.mod_mul by lia. reflexivity.
Qed.

Lemma conv_code_div z : conv_code z / 4 = z * 2 ^ lift z.
Proof. unfold conv_code. rewrite Z.mul_comm, Z.div_mul by lia. reflexivity. Qed.

Lemma conv_code_big z : 0 < z -> 2 ^ 52 <= conv_code z / 4.
Proof.
  intro Hz. rewrite conv_code_div. unfold lift.
  pose proof (Z.log2_nonneg z) as Hnn.
  pose proof (Z.log2_spec z Hz) as [Hlo Hhi].
  destruct (Z.le_gt_cases 52 (Z.log2 z)) as [H|H].
  - replace (Z.max 0 (52 - Z.log2 z)) with 0 by lia. rewrite Z.pow_0_r, Z.mul_1_r.
    apply Z.le_trans with (2 ^ Z.log2 z); [|assumption].
    apply Z.pow_le_mono_r; lia.
  - replace (Z.max 0 (52 - Z.log2 z)) with (52 - Z.log2 z) by lia.
    replace 52 with (Z.log2 z + (52 - Z.log2 z)) at 1 by lia.
    rewrite Z.pow_add_r by lia.
    assert (0 < 2 ^ (52 - Z.log2 z)) by (apply Z.pow_pos_nonneg; lia). nia.
Qed.

Lemma conv_code_small z :
  0 < z -> 0 < lift z -> 2 ^ 52 <= conv_code z / 4 < 2 ^ 53.
Proof.
  intros Hz Hk. split; [now apply conv_code_big|].
  rewrite conv_code_div. unfold lift in *.
  pose proof (Z.log2_nonneg z) as Hnn.
  pose proof (Z.log2_spec z Hz) as [Hlo Hhi].
  replace (Z.max 0 (52 - Z.log2 z)) with (52 - Z.log2 z) by lia.
  replace 53 with (Z.succ (Z.log2 z) + (52 - Z.log2 z)) by lia.
  rewrite Z.pow_add_r by lia.
  assert (0 < 2 ^ (52 - Z.log2 z)) by (apply Z.pow_pos_nonneg; lia). nia.
Qed.

Lemma expo_lower c e : 2 ^ 52 <= c / 4 -> e <= expo c e.
Proof.
  intro H. assert (52 <= Z.log2 (c / 4)) by (apply Z.log2_le_pow2; lia).
  unfold expo. destruct (rounded_mantissa c =? 2 ^ 53); lia.
Qed.

Lemma conv_mono z1 z2 :
  0 < z1 -> z1 <= z2 ->
  lex_le (expo (conv_code z1) (- lift z1)) (mant (conv_code z1))
         (expo (conv_code z2) (- lift z2)) (mant (conv_code z2)).
Proof.
  intros H1 H12.
  assert (Hl : Z.log2 z1 <= Z.log2 z2) by now apply Z.log2_le_mono.
  destruct (Z.eq_dec (lift z1) (lift z2)) as [Heq|Hne].
  - rewrite Heq. apply normal_mono.
    + now apply conv_code_big.
    + unfold conv_code. rewrite Heq.
      assert (0 < 2 ^ lift z2) by (apply Z.pow_pos_nonneg; unfold lift; lia). nia.
  - assert (Hk : lift z2 < lift z1) by (unfold lift in *; lia).
    assert (Hpos : 0 < lift z1) by (unfold lift in *; lia).
    pose proof (conv_code_small z1 H1 Hpos) as Hb.
    pose proof (expo_lower (conv_code z2) (- lift z2)
                  (conv_code_big z2 ltac:(lia))) as He2.
    left.
    assert (He1 : expo (conv_code z1) (- lift z1) = - lift z1).
    { unfold expo, rounded_mantissa. rewrite (log2_52 _ Hb).
      replace (Z.to_nat (52 - 52)) with 0%nat by lia.
      change (shn 0 (conv_code z1)) with (conv_code z1).
      assert (Hr : rne (conv_code z1) = z1 * 2 ^ lift z1)
        by (unfold conv_code; apply rne_exact).
      rewrite Hr. rewrite conv_code_div in *.
      destruct (z1 * 2 ^ lift z1 =? 2 ^ 53) eqn:E; [apply Z.eqb_eq in E; lia | lia]. }
    lia.
Qed.

(** ** Division by 1000.0 *)

(** The mantissa of 1000.0, which is [D * 2^-43]. *)
Definition D : Z := 8796093022208000.

(** The code of the exact quotient of a 53-bit mantissa [m] by [D], in
    units of [2^-53]: what [SFdiv_core_binary] hands to the rounding. *)
Definition dcode (m : Z) : Z :=
  let q := m * 2 ^ 53 / D in
  let r := (m * 2 ^ 53) mod D in
  4 * q + (if r =? 0 then 0
           else match 2 * r ?= D with Lt => 1 | Eq => 2 | Gt => 3 end).

Lemma dcode_div m : dcode m / 4 = m * 2 ^ 53 / D.
Proof.
  unfold dcode. symmetry.
  set (r := (m * 2 ^ 53) mod D).
  apply Z.div_unique with
    (r := if r =? 0 then 0 else match 2 * r ?= D with Lt => 1 | Eq => 2 | Gt => 3 end).
  - left. destruct (r =? 0); [lia|]. destruct (2 * r ?= D); lia.
  - lia.
Qed.

Lemma dcode_mono m1 m2 : m1 <= m2 -> dcode m1 <= dcode m2.
Proof.
  intro H. unfold dcode.
  assert (HD : 0 < D) by reflexivity.
  pose proof (Z.div_mod (m1 * 2 ^ 53) D ltac:(lia)) as E1.
  pose proof (Z.mod_pos_bound (m1 * 2 ^ 53) D HD) as B1.
  pose proof (Z.div_mod (m2 * 2 ^ 53) D ltac:(lia)) as E2.
  pose proof (Z.mod_pos_bound (m2 * 2 ^ 53) D HD) as B2.
  assert (Hq : m1 * 2 ^ 53 / D <= m2 * 2 ^ 53 / D) by (apply Z.div_le_mono; lia).
  set (q1 := m1 * 2 ^ 53 / D) in *. set (q2 := m2 * 2 ^ 53 / D) in *.
  set (r1 := (m1 * 2 ^ 53) mod D) in *. set (r2 := (m2 * 2 ^ 53) mod D) in *.
  assert (Hc : q1 < q2 \/ (q1 = q2 /\ r1 <= r2)) by nia.
  destruct (r1 =? 0) eqn:Z1; destruct (r2 =? 0) eqn:Z2;
    rewrite ?Z.eqb_eq, ?Z.eqb_neq in *;
    destruct (Z.compare_spec (2 * r1) D); destruct (Z.compare_spec (2 * r2) D); lia.
Qed.

Lemma dcode_bounds m :
  2 ^ 52 <= m < 2 ^ 53 -> 2 ^ 52 <= dcode m / 4 < 2 ^ 54.
Proof.
  intro H. rewrite dcode_div. split.
  - apply Z.div_le_lower_bound; [reflexivity|]. unfold D. lia.
  - apply Z.div_lt_upper_bound; [reflexivity|]. unfold D. lia.
Qed.

Lemma SFdiv_1000 s mx ex :
  2 ^ 52 <= Zpos mx < 2 ^ 53 -> -52 <= ex ->
  SFdiv prec emax (S754_finite s mx ex) (S754_finite false 8796093022208000 (-43))
  = normal s (dcode (Zpos mx)) (ex - 10).
Proof.
  intros Hm He. unfold SFdiv, SFdiv_core_binary.
  rewrite (Zdigits2_log2 (Zpos mx)) by lia. rewrite (log2_52 _ Hm).
  change (Zdigits2 8796093022208000) with 53.
  replace (Z.min (fexp prec emax (52 + 1 + ex - (53 + -43))) (ex - -43))
    with (ex - 10) by (unfold fexp, SpecFloat.emin, prec, emax; lia).
  replace (ex - -43 - (ex - 10)) with 53 by lia.
  rewrite Z.shiftl_mul_pow2 by lia.
  pose proof (dcode_bounds _ Hm) as Hb. rewrite dcode_div in Hb.
  assert (Hq : Zpos mx * 2 ^ 53 / D = fst (Z.div_eucl (Zpos mx * 2 ^ 53) D)) by reflexivity.
  assert (Hr : (Zpos mx * 2 ^ 53) mod D = snd (Z.div_eucl (Zpos mx * 2 ^ 53) D)) by reflexivity.
  change 8796093022208000 with D.
  destruct (Z.div_eucl (Zpos mx * 2 ^ 53) D) as [q r] eqn:Hdiv.
  cbn [fst snd] in Hq, Hr. rewrite xorb_false_r.
  rewrite binary_round_aux_normal.
  - f_equal. unfold dcode. rewrite Hq, Hr.
    unfold new_location. change (Z.even D) with true. cbv iota.
    unfold new_location_even.
    destruct (r =? 0); [|destruct (2 * r ?= D)];
      unfold code; cbn [shr_record_of_loc shr_m shr_r shr_s]; lia.
  - lia.
  - assert (52 <= Z.log2 q) by (apply Z.log2_le_pow2; lia). lia.
Qed.

(** The quotient of the least 53-bit mantissa, [2^105 / D]: the mantissas
    of the quotients that keep the exponent are at least this one, those
    that move to the next exponent at most this one. *)
Definition Qmin : Z := 4611686018427387.

Lemma dcode_shape m e :
  2 ^ 52 <= m < 2 ^ 53 ->
  (expo (dcode m) e = e /\ Qmin <= mant (dcode m)) \/
  (expo (dcode m) e = e + 1 /\ mant (dcode m) <= Qmin).
Proof.
  intro Hm. pose proof (dcode_bounds m Hm) as Hb.
  assert (Hlo : 52 <= Z.log2 (dcode m / 4)) by (apply Z.log2_le_pow2; lia).
  assert (Hhi : Z.log2 (dcode m / 4) < 54) by (apply Z.log2_lt_pow2; lia).
  unfold expo, mant, rounded_mantissa.
  assert (Hn : Z.log2 (dcode m / 4) = 52 \/ Z.log2 (dcode m / 4) = 53) by lia.
  destruct Hn as [Hn|Hn]; rewrite Hn.
  - replace (Z.to_nat (52 - 52)) with 0%nat by lia.
    change (shn 0 (dcode m)) with (dcode m).
    pose proof (rne_bounds (dcode m)) as Hr.
    assert (HQ : Qmin <= dcode m / 4).
    { rewrite dcode_div. change Qmin with (2 ^ 52 * 2 ^ 53 / D).
      apply Z.div_le_mono; [reflexivity | lia]. }
    destruct (rne (dcode m) =? 2 ^ 53) eqn:E.
    + right. split; [lia | unfold Qmin; lia].
    + left. split; lia.
  - replace (Z.to_nat (53 - 52)) with 1%nat by lia.
    change (shn 1 (dcode m)) with (sh (dcode m)).
    assert (HM : rne (sh (dcode m)) <= Qmin).
    { change Qmin with (rne (sh (dcode (2 ^ 53 - 1)))).
      apply rne_mono, sh_mono, dcode_mono. lia. }
    destruct (rne (sh (dcode m)) =? 2 ^ 53) eqn:E.
    + apply Z.eqb_eq in E. unfold Qmin in HM. lia.
    + right. split; lia.
Qed.

Lemma div_mono M1 E1 M2 E2 :
  2 ^ 52 <= M1 < 2 ^ 53 -> 2 ^ 52 <= M2 < 2 ^ 53 ->
  lex_le E1 M1 E2 M2 ->
  lex_le (expo (dcode M1) (E1 - 10)) (mant (dcode M1))
         (expo (dcode M2) (E2 - 10)) (mant (dcode M2)).
Proof.
  intros H1 H2 [Hlt|[Heq Hle]].
  - destruct (dcode_shape M1 (E1 - 10) H1) as [[He1 Hm1]|[He1 Hm1]];
      destruct (dcode_shape M2 (E2 - 10) H2) as [[He2 Hm2]|[He2 Hm2]];
      unfold lex_le; lia.
  - subst E2. apply normal_mono.
    + apply dcode_bounds, H1.
    + now apply dcode_mono.
Qed.

(** ** From the specification to the primitive operations *)

(** The mantissa and the exponent of the float nearest to an integer. *)
Definition int_mant (z : Z) : Z := mant (conv_code (Z.abs z)).
Definition int_expo (z : Z) : Z := expo (conv_code (Z.abs z)) (- lift (Z.abs z)).

Lemma normalize_int z :
  binary_normalize prec emax z 0 false
  = match z with
    | 0 => S754_zero false
    | Zpos _ => pack false (int_mant z) (int_expo z)
    | Zneg _ => pack true (int_mant z) (int_expo z)
    end.
Proof.
  destruct z as [|p|p]; cbn [binary_normalize]; [reflexivity| |];
    rewrite binary_round_int, normal_pack; reflexivity.
Qed.

Lemma int_mant_bounds z : z <> 0 -> 2 ^ 52 <= int_mant z < 2 ^ 53.
Proof. intro H. apply mant_bounds, conv_code_big. lia. Qed.

Lemma int_expo_lower z : z <> 0 -> -52 <= int_expo z.
Proof.
  intro H. unfold int_expo.
  assert (Hpos : 0 < Z.abs z) by lia.
  pose proof (expo_lower (conv_code (Z.abs z)) (- lift (Z.abs z))
                (conv_code_big _ Hpos)).
  pose proof (Z.log2_nonneg (Z.abs z)). unfold lift in *. lia.
Qed.

Lemma pack_finite s M E :
  is_infinity (SF2Prim (pack s M E)) = false ->
  pack s M E = S754_finite s (Z.to_pos M) E /\ E <= 971.
Proof.
  unfold pack. destruct (E <=? 971) eqn:L.
  - apply Z.leb_le in L. auto.
  - destruct s; intro H; vm_compute in H; discriminate.
Qed.

Lemma Prim2SF_normal s M E :
  2 ^ 52 <= M < 2 ^ 53 -> -1074 <= E <= 971 ->
  Prim2SF (SF2Prim (S754_finite s (Z.to_pos M) E)) = S754_finite s (Z.to_pos M) E.
Proof.
  intros HM HE. apply Prim2SF_SF2Prim.
  unfold valid_binary, bounded, canonical_mantissa.
  pose proof (Zdigits2_log2 M ltac:(lia)) as Hd. rewrite (log2_52 M HM) in Hd.
  destruct M as [|p|p]; try lia. cbn [Zdigits2 Z.to_pos] in *. rewrite Hd.
  apply andb_true_intro. split.
  - apply Z.eqb_eq. unfold fexp, SpecFloat.emin, prec, emax. lia.
  - apply Z.leb_le. unfold prec, emax. lia.
Qed.

(** The quotient by 1000.0 of the float of a non-zero integer. *)
Lemma quotient_spec z :
  z <> 0 -> is_infinity (float_of_Z z) = false ->
  Prim2SF (float_of_Z z / 1000)
  = pack (z <? 0) (mant (dcode (int_mant z)))
         (expo (dcode (int_mant z)) (int_expo z - 10)).
Proof.
  intros Hz Hfin. unfold float_of_Z in *. rewrite normalize_int in *.
  pose proof (int_mant_bounds z Hz) as HM.
  pose proof (int_expo_lower z Hz) as HE.
  assert (Hs : match z with
               | 0 => S754_zero false
               | Zpos _ => pack false (int_mant z) (int_expo z)
               | Zneg _ => pack true (int_mant z) (int_expo z)
               end = pack (z <? 0) (int_mant z) (int_expo z))
    by (destruct z; [lia | reflexivity | reflexivity]).
  rewrite Hs in *. clear Hs.
  destruct (pack_finite _ _ _ Hfin) as [Hp Hle]. rewrite Hp.
  rewrite div_spec. rewrite Prim2SF_normal by lia.
  change (Prim2SF 1000) with (S754_finite false 8796093022208000 (-43)).
  unfold SF64div. rewrite SFdiv_1000.
  - rewrite normal_pack. rewrite Z2Pos.id by lia. reflexivity.
  - rewrite Z2Pos.id by lia. assumption.
  - assumption.
Qed.

Lemma pack_sign_le M1 E1 M2 E2 :
  SFleb (pack true M1 E1) (pack false M2 E2) = true /\
  SFleb (pack true M1 E1) (S754_zero false) = true /\
  SFleb (S754_zero false) (pack false M2 E2) = true.
Proof.
  unfold pack. destruct (E1 <=? 971), (E2 <=? 971); repeat split; reflexivity.
Qed.

(** Division by 1000.0 of the float nearest to an integer is monotone. *)
Theorem quotient_mono a b :
  a <= b ->
  is_infinity (float_of_Z a) = false -> is_infinity (float_of_Z b) = false ->
  (float_of_Z a / 1000 <=? float_of_Z b / 1000)%float = true.
Proof.
  intros Hab Ha Hb. rewrite leb_spec.
  destruct (Z.eq_dec a 0) as [Za|Za]; destruct (Z.eq_dec b 0) as [Zb|Zb].
  - subst. reflexivity.
  - subst a. rewrite (quotient_spec b Zb Hb).
    replace (b <? 0) with false by lia.
    change (Prim2SF (float_of_Z 0 / 1000)) with (S754_zero false).
    apply pack_sign_le. exact 0. exact 0.
  - subst b. rewrite (quotient_spec a Za Ha).
    replace (a <? 0) with true by lia.
    change (Prim2SF (float_of_Z 0 / 1000)) with (S754_zero false).
    apply pack_sign_le. exact 0. exact 0.
  - rewrite (quotient_spec a Za Ha), (quotient_spec b Zb Hb).
    pose proof (int_mant_bounds a Za) as Ma. pose proof (int_mant_bounds b Zb) as Mb.
    pose proof (mant_bounds _ (proj1 (dcode_bounds _ Ma))) as Da.
    pose proof (mant_bounds _ (proj1 (dcode_bounds _ Mb))) as Db.
    destruct (Z.ltb_spec a 0) as [Na|Na]; destruct (Z.ltb_spec b 0) as [Nb|Nb]; try lia.
    + apply pack_le; try lia. apply div_mono; try assumption.
      unfold int_expo, int_mant. apply conv_mono; lia.
    + apply pack_sign_le.
    + apply pack_le; try lia. apply div_mono; try assumption.
      unfold int_expo, int_mant. apply conv_mono; lia.
Qed.


End FloatOrder.

(* ================================================================== *)
(** * Facts about the segmenter *)
(* ================================================================== *)

Module SegmenterFacts.

Import Segmenter.
Local Open Scope Z_scope.

Lemma bind_Ok_inv {A B} (r : outcome A) (k : A -> outcome B) (b : B) :
  bind r k = Ok b -> exists a, r = Ok a /\ k a = Ok b.
Proof.
  destruct r as [a|e]; simpl; intro H; [exists a; auto | discriminate].
Qed.

Lemma mem_In (w : pystr) (l : list pystr) : mem w l = true <-> In w l.
Proof.
  unfold mem. rewrite existsb_exists. split.
  - intros [x [Hx He]]. apply PyStrFacts.eqb_eq in He. now subst.
  - intro H. exists w. split; [assumption | now apply PyStrFacts.eqb_eq].
Qed.

(** Decide the first test of the goal by computation. *)
Ltac eval_test :=
  match goal with
  | |- context [if ?c then _ else _] =>
    let v := eval vm_compute in c in change c with v; cbv iota
  end.

Section Generic.

Variable F : Type.
Variable ms_to_sec : Z -> outcome F.

Local Abbreviation segment := (segment F).
Local Abbreviation state := (segment * list segment)%type.
Local Abbreviation loop_body := (loop_body ms_to_sec).
Local Abbreviation loop := (loop ms_to_sec).
Local Abbreviation segmenter := (_create_segments_from_timestamps ms_to_sec).

(** The segment that the word [w], read with the times [a] and [b],
    makes of the current segment [cur]. *)
Definition extend (cur : segment) (w : pystr) (a b : F) : segment :=
  {| text := text cur ++ w;
     start := match start cur with None => Some a | Some s => Some s end;
     end_ := Some b;
     words := words cur ++ [{| word := w; w_start := a; w_end := b |}] |}.

(** What one iteration does, case by case. *)
Lemma loop_body_markup n i w t st :
  is_markup w = true -> loop_body n i w t st = Ok st.
Proof. intro H. unfold Segmenter.loop_body. destruct st. now rewrite H. Qed.

Lemma loop_body_word n i w t cur segs st' :
  is_markup w = false ->
  loop_body n i w t (cur, segs) = Ok st' ->
  exists s e a b,
    t = [s; e] /\ ms_to_sec s = Ok a /\ ms_to_sec e = Ok b /\
    st' = if mem w split_markers || (i =? n - 1)
          then (empty_segment F,
                if truthy (strip (text (extend cur w a b)))
                then segs ++ [extend cur w a b] else segs)
          else (extend cur w a b, segs).
Proof.
  intros Hm H. unfold Segmenter.loop_body in H. rewrite Hm in H.
  apply bind_Ok_inv in H. destruct H as [[s e] [Hu H]].
  apply bind_Ok_inv in H. destruct H as [a [Ha H]].
  apply bind_Ok_inv in H. destruct H as [b [Hb H]].
  simpl in Ha, Hb. exists s, e, a, b.
  assert (Ht : t = [s; e]).
  { destruct t as [|x [|y [|z t]]]; simpl in Hu; try discriminate.
    now inversion Hu. }
  repeat split; try assumption.
  fold (extend cur w a b) in H.
  destruct (mem w split_markers || (i =? n - 1)); inversion H; reflexivity.
Qed.

Lemma loop_body_word_ok n i w s e a b cur segs :
  is_markup w = false -> ms_to_sec s = Ok a -> ms_to_sec e = Ok b ->
  loop_body n i w [s; e] (cur, segs)
  = Ok (if mem w split_markers || (i =? n - 1)
        then (empty_segment F,
              if truthy (strip (text (extend cur w a b)))
              then segs ++ [extend cur w a b] else segs)
        else (extend cur w a b, segs)).
Proof.
  intros Hm Ha Hb. unfold Segmenter.loop_body. rewrite Hm.
  cbn [unpack2 bind fst snd]. rewrite Ha. cbn [bind]. rewrite Hb. cbn [bind].
  fold (extend cur w a b).
  destruct (mem w split_markers || (i =? n - 1)); reflexivity.
Qed.

(** An invariant of the loop may depend on the items still to read. *)
Lemma loop_invariant (I : list (pystr * list Z) -> state -> Prop) n :
  (forall i w t rest st st',
      I ((w, t) :: rest) st -> loop_body n i w t st = Ok st' -> I rest st') ->
  forall items i st res,
    I items st -> loop n i items st = Ok res -> exists cur, I [] (cur, res).
Proof.
  intros Hstep items. induction items as [|[w t] rest IH]; intros i st res HI H.
  - simpl in H. inversion H. subst. destruct st as [cur segs]. now exists cur.
  - simpl in H. apply bind_Ok_inv in H. destruct H as [st' [Hb H]].
    eapply IH; [|exact H]. eapply Hstep; eauto.
Qed.

(** The state after the items of a prefix have been read. *)
Fixpoint run (n i : Z) (items : list (pystr * list Z)) (st : state)
  : outcome state :=
  match items with
  | [] => Ok st
  | (w, t) :: rest => st' <- loop_body n i w t st ;; run n (i + 1) rest st'
  end.

Lemma loop_run n items : forall i st,
  loop n i items st = (st' <- run n i items st ;; Ok (snd st')).
Proof.
  induction items as [|[w t] rest IH]; intros i st; simpl; [reflexivity|].
  destruct (loop_body n i w t st) as [st'|e]; simpl; [apply IH | reflexivity].
Qed.

Lemma loop_app n pre : forall post i st,
  loop n i (pre ++ post) st
  = (st' <- run n i pre st ;; loop n (i + Z.of_nat (length pre)) post st').
Proof.
  induction pre as [|[w t] pre IH]; intros post i st.
  - simpl. now rewrite Z.add_0_r.
  - cbn [app Segmenter.loop run length].
    destruct (loop_body n i w t st) as [st'|e]; cbn [bind]; [|reflexivity].
    rewrite IH. now replace (i + 1 + Z.of_nat (length pre))
      with (i + Z.of_nat (S (length pre))) by lia.
Qed.

(** The loop reads [n] and [i] only in the test for the last index. *)
Lemma loop_body_ext n i n' i' w t st :
  (i =? n - 1) = (i' =? n' - 1) ->
  loop_body n i w t st = loop_body n' i' w t st.
Proof. intro H. unfold Segmenter.loop_body. now rewrite H. Qed.

Lemma run_ext n n' items : forall i i' st,
  (forall j, 0 <= j < Z.of_nat (length items) ->
             (i + j =? n - 1) = (i' + j =? n' - 1)) ->
  run n i items st = run n' i' items st.
Proof.
  induction items as [|[w t] rest IH]; intros i i' st H; [reflexivity|].
  cbn [run]. rewrite (loop_body_ext n i n' i').
  - destruct (loop_body n' i' w t st) as [st'|e]; cbn [bind]; [|reflexivity].
    apply IH. intros j Hj.
    replace (i + 1 + j) with (i + (j + 1)) by lia.
    replace (i' + 1 + j) with (i' + (j + 1)) by lia.
    apply H. cbn [length]. lia.
  - specialize (H 0). rewrite !Z.add_0_r in H. apply H. cbn [length]. lia.
Qed.

Lemma loop_ext n n' items i i' st :
  (forall j, 0 <= j < Z.of_nat (length items) ->
             (i + j =? n - 1) = (i' + j =? n' - 1)) ->
  loop n i items st = loop n' i' items st.
Proof. intro H. rewrite !loop_run. now rewrite (run_ext n n' items i i'). Qed.

(** The guard of the segmenter. *)
Lemma segmenter_loop text timestamps words :
  timestamps <> [] -> length timestamps = length words ->
  segmenter text timestamps words
  = loop (Z.of_nat (length words)) 0 (combine words timestamps)
         (empty_segment F, []).
Proof.
  intros Hne Hlen. unfold _create_segments_from_timestamps.
  destruct timestamps as [|t ts]; [congruence|].
  destruct words as [|w ws]; [discriminate|].
  cbn [is_nil orb]. rewrite Hlen, Nat.eqb_refl. reflexivity.
Qed.

(** ** Degenerate inputs *)

(** C6. If the time stamps or the words are empty, or the two lengths
    differ, the segmenter returns the empty list and raises nothing,
    whatever the text. *)
Theorem segmenter_degenerate text timestamps words :
  timestamps = [] \/ words = [] \/ length timestamps <> length words ->
  _create_segments_from_timestamps ms_to_sec text timestamps words = Ok [].
Proof.
  intro H. unfold _create_segments_from_timestamps.
  destruct timestamps as [|t ts]; [reflexivity|].
  destruct words as [|w ws]; [reflexivity|].
  destruct H as [H|[H|H]]; try discriminate.
  cbn [is_nil orb]. apply Nat.eqb_neq in H. now rewrite H.
Qed.

(** ** When a segment is closed *)

(** On the words 你 好 。 再 见 with any five time stamps the segmenter
    returns two segments: 你好。 ending at the end time of 。 and 再见
    ending at the end time of 见. In general, when the loop reads a word
    that is not markup, the current segment is closed exactly when the
    word is one of 。！？.!?,， or no word follows it; a closed segment is
    appended unless its text is empty after stripping, and the segment is
    left open, extended by the word, otherwise. A markup word never
    reaches this test ([loop_body_markup]). *)
Lemma closing_test_of_word :
  (forall text s1 e1 s2 e2 s3 e3 s4 e4 s5 e5 a1 b1 a2 b2 a3 b3 a4 b4 a5 b5,
      ms_to_sec s1 = Ok a1 -> ms_to_sec e1 = Ok b1 ->
      ms_to_sec s2 = Ok a2 -> ms_to_sec e2 = Ok b2 ->
      ms_to_sec s3 = Ok a3 -> ms_to_sec e3 = Ok b3 ->
      ms_to_sec s4 = Ok a4 -> ms_to_sec e4 = Ok b4 ->
      ms_to_sec s5 = Ok a5 -> ms_to_sec e5 = Ok b5 ->
      segmenter text [[s1; e1]; [s2; e2]; [s3; e3]; [s4; e4]; [s5; e5]]
                [u "你"; u "好"; u "。"; u "再"; u "见"]
      = Ok [ {| text := u "你好。"; start := Some a1; end_ := Some b3;
                words := [ {| word := u "你"; w_start := a1; w_end := b1 |};
                           {| word := u "好"; w_start := a2; w_end := b2 |};
                           {| word := u "。"; w_start := a3; w_end := b3 |} ] |};
             {| text := u "再见"; start := Some a4; end_ := Some b5;
                words := [ {| word := u "再"; w_start := a4; w_end := b4 |};
                           {| word := u "见"; w_start := a5; w_end := b5 |} ] |} ])
  /\
  (forall pre w t post st0,
      let n := Z.of_nat (length (pre ++ (w, t) :: post)) in
      let i := Z.of_nat (length pre) in
      loop n 0 (pre ++ (w, t) :: post) st0
      = (st <- run n 0 pre st0 ;;
         st' <- loop_body n i w t st ;; loop n (i + 1) post st')
      /\
      forall cur segs cur' segs',
        is_markup w = false ->
        loop_body n i w t (cur, segs) = Ok (cur', segs') ->
        exists s e a b,
          t = [s; e] /\ ms_to_sec s = Ok a /\ ms_to_sec e = Ok b /\
          (cur' = empty_segment F
           <-> In w [u "。"; u "！"; u "？"; u "."; u "!"; u "?"; u ","; u "，"]
               \/ post = []) /\
          (cur' = empty_segment F ->
           segs' = if truthy (strip (text cur ++ w))
                   then segs ++ [extend cur w a b] else segs) /\
          (cur' <> empty_segment F ->
           cur' = extend cur w a b /\ segs' = segs)).
Proof.
  fold split_markers. split.
  - intros text s1 e1 s2 e2 s3 e3 s4 e4 s5 e5 a1 b1 a2 b2 a3 b3 a4 b4 a5 b5
      A1 B1 A2 B2 A3 B3 A4 B4 A5 B5.
    rewrite segmenter_loop by (discriminate || reflexivity).
    cbn [combine Segmenter.loop length].
    rewrite (loop_body_word_ok _ _ _ _ _ a1 b1) by (reflexivity || assumption).
    eval_test. cbn [bind].
    rewrite (loop_body_word_ok _ _ _ _ _ a2 b2) by (reflexivity || assumption).
    eval_test. cbn [bind].
    rewrite (loop_body_word_ok _ _ _ _ _ a3 b3) by (reflexivity || assumption).
    eval_test. eval_test. cbn [bind].
    rewrite (loop_body_word_ok _ _ _ _ _ a4 b4) by (reflexivity || assumption).
    eval_test. cbn [bind].
    rewrite (loop_body_word_ok _ _ _ _ _ a5 b5) by (reflexivity || assumption).
    eval_test. eval_test. reflexivity.
  - intros pre w t post st0 n i. split.
    + subst n i. rewrite loop_app. cbn [Segmenter.loop]. rewrite Z.add_0_l.
      reflexivity.
    + intros cur segs cur' segs' Hm Hb.
      destruct (loop_body_word _ _ _ _ _ _ _ Hm Hb) as (s & e & a & b & Ht & Ha & Hbb & Hst).
      exists s, e, a, b. repeat split; try assumption.
      * intro Hc.
        destruct (mem w split_markers) eqn:Hmem; [left; now apply mem_In|].
        right. cbn [orb] in Hst.
        destruct (i =? n - 1) eqn:Hi.
        -- apply Z.eqb_eq in Hi. subst n i. rewrite length_app in Hi.
           cbn [length] in Hi. destruct post; [reflexivity | cbn [length] in Hi; lia].
        -- inversion Hst. subst cur'. discriminate.
      * intro Hc.
        assert (Hclose : mem w split_markers || (i =? n - 1) = true).
        { destruct Hc as [Hc|Hc].
          - apply mem_In in Hc. now rewrite Hc.
          - subst post n i. rewrite length_app. cbn [length].
            replace (Z.of_nat (length pre) =? Z.of_nat (length pre + 1) - 1)
              with true by (symmetry; apply Z.eqb_eq; lia).
            apply orb_true_r. }
        rewrite Hclose in Hst. now inversion Hst.
      * intro Hc. destruct (mem w split_markers || (i =? n - 1)).
        -- inversion Hst. reflexivity.
        -- inversion Hst. subst cur'. discriminate.
      * destruct (mem w split_markers || (i =? n - 1)).
        -- inversion Hst. congruence.
        -- now inversion Hst.
      * destruct (mem w split_markers || (i =? n - 1)).
        -- inversion Hst. congruence.
        -- now inversion Hst.
Qed.

(** ** Markup words *)

(** A word record of the output comes from a word of the input that is
    not markup, with the two conversions of its time stamp. *)
Definition record_of (items : list (pystr * list Z)) (wt : word_timing F)
  : Prop :=
  is_markup (word wt) = false /\
  exists s e, In (word wt, [s; e]) items /\
              ms_to_sec s = Ok (w_start wt) /\ ms_to_sec e = Ok (w_end wt).

(** A segment is made of its word records only: the text is their
    concatenation, the start is the start of the first one and the end is
    the end of the last one. *)
Definition built_from_words (items : list (pystr * list Z)) (sg : segment)
  : Prop :=
  text sg = concat (map (@word F) (words sg)) /\
  Forall (record_of items) (words sg) /\
  start sg = option_map (@w_start F) (hd_error (words sg)) /\
  end_ sg = option_map (@w_end F) (hd_error (rev (words sg))).

Lemma built_empty items : built_from_words items (empty_segment F).
Proof. repeat split. constructor. Qed.

Lemma built_extend items cur w s e a b :
  built_from_words items cur ->
  is_markup w = false -> In (w, [s; e]) items ->
  ms_to_sec s = Ok a -> ms_to_sec e = Ok b ->
  built_from_words items (extend cur w a b).
Proof.
  intros (Ht & Hw & Hs & He) Hm Hin Ha Hb. unfold extend. repeat split; cbn.
  - rewrite map_app, concat_app, Ht. cbn. now rewrite app_nil_r.
  - apply Forall_app. split; [assumption|]. constructor; [|constructor].
    split; [assumption|]. exists s, e. auto.
  - rewrite Hs. now destruct (words cur).
  - now rewrite rev_app_distr.
Qed.

Lemma loop_built all n items i st res :
  incl items all ->
  built_from_words all (fst st) -> Forall (built_from_words all) (snd st) ->
  loop n i items st = Ok res -> Forall (built_from_words all) res.
Proof.
  intros Hincl Hc Hs H.
  destruct (loop_invariant
              (fun items st => incl items all /\ built_from_words all (fst st)
                               /\ Forall (built_from_words all) (snd st)) n)
    with (items := items) (i := i) (st := st) (res := res)
    as [cur (_ & _ & Hres)]; auto.
  clear. intros i w t rest [cur segs] st' (Hincl & Hc & Hs) Hb.
  assert (Hin : In (w, t) all) by (apply Hincl; now left).
  assert (Hincl' : incl rest all) by (intros x Hx; apply Hincl; now right).
  destruct (is_markup w) eqn:Hm.
  - rewrite loop_body_markup in Hb by assumption. inversion Hb. subst. auto.
  - destruct (loop_body_word _ _ _ _ _ _ _ Hm Hb) as (s & e & a & b & Ht & Ha & Hbb & Hst).
    subst t.
    pose proof (built_extend _ _ _ _ _ _ _ Hc Hm Hin Ha Hbb) as Hext.
    cbn [fst snd] in *.
    destruct (mem w split_markers || (i =? n - 1)); subst st'; cbn [fst snd].
    + split; [assumption|]. split; [apply built_empty|].
      destruct (truthy (strip (text (extend cur w a b)))); [|assumption].
      apply Forall_app. split; [assumption | now constructor].
    + auto.
Qed.

(** Taking a markup word out of the middle of the stream changes
    nothing. *)
Lemma loop_skip_markup pre m t post st :
  is_markup m = true -> post <> [] ->
  loop (Z.of_nat (length (pre ++ (m, t) :: post))) 0 (pre ++ (m, t) :: post) st
  = loop (Z.of_nat (length (pre ++ post))) 0 (pre ++ post) st.
Proof.
  intros Hm Hpost. rewrite !loop_app.
  assert (Hlen : 0 < Z.of_nat (length post))
    by (destruct post; [congruence | cbn [length]; lia]).
  rewrite (run_ext _ (Z.of_nat (length (pre ++ post))) pre 0 0).
  - destruct (run (Z.of_nat (length (pre ++ post))) 0 pre st) as [st'|e];
      cbn [bind]; [|reflexivity].
    cbn [Segmenter.loop]. rewrite loop_body_markup by assumption. cbn [bind].
    apply loop_ext. intros j Hj. rewrite !length_app. cbn [length].
    destruct (Z.eqb_spec (0 + Z.of_nat (length pre) + 1 + j)
                (Z.of_nat (length pre + S (length post)) - 1));
    destruct (Z.eqb_spec (0 + Z.of_nat (length pre) + j)
                (Z.of_nat (length pre + length post) - 1)); try reflexivity; lia.
  - intros j Hj. rewrite !length_app. cbn [length].
    destruct (Z.eqb_spec (0 + j) (Z.of_nat (length pre + S (length post)) - 1));
    destruct (Z.eqb_spec (0 + j) (Z.of_nat (length pre + length post) - 1));
      try reflexivity; lia.
Qed.

Lemma combine_app {A B} (l1 : list A) (k1 : list B) l2 k2 :
  length l1 = length k1 ->
  combine (l1 ++ l2) (k1 ++ k2) = combine l1 k1 ++ combine l2 k2.
Proof.
  revert k1. induction l1 as [|x l1 IH]; intros [|y k1] H; try discriminate.
  - reflexivity.
  - cbn. f_equal. apply IH. now inversion H.
Qed.

(** C9. A markup word (one that starts with the opening and ends with the
    closing bracket-pipe) is skipped. Every returned segment is made of
    word records of words that are not markup: its text is the
    concatenation of their texts, its start is the start of its first
    record and its end is the end of its last record. And a markup word
    between two parts of the stream, the second not empty, can be taken
    out with its time stamp without changing what the segmenter
    returns. *)
Theorem markup_word_skipped :
  (forall text timestamps words segs,
      segmenter text timestamps words = Ok segs ->
      Forall (built_from_words (combine words timestamps)) segs)
  /\
  (forall text ts1 t ts2 ws1 m ws2,
      is_markup m = true ->
      length ts1 = length ws1 -> length ts2 = length ws2 -> ws2 <> [] ->
      segmenter text (ts1 ++ t :: ts2) (ws1 ++ m :: ws2)
      = segmenter text (ts1 ++ ts2) (ws1 ++ ws2)).
Proof.
  split.
  - intros text timestamps words segs H.
    unfold _create_segments_from_timestamps in H.
    destruct (is_nil timestamps || is_nil words
              || negb (Nat.eqb (length timestamps) (length words))).
    + inversion H. constructor.
    + eapply loop_built; [apply incl_refl | | | exact H].
      * apply built_empty.
      * constructor.
  - intros text ts1 t ts2 ws1 m ws2 Hm H1 H2 Hne.
    assert (Hts2 : ts2 <> []) by (destruct ts2, ws2; try discriminate; congruence).
    rewrite !segmenter_loop.
    + rewrite !combine_app by (symmetry; assumption). cbn [combine].
      pose proof (loop_skip_markup (combine ws1 ts1) m t (combine ws2 ts2)
                    (empty_segment F, []) Hm) as Hskip.
      rewrite !length_app in *. cbn [length] in *.
      rewrite !length_combine in Hskip. rewrite <- H1, <- H2, !Nat.min_id in Hskip.
      rewrite <- H1, <- H2. apply Hskip.
      destruct ws2, ts2; cbn; congruence.
    + destruct ts1; cbn; [assumption | discriminate].
    + rewrite !length_app. congruence.
    + destruct ts1; discriminate.
    + rewrite !length_app. cbn [length]. congruence.
Qed.

(** ** Chronological order *)

(** The items that the loop can read without raising: markup words, and
    words whose time stamp is a pair of convertible integers. *)
Definition readable (it : pystr * list Z) : Prop :=
  is_markup (fst it) = true \/
  exists s e a b, snd it = [s; e] /\ ms_to_sec s = Ok a /\ ms_to_sec e = Ok b.

Lemma loop_total n items : forall i st,
  Forall readable items -> exists res, loop n i items st = Ok res.
Proof.
  induction items as [|[w t] rest IH]; intros i st H.
  - now exists (snd st).
  - inversion H as [|x l Hr Hrest]. subst. cbn [Segmenter.loop].
    destruct st as [cur segs].
    destruct (is_markup w) eqn:Hm.
    + rewrite loop_body_markup by assumption. cbn [bind]. now apply IH.
    + destruct Hr as [Hr|(s & e & a & b & Ht & Ha & Hb)];
        cbn [fst snd] in *; [congruence|]. subst t.
      rewrite (loop_body_word_ok _ _ _ _ _ a b) by assumption.
      cbn [bind]. now apply IH.
Qed.

(** The millisecond values of the words that are not markup, in the order
    of the stream: start, end, start, end, ... *)
Definition flat_ms (items : list (pystr * list Z)) : list Z :=
  flat_map (fun it => if is_markup (fst it) then [] else snd it) items.

Definition opt_list {A} (o : option A) : list A :=
  match o with Some x => [x] | None => [] end.

Definition seg_times (sg : segment) : list F :=
  opt_list (start sg) ++ opt_list (end_ sg).

Definition all_times (segs : list segment) : list F := flat_map seg_times segs.

Definition timed (sg : segment) : Prop :=
  exists s e, start sg = Some s /\ end_ sg = Some e.

Section Order.

Variable le : F -> F -> Prop.

(** Start is at most end in every segment, and no segment starts before
    the previous one ends. *)
Definition chronological (segs : list segment) : Prop :=
  (forall sg, In sg segs ->
              exists s e, start sg = Some s /\ end_ sg = Some e /\ le s e) /\
  (forall pre a b post, segs = pre ++ a :: b :: post ->
              exists e s, end_ a = Some e /\ start b = Some s /\ le e s).

Lemma sorted_app_l (l1 l2 : list F) :
  StronglySorted le (l1 ++ l2) -> StronglySorted le l1.
Proof.
  induction l1 as [|x l1 IH]; intro H; [constructor|].
  cbn in H. inversion H as [|y l Hs Hf]. subst. constructor; [now apply IH|].
  apply Forall_app in Hf. tauto.
Qed.

Lemma sorted_app_r (l1 l2 : list F) :
  StronglySorted le (l1 ++ l2) -> StronglySorted le l2.
Proof.
  induction l1 as [|x l1 IH]; intro H; [assumption|].
  cbn in H. inversion H. now apply IH.
Qed.

Lemma sorted_snoc (l : list F) (y : F) :
  StronglySorted le l -> Forall (fun x => le x y) l ->
  StronglySorted le (l ++ [y]).
Proof.
  induction l as [|x l IH]; intros Hs Hf; cbn.
  - repeat constructor.
  - inversion Hs. inversion Hf. subst. constructor; [now apply IH|].
    apply Forall_app. split; [assumption | now repeat constructor].
Qed.

Lemma all_times_app (l1 l2 : list segment) :
  all_times (l1 ++ l2) = all_times l1 ++ all_times l2.
Proof. apply flat_map_app. Qed.

Lemma sorted_chronological (segs : list segment) :
  Forall timed segs -> StronglySorted le (all_times segs) -> chronological segs.
Proof.
  intros Ht Hs. split.
  - intros sg Hin. destruct (in_split _ _ Hin) as (l1 & l2 & ->).
    apply Forall_app in Ht. destruct Ht as [_ Ht]. inversion Ht as [|x l Hsg _].
    destruct Hsg as (s & e & Hst & Hen). exists s, e. repeat split; try assumption.
    rewrite all_times_app in Hs. apply sorted_app_r in Hs.
    cbn in Hs. unfold seg_times in Hs. rewrite Hst, Hen in Hs. cbn in Hs.
    inversion Hs as [|y l' _ Hf]. now inversion Hf.
  - intros pre a b post ->.
    apply Forall_app in Ht. destruct Ht as [_ Ht].
    inversion Ht as [|x l (sa & ea & Hsa & Hea) Ht']. subst.
    inversion Ht' as [|x l (sb & eb & Hsb & Heb) _]. subst.
    exists ea, sb. repeat split; try assumption.
    rewrite all_times_app in Hs. apply sorted_app_r in Hs.
    cbn in Hs. unfold seg_times in Hs. rewrite Hsa, Hea, Hsb, Heb in Hs.
    cbn in Hs. inversion Hs as [|y l' Hs' _]. inversion Hs' as [|y' l'' _ Hf].
    now inversion Hf.
Qed.

(** The conversion is monotone where it is defined: binary64 division by
    a positive constant rounds monotonically. *)
Hypothesis ms_to_sec_mono : forall a b x y,
  a <= b -> ms_to_sec a = Ok x -> ms_to_sec b = Ok y -> le x y.

(** A time of the state was converted from a millisecond value that
    precedes all those still to read. *)
Definition older (items : list (pystr * list Z)) (x : F) : Prop :=
  exists z, ms_to_sec z = Ok x /\ Forall (Z.le z) (flat_ms items).

Definition chrono_inv (items : list (pystr * list Z)) (st : state) : Prop :=
  StronglySorted Z.le (flat_ms items) /\
  StronglySorted le (all_times (snd st) ++ seg_times (fst st)) /\
  Forall (older items) (all_times (snd st) ++ seg_times (fst st)) /\
  Forall timed (snd st).

Lemma extend_times cur w s e a b rest (A : list F) :
  StronglySorted Z.le (s :: e :: flat_ms rest) ->
  ms_to_sec s = Ok a -> ms_to_sec e = Ok b ->
  StronglySorted le (A ++ seg_times cur) ->
  Forall (older ((w, [s; e]) :: rest)) (A ++ seg_times cur) ->
  is_markup w = false ->
  StronglySorted le (A ++ seg_times (extend cur w a b)) /\
  Forall (older rest) (A ++ seg_times (extend cur w a b)) /\
  Forall (older rest) A /\ timed (extend cur w a b).
Proof.
  intros Hms Ha Hb Hs Ho Hm.
  inversion Hms as [|x l Hms' Hs_le]. subst.
  inversion Hms' as [|x l Hms'' He_le]. subst.
  inversion Hs_le as [|x l Hse Hs_rest]. subst.
  assert (Hold : forall x, older ((w, [s; e]) :: rest) x ->
                           older rest x /\ le x a /\ le x b).
  { intros x (z & Hz & Hall). unfold flat_ms in Hall. cbn [flat_map fst snd] in Hall.
    rewrite Hm in Hall. cbn [app] in Hall.
    inversion Hall as [|y l Hzs Hall']. subst. inversion Hall' as [|y l Hze Hall'']. subst.
    split; [exists z; split; assumption|].
    split; [apply (ms_to_sec_mono z s) | apply (ms_to_sec_mono z e)]; assumption. }
  assert (Ha_old : older rest a) by (exists s; auto).
  assert (Hb_old : older rest b) by (exists e; auto).
  assert (Hab : le a b) by (apply (ms_to_sec_mono s e); assumption).
  assert (HA : Forall (older rest) A).
  { apply Forall_app in Ho. destruct Ho as [Ho _].
    eapply Forall_impl; [|exact Ho]. intros x Hx. now apply Hold. }
  unfold seg_times, extend. cbn [start end_ opt_list].
  unfold seg_times in Hs, Ho.
  destruct (start cur) as [s0|]; cbn [opt_list app] in *.
  - replace (A ++ s0 :: opt_list (end_ cur))
      with ((A ++ [s0]) ++ opt_list (end_ cur)) in Hs, Ho
      by now rewrite <- app_assoc.
    apply sorted_app_l in Hs.
    apply Forall_app in Ho. destruct Ho as [Ho _].
    replace (A ++ [s0; b]) with ((A ++ [s0]) ++ [b]) by now rewrite <- app_assoc.
    repeat split; try assumption.
    + apply sorted_snoc; [assumption|].
      eapply Forall_impl; [|exact Ho]. intros x Hx. now apply Hold.
    + apply Forall_app. split; [|now repeat constructor].
      eapply Forall_impl; [|exact Ho]. intros x Hx. now apply Hold.
    + exists s0, b. auto.
  - apply sorted_app_l in Hs.
    apply Forall_app in Ho. destruct Ho as [Ho _].
    repeat split; try assumption.
    + replace (A ++ [a; b]) with ((A ++ [a]) ++ [b]) by now rewrite <- app_assoc.
      apply sorted_snoc.
      * apply sorted_snoc; [assumption|].
        eapply Forall_impl; [|exact Ho]. intros x Hx. now apply Hold.
      * apply Forall_app. split; [|now repeat constructor].
        eapply Forall_impl; [|exact Ho]. intros x Hx. now apply Hold.
    + apply Forall_app. split; [assumption | now repeat constructor].
    + exists a, b. auto.
Qed.

Lemma chrono_step n i w t rest st st' :
  chrono_inv ((w, t) :: rest) st -> loop_body n i w t st = Ok st' ->
  chrono_inv rest st'.
Proof.
  destruct st as [cur segs]. intros (Hms & Hs & Ho & Ht) Hb. cbn [fst snd] in *.
  destruct (is_markup w) eqn:Hm.
  - rewrite loop_body_markup in Hb by assumption. inversion Hb. subst st'.
    unfold chrono_inv, older, flat_ms in *. cbn [flat_map fst snd] in *.
    rewrite Hm in *. cbn [app] in *. auto.
  - destruct (loop_body_word _ _ _ _ _ _ _ Hm Hb)
      as (s & e & a & b & -> & Ha & Hbb & Hst).
    assert (Hms' : StronglySorted Z.le (s :: e :: flat_ms rest)).
    { unfold flat_ms in Hms. cbn [flat_map fst snd] in Hms. now rewrite Hm in Hms. }
    destruct (extend_times cur w s e a b rest (all_times segs) Hms' Ha Hbb Hs Ho Hm)
      as (Hs' & Ho' & HA & Htimed).
    assert (Hrest : StronglySorted Z.le (flat_ms rest)).
    { inversion Hms' as [|x l H1 _]. now inversion H1. }
    unfold chrono_inv.
    destruct (mem w split_markers || (i =? n - 1)); subst st'; cbn [fst snd].
    + destruct (truthy (strip (text (extend cur w a b)))).
      * rewrite all_times_app. cbn [all_times flat_map seg_times start end_
                                     empty_segment opt_list].
        rewrite !app_nil_r. repeat split; try assumption.
        apply Forall_app. split; [assumption | now constructor].
      * cbn [seg_times start end_ empty_segment opt_list]. rewrite !app_nil_r.
        repeat split; try assumption. now apply sorted_app_l in Hs'.
    + repeat split; assumption.
Qed.

(** For a monotone conversion: when every word that is not markup has a
    pair of convertible integers as time stamp, and these millisecond
    values, read in the order of the stream, never decrease, the segments
    returned are in chronological order. *)
Lemma chronological_of_monotone text timestamps words :
  Forall readable (combine words timestamps) ->
  StronglySorted Z.le (flat_ms (combine words timestamps)) ->
  exists segs,
    segmenter text timestamps words = Ok segs /\ chronological segs.
Proof.
  intros Hr Hms. unfold _create_segments_from_timestamps.
  destruct (is_nil timestamps || is_nil words
            || negb (Nat.eqb (length timestamps) (length words))).
  - exists []. split; [reflexivity|]. split.
    + intros sg [].
    + intros [|x pre] a b post H; discriminate.
  - destruct (loop_total (Z.of_nat (length words)) (combine words timestamps) 0
                (empty_segment F, []) Hr) as [segs Hsegs].
    exists segs. split; [assumption|].
    destruct (loop_invariant chrono_inv (Z.of_nat (length words)))
      with (items := combine words timestamps) (i := 0)
           (st := (empty_segment F, @nil segment)) (res := segs)
      as [cur (_ & Hs & _ & Ht)].
    + intros i w t rest st st'. apply chrono_step.
    + repeat split; try assumption; constructor.
    + assumption.
    + cbn [fst snd] in *. apply sorted_chronological; [assumption|].
      now apply sorted_app_l in Hs.
Qed.

End Order.

End Generic.

(** ** The Python instance *)

Abbreviation segmenter_float := (_create_segments_from_timestamps ms_to_sec_float).

(** Python's [x <= y] on floats. *)
Definition float_le (x y : float) : Prop := (x <=? y)%float = true.

(** [ms / 1000.0] is monotone in [ms] wherever it is defined. *)
Lemma ms_to_sec_float_mono a b x y :
  a <= b -> ms_to_sec_float a = Ok x -> ms_to_sec_float b = Ok y -> float_le x y.
Proof.
  unfold ms_to_sec_float, int_to_float. intros Hab Ha Hb.
  destruct (is_infinity (float_of_Z a)) eqn:Ia; cbn [bind] in Ha; [discriminate|].
  destruct (is_infinity (float_of_Z b)) eqn:Ib; cbn [bind] in Hb; [discriminate|].
  inversion Ha. inversion Hb. subst.
  now apply FloatOrder.quotient_mono.
Qed.

(** C3, amended. When every word that is not markup has a time stamp of
    two integers in the range of a float, and these millisecond values,
    read in the order of the stream (start, end, start, end, ...), never
    decrease, the segmenter returns segments whose times, the binary64
    quotients [ms / 1000.0], satisfy start <= end in every segment, and in
    which each segment starts no earlier than the previous one ends. *)
Theorem segments_chronological text timestamps words :
  Forall (readable float ms_to_sec_float) (combine words timestamps) ->
  StronglySorted Z.le (flat_ms (combine words timestamps)) ->
  exists segs,
    _create_segments_from_timestamps ms_to_sec_float text timestamps words = Ok segs
    /\ chronological float float_le segs.
Proof.
  apply chronological_of_monotone. exact ms_to_sec_float_mono.
Qed.

(** C6 at the two inputs of the specification. *)
Lemma segmenter_degenerate_witness :
  segmenter_float (u "ab") [] [] = Ok [] /\
  segmenter_float (u "ab") [[0; 100]] [u "a"; u "b"] = Ok [].
Proof.
  split; apply segmenter_degenerate.
  - left. reflexivity.
  - right. right. cbn. lia.
Defined.

(** The two segments on binary64, with stamps of half a second. *)
Lemma closing_test_of_word_example :
  segmenter_float [] [[0; 500]; [500; 1000]; [1000; 1500]; [1500; 2000]; [2000; 2500]]
    [u "你"; u "好"; u "。"; u "再"; u "见"]
  = Ok [ {| text := u "你好。"; start := Some 0%float; end_ := Some 1.5%float;
            words := [ {| word := u "你"; w_start := 0%float; w_end := 0.5%float |};
                       {| word := u "好"; w_start := 0.5%float; w_end := 1%float |};
                       {| word := u "。"; w_start := 1%float; w_end := 1.5%float |} ] |};
         {| text := u "再见"; start := Some 1.5%float; end_ := Some 2.5%float;
            words := [ {| word := u "再"; w_start := 1.5%float; w_end := 2%float |};
                       {| word := u "见"; w_start := 2%float; w_end := 2.5%float |} ] |} ].
Proof.
  apply (proj1 (closing_test_of_word float ms_to_sec_float));
    reflexivity.
Defined.

(** C9 on a markup word between two words, with a time stamp that could
    not even be unpacked. *)
Lemma markup_word_skipped_witness :
  segmenter_float [] [[0; 500]; [7]; [500; 1000]] [u "a"; u "<|x|>"; u "b"]
  = segmenter_float [] [[0; 500]; [500; 1000]] [u "a"; u "b"].
Proof.
  apply (proj2 (markup_word_skipped float ms_to_sec_float)
           [] [[0; 500]] [7] [[500; 1000]] [u "a"] (u "<|x|>") [u "b"]);
    [reflexivity | reflexivity | reflexivity | discriminate].
Defined.

(** C3, amended, on three words with a markup word among them: the
    stamps 1 ms, 1001 ms and 1002 ms give times that binary64 rounds. *)
Lemma segments_chronological_witness :
  exists segs,
    segmenter_float []
      [[0; 1]; [9; 3]; [1; 1001]; [1001; 1002]]
      [u "a"; u "<|x|>"; u "。"; u "b"] = Ok segs
    /\ chronological float float_le segs.
Proof.
  apply (segments_chronological []
           [[0; 1]; [9; 3]; [1; 1001]; [1001; 1002]]
           [u "a"; u "<|x|>"; u "。"; u "b"]).
  - cbn [combine].
    apply Forall_cons;
      [right; cbn [snd]; do 4 eexists; repeat split; reflexivity|].
    apply Forall_cons; [left; reflexivity|].
    repeat (apply Forall_cons;
            [right; cbn [snd]; do 4 eexists; repeat split; reflexivity|]).
    apply Forall_nil.
  - cbv [flat_ms flat_map combine fst snd app]. cbn.
    repeat constructor; lia.
Defined.

(** C3, as stated, fails: these two tokens each have start at most end,
    but the second precedes the first, and the one segment returned
    starts at 0.5 and ends at 0.1 seconds. *)
Lemma segments_not_chronological :
  exists segs,
    segmenter_float (u "ab") [[500; 600]; [0; 100]] [u "a"; u "b"] = Ok segs
    /\ length segs = 1%nat
    /\ ~ chronological float float_le segs.
Proof.
  eexists. split; [reflexivity|]. split; [reflexivity|].
  intros [H _]. destruct (H _ (or_introl eq_refl)) as (s & e & Hs & He & Hle).
  cbn in Hs, He. inversion Hs. inversion He. subst.
  vm_compute in Hle. discriminate.
Qed.

(** C2. The example of the specification holds on the code: 你 好 。 再 见
    gives the two segments 你好。 and 再见, the first ending with 。 and
    the second with the last word; and each of the eight marks
    。！？.!?,， closes the segment it is read in. The general rule does
    not hold: a markup word is skipped before the test for the last
    index is reached, so when the last word of the stream is a markup
    token the segment still open is never closed, and its words are
    lost. Without the markup word the same stream gives the segment. *)
Theorem segment_lost_at_trailing_markup :
  segmenter_float [] [[0; 500]; [500; 1000]; [1000; 1500]; [1500; 2000]; [2000; 2500]]
    [u "你"; u "好"; u "。"; u "再"; u "见"]
  = Ok [ {| text := u "你好。"; start := Some 0%float; end_ := Some 1.5%float;
            words := [ {| word := u "你"; w_start := 0%float; w_end := 0.5%float |};
                       {| word := u "好"; w_start := 0.5%float; w_end := 1%float |};
                       {| word := u "。"; w_start := 1%float; w_end := 1.5%float |} ] |};
         {| text := u "再见"; start := Some 1.5%float; end_ := Some 2.5%float;
            words := [ {| word := u "再"; w_start := 1.5%float; w_end := 2%float |};
                       {| word := u "见"; w_start := 2%float; w_end := 2.5%float |} ] |} ]
  /\
  (forall m,
      In m [u "。"; u "！"; u "？"; u "."; u "!"; u "?"; u ","; u "，"] ->
      segmenter_float [] [[0; 500]; [500; 1000]; [1000; 1500]] [u "a"; m; u "b"]
      = Ok [ {| text := u "a" ++ m; start := Some 0%float; end_ := Some 1%float;
                words := [ {| word := u "a"; w_start := 0%float; w_end := 0.5%float |};
                           {| word := m; w_start := 0.5%float; w_end := 1%float |} ] |};
             {| text := u "b"; start := Some 1%float; end_ := Some 1.5%float;
                words := [ {| word := u "b"; w_start := 1%float;
                              w_end := 1.5%float |} ] |} ])
  /\
  segmenter_float (u "a") [[0; 500]; [500; 1000]] [u "a"; u "<|x|>"] = Ok []
  /\
  segmenter_float (u "a") [[0; 500]] [u "a"]
  = Ok [ {| text := u "a"; start := Some 0%float; end_ := Some 0.5%float;
            words := [ {| word := u "a"; w_start := 0%float; w_end := 0.5%float |} ] |} ].
Proof.
  split; [reflexivity|]. split; [|split; reflexivity].
  intros m Hm. cbn [In] in Hm.
  repeat (destruct Hm as [<-|Hm]; [vm_compute; reflexivity|]).
  destruct Hm.
Qed.

End SegmenterFacts.

(* ================================================================== *)
(** * Facts about the renderer *)
(* ================================================================== *)

Module RenderFacts.

Import Render.
Local Open Scope Z_scope.

(** ** Tier 1 *)

(** The cues of [formatted_segments], one after the other: each is the
    entry's own index, its two times through the SRT formatter, and its
    text. *)
Fixpoint formatted_cues (l : list formatted_segment) : outcome pystr :=
  match l with
  | [] => Ok []
  | sg :: rest =>
    st <- _seconds_to_srt_time (start_time sg) ;;
    en <- _seconds_to_srt_time (end_time sg) ;;
    tl <- formatted_cues rest ;;
    Ok (srt_block (str_int (index sg)) st en (ftext sg) ++ tl)
  end.

Lemma srt_formatted_loop_cues l : forall acc,
  srt_formatted_loop l acc = (c <- formatted_cues l ;; Ok (acc ++ c)).
Proof.
  induction l as [|sg rest IH]; intro acc; cbn [srt_formatted_loop formatted_cues bind].
  - now rewrite app_nil_r.
  - destruct (_seconds_to_srt_time (start_time sg)) as [st|e]; cbn [bind]; [|reflexivity].
    destruct (_seconds_to_srt_time (end_time sg)) as [en|e]; cbn [bind]; [|reflexivity].
    rewrite IH. destruct (formatted_cues rest) as [tl|e]; cbn [bind]; [|reflexivity].
    now rewrite app_assoc.
Qed.

Lemma srt_formatted_loop_nil l : srt_formatted_loop l [] = formatted_cues l.
Proof.
  rewrite srt_formatted_loop_cues. destruct (formatted_cues l); reflexivity.
Qed.

Lemma format_srt dict_repr json_dumps r :
  success r = true ->
  format_transcription_output dict_repr json_dumps r (u "srt") = _format_as_srt r.
Proof. intro H. unfold format_transcription_output. now rewrite H. Qed.

Lemma format_as_srt_tier1 r f fs :
  formatted_segments r = Some (f :: fs) ->
  _format_as_srt r = formatted_cues (f :: fs).
Proof.
  intro H. unfold _format_as_srt. rewrite H. apply srt_formatted_loop_nil.
Qed.

(** ** What a block is made of *)

(** A character that is neither a newline nor a space. *)
Definition plain (c : N) : Prop := c <> 10%N /\ c <> 32%N.

Lemma uint_chars_plain d : Forall plain (uint_chars d).
Proof.
  induction d; cbn [uint_chars]; constructor; try assumption; split; discriminate.
Qed.

Lemma str_int_plain z : Forall plain (str_int z).
Proof.
  unfold str_int, digits. destruct (z <? 0).
  - constructor; [split; discriminate | apply uint_chars_plain].
  - apply uint_chars_plain.
Qed.

Lemma fmt_d_plain w z : Forall plain (fmt_d w z).
Proof.
  unfold fmt_d, zero_pad, digits. apply Forall_app. split.
  - destruct (z <? 0); repeat constructor; discriminate.
  - apply Forall_app. split; [|apply uint_chars_plain].
    apply Forall_forall. intros x Hx. apply repeat_spec in Hx. subst.
    split; discriminate.
Qed.

Lemma srt_time_plain v s : _seconds_to_srt_time v = Ok s -> Forall plain s.
Proof.
  unfold _seconds_to_srt_time. destruct (srt_fields v) as [[[[h m] sc] ms]|e];
    cbn [bind]; intro H; [|discriminate]. injection H as <-. unfold srt_print.
  repeat first [ apply fmt_d_plain
               | apply Forall_app; split; [apply fmt_d_plain|]
               | apply Forall_cons; [split; discriminate|] ].
Qed.

(** Two strings that agree up to and after a separator that neither
    prefix contains have the same prefix. *)
Lemma split_at (c : N) a : forall b x y,
  ~ In c a -> ~ In c b -> a ++ c :: x = b ++ c :: y -> a = b /\ x = y.
Proof.
  induction a as [|d a IH]; intros [|d' b] x y Ha Hb H; cbn in H.
  - inversion H. auto.
  - inversion H. subst. exfalso. apply Hb. now left.
  - inversion H. subst. exfalso. apply Ha. now left.
  - inversion H. subst.
    destruct (IH b x y) as [-> ->]; try assumption; auto.
    + intro Hin. apply Ha. now right.
    + intro Hin. apply Hb. now right.
Qed.

Lemma plain_no_newline s : Forall plain s -> ~ In 10%N s.
Proof.
  intros H Hin. rewrite Forall_forall in H. destruct (H _ Hin) as [H1 _]. now apply H1.
Qed.

Lemma plain_no_space s : Forall plain s -> ~ In 32%N s.
Proof.
  intros H Hin. rewrite Forall_forall in H. destruct (H _ Hin) as [_ H2]. now apply H2.
Qed.

(** [str] is injective on integers. *)
Lemma uint_chars_inj d1 : forall d2, uint_chars d1 = uint_chars d2 -> d1 = d2.
Proof.
  induction d1; intros [] H; cbn in H; try discriminate; try reflexivity;
    injection H as H; f_equal; now apply IHd1.
Qed.

Lemma uint_chars_digits d : Forall (fun c => c <> 45%N) (uint_chars d).
Proof.
  induction d; cbn [uint_chars]; constructor; try assumption; discriminate.
Qed.

Lemma digits_inj a b : 0 <= a -> 0 <= b -> digits a = digits b -> a = b.
Proof.
  unfold digits. intros Ha Hb H. apply uint_chars_inj in H.
  apply (f_equal N.of_uint) in H. rewrite !DecimalN.Unsigned.of_to in H. lia.
Qed.

Lemma str_int_inj a b : str_int a = str_int b -> a = b.
Proof.
  unfold str_int.
  destruct (Z.ltb_spec a 0) as [Ha|Ha]; destruct (Z.ltb_spec b 0) as [Hb|Hb]; intro H.
  - injection H as H. apply digits_inj in H; lia.
  - pose proof (uint_chars_digits (N.to_uint (Z.to_N b))) as Hd.
    fold (digits b) in Hd. rewrite <- H in Hd. inversion Hd. congruence.
  - pose proof (uint_chars_digits (N.to_uint (Z.to_N a))) as Hd.
    fold (digits a) in Hd. rewrite H in Hd. inversion Hd. congruence.
  - now apply digits_inj.
Qed.

(** Two blocks followed by anything are equal only if their numbers and
    time codes are. *)
Lemma srt_block_inj n1 a1 b1 t1 r1 n2 a2 b2 t2 r2 :
  Forall plain n1 -> Forall plain n2 ->
  Forall plain a1 -> Forall plain a2 -> Forall plain b1 -> Forall plain b2 ->
  srt_block n1 a1 b1 t1 ++ r1 = srt_block n2 a2 b2 t2 ++ r2 ->
  n1 = n2 /\ a1 = a2 /\ b1 = b2.
Proof.
  intros Hn1 Hn2 Ha1 Ha2 Hb1 Hb2 H. unfold srt_block in H.
  change arrow with [32; 45; 45; 62; 32]%N in H. unfold nl in H.
  rewrite <- !app_assoc in H. cbn [app] in H.
  apply split_at in H; try now apply plain_no_newline.
  destruct H as [-> H]. split; [reflexivity|].
  apply split_at in H; try now apply plain_no_space.
  destruct H as [-> H]. split; [reflexivity|].
  injection H as H.
  apply split_at in H; try now apply plain_no_newline.
  now destruct H.
Qed.

(** ** The loops, piece by piece *)

Lemma srt_formatted_loop_app pre : forall l acc,
  srt_formatted_loop (pre ++ l) acc
  = (x <- srt_formatted_loop pre acc ;; srt_formatted_loop l x).
Proof.
  induction pre as [|g pre IH]; intros l acc; [reflexivity|].
  cbn [app srt_formatted_loop].
  destruct (_seconds_to_srt_time (start_time g)); cbn [bind]; [|reflexivity].
  destruct (_seconds_to_srt_time (end_time g)); cbn [bind]; [|reflexivity].
  apply IH.
Qed.

Lemma srt_formatted_loop_extends l : forall acc s,
  srt_formatted_loop l acc = Ok s -> exists c, s = acc ++ c.
Proof.
  intros acc s H. rewrite srt_formatted_loop_cues in H.
  destruct (formatted_cues l) as [c|]; cbn [bind] in H; [|discriminate].
  inversion H. now exists c.
Qed.

Lemma srt_segments_loop_app pre : forall l i acc,
  srt_segments_loop i (pre ++ l) acc
  = (x <- srt_segments_loop i pre acc ;;
     srt_segments_loop (i + Z.of_nat (length pre)) l x).
Proof.
  induction pre as [|g pre IH]; intros l i acc.
  - cbn. now rewrite Z.add_0_r.
  - cbn [app srt_segments_loop length].
    replace (i + Z.of_nat (S (length pre))) with (i + 1 + Z.of_nat (length pre)) by lia.
    destruct g as [s|[t [st|] [en|]]]; try apply IH.
    destruct (_seconds_to_srt_time st); cbn [bind]; [|reflexivity].
    destruct (_seconds_to_srt_time en); cbn [bind]; [|reflexivity].
    apply IH.
Qed.

Lemma srt_segments_loop_extends l : forall i acc s,
  srt_segments_loop i l acc = Ok s -> exists c, s = acc ++ c.
Proof.
  induction l as [|g l IH]; intros i acc s H; cbn [srt_segments_loop] in H.
  - inversion H. exists []. now rewrite app_nil_r.
  - destruct g as [x|[t [st|] [en|]]]; try (now apply (IH _ _ _ H)).
    destruct (_seconds_to_srt_time st); cbn [bind] in H; [|discriminate].
    destruct (_seconds_to_srt_time en); cbn [bind] in H; [|discriminate].
    destruct (IH _ _ _ H) as [c ->]. rewrite <- app_assoc. eauto.
Qed.

(** The blocks of [formatted_segments] with the layout written out: the
    number, a newline, the two time codes around [ --> ], a newline, the
    text and two newlines. *)
Fixpoint srt_cues_of_formatted (l : list formatted_segment) : outcome pystr :=
  match l with
  | [] => Ok []
  | sg :: rest =>
    st <- _seconds_to_srt_time (start_time sg) ;;
    en <- _seconds_to_srt_time (end_time sg) ;;
    tl <- srt_cues_of_formatted rest ;;
    Ok (str_int (index sg) ++ [10%N] ++ st ++ [32; 45; 45; 62; 32]%N ++ en
        ++ [10%N] ++ ftext sg ++ [10; 10]%N ++ tl)
  end.

Lemma srt_cues_of_formatted_eq l : srt_cues_of_formatted l = formatted_cues l.
Proof.
  induction l as [|sg rest IH]; [reflexivity|].
  cbn [srt_cues_of_formatted formatted_cues]. rewrite IH.
  destruct (_seconds_to_srt_time (start_time sg)); cbn [bind]; [|reflexivity].
  destruct (_seconds_to_srt_time (end_time sg)); cbn [bind]; [|reflexivity].
  destruct (formatted_cues rest); cbn [bind]; [|reflexivity].
  unfold srt_block. change arrow with [32; 45; 45; 62; 32]%N. unfold nl.
  now rewrite <- !app_assoc.
Qed.

(** The entries of the two sources pair up, from position [k] on, and
    print the same: the index is the position plus one, the time codes
    are the same once formatted, and the texts are equal. *)
Fixpoint same_print (k : Z) (l : list formatted_segment)
  (segs : list segment_entry) : Prop :=
  match l, segs with
  | [], [] => True
  | g :: l', SegDict d :: segs' =>
    (exists st en,
        seg_start d = Some st /\ seg_end d = Some en /\
        _seconds_to_srt_time (start_time g) = _seconds_to_srt_time st /\
        _seconds_to_srt_time (end_time g) = _seconds_to_srt_time en)
    /\ index g = k + 1
    /\ ftext g = match seg_text d with Some t => t | None => [] end
    /\ same_print (k + 1) l' segs'
  | _, _ => False
  end.

Lemma same_print_same_output l : forall segs k acc,
  same_print k l segs ->
  srt_formatted_loop l acc = srt_segments_loop k segs acc.
Proof.
  induction l as [|g l IH]; intros [|x segs] k acc H; cbn [same_print] in H;
    try contradiction; [reflexivity|].
  destruct x as [s|d]; [contradiction|].
  destruct H as ((st & en & Hst & Hen & Ha & Hb) & Hi & Ht & Hrest).
  destruct d as [t st' en']. cbn [seg_start seg_end seg_text] in *. subst st' en'.
  cbn [srt_formatted_loop srt_segments_loop]. rewrite Ha, Hb, Hi, Ht.
  destruct (_seconds_to_srt_time st); cbn [bind]; [|reflexivity].
  destruct (_seconds_to_srt_time en); cbn [bind]; [|reflexivity].
  now apply IH.
Qed.

(** C1, amended. With success true and a non-empty [formatted_segments],
    the SRT output is made of the entries of [formatted_segments] alone:
    each block carries the entry's own index and its start and end time
    through the SRT formatter. Neither [segments] nor the text is read:
    any other result with the same [formatted_segments] renders the
    same. The output differs from the tier-2 rendering of [segments]
    whenever, after a common printed prefix, the next block of the two
    sources differs in its number (the entry's index against the
    position in [segments]) or in a time code as it is printed, that is
    to the millisecond. When the entries of the two sources pair up and
    print the same, the output is the one of tier 2, whatever the times
    are below the millisecond. *)
Theorem srt_prefers_formatted_segments dict_repr json_dumps r f fs :
  success r = true ->
  formatted_segments r = Some (f :: fs) ->
  format_transcription_output dict_repr json_dumps r (u "srt")
  = srt_cues_of_formatted (f :: fs)
  /\
  (forall r', success r' = true ->
              formatted_segments r' = formatted_segments r ->
              format_transcription_output dict_repr json_dumps r' (u "srt")
              = format_transcription_output dict_repr json_dumps r (u "srt"))
  /\
  (forall pre1 g post1 pre2 d post2 p st en a1 b1 a2 b2 s,
      f :: fs = pre1 ++ g :: post1 ->
      segments r = Some (pre2 ++ SegDict d :: post2) ->
      srt_formatted_loop pre1 [] = Ok p ->
      srt_segments_loop 0 pre2 [] = Ok p ->
      seg_start d = Some st -> seg_end d = Some en ->
      _seconds_to_srt_time (start_time g) = Ok a1 ->
      _seconds_to_srt_time (end_time g) = Ok b1 ->
      _seconds_to_srt_time st = Ok a2 ->
      _seconds_to_srt_time en = Ok b2 ->
      index g <> Z.of_nat (length pre2) + 1 \/ a1 <> a2 \/ b1 <> b2 ->
      format_transcription_output dict_repr json_dumps r (u "srt") = Ok s ->
      srt_segments_loop 0 (pre2 ++ SegDict d :: post2) [] <> Ok s)
  /\
  (forall segs,
      same_print 0 (f :: fs) segs ->
      format_transcription_output dict_repr json_dumps r (u "srt")
      = srt_segments_loop 0 segs []).
Proof.
  intros Hs Hf. rewrite (format_srt _ _ r Hs), (format_as_srt_tier1 r f fs Hf).
  split; [now rewrite srt_cues_of_formatted_eq|]. split; [|split].
  - intros r' Hs' Hf'. rewrite (format_srt _ _ r' Hs').
    apply format_as_srt_tier1. congruence.
  - intros pre1 g post1 pre2 d post2 p st en a1 b1 a2 b2 s
      Hsplit _ Hp1 Hp2 Hst Hen Ha1 Hb1 Ha2 Hb2 Hdiff Hout Htier2.
    rewrite <- srt_formatted_loop_nil, Hsplit, srt_formatted_loop_app, Hp1 in Hout.
    cbn [bind srt_formatted_loop] in Hout. rewrite Ha1, Hb1 in Hout. cbn [bind] in Hout.
    apply srt_formatted_loop_extends in Hout. destruct Hout as [c1 Hc1].
    rewrite srt_segments_loop_app, Hp2 in Htier2. cbn [bind srt_segments_loop] in Htier2.
    destruct d as [t st' en']. cbn [seg_start seg_end] in Hst, Hen. subst st' en'.
    rewrite Ha2, Hb2 in Htier2. cbn [bind] in Htier2.
    apply srt_segments_loop_extends in Htier2. destruct Htier2 as [c2 Hc2].
    rewrite Hc1 in Hc2. rewrite <- !app_assoc in Hc2. apply app_inv_head in Hc2.
    apply srt_block_inj in Hc2;
      try apply str_int_plain; try (eapply srt_time_plain; eassumption).
    destruct Hc2 as (Hn & Ha & Hb). apply str_int_inj in Hn.
    destruct Hdiff as [Hd|[Hd|Hd]]; [apply Hd; lia | now apply Hd | now apply Hd].
  - intros segs Hsame. rewrite <- srt_formatted_loop_nil.
    now apply same_print_same_output.
Qed.

(** ** Tier 2 without time stamps *)

(** An entry that is not a dict with both a start and an end key. *)
Definition untimed (entry : segment_entry) : Prop :=
  match entry with
  | SegStr _ => True
  | SegDict d => seg_start d = None \/ seg_end d = None
  end.

Lemma srt_segments_loop_untimed segs : forall i acc,
  Forall untimed segs -> srt_segments_loop i segs acc = Ok acc.
Proof.
  induction segs as [|entry rest IH]; intros i acc H; [reflexivity|].
  inversion H as [|x l Hu Hrest]. subst. cbn [srt_segments_loop].
  destruct entry as [s|[t [st|] [en|]]]; cbn in Hu;
    try (destruct Hu; discriminate); now apply IH.
Qed.

(** C10. With success true, no or an empty [formatted_segments], and a
    non-empty [segments] in which no entry is a dict with both a start and
    an end key, the SRT output is the empty string, whatever the text: the
    fallback on the text is not run. *)
Theorem srt_empty_when_segments_untimed dict_repr json_dumps r s segs :
  success r = true ->
  formatted_segments r = None \/ formatted_segments r = Some [] ->
  segments r = Some (s :: segs) ->
  Forall untimed (s :: segs) ->
  format_transcription_output dict_repr json_dumps r (u "srt") = Ok [].
Proof.
  intros Hs Hf Hsegs Hu. rewrite (format_srt _ _ r Hs). unfold _format_as_srt.
  destruct Hf as [Hf|Hf]; rewrite Hf, Hsegs; now apply srt_segments_loop_untimed.
Qed.

(** ** Tier 3: the fallback *)








(** The splitter in the words of the specification. Nothing in these
    definitions uses the renderer's own [split_sentences],
    [estimate_duration], [ends_with_terminator] or [srt_block]. *)










(** *** The code's splitter is the specified one *)












(** *** Lengths *)



(** *** The duration and the clock *)







(** ** Exceptions leave the renderer *)

(** The formatter [conv] returns on both times of an entry of
    [formatted_segments]. *)
Definition returns (conv : pyval -> outcome pystr) (g : formatted_segment) : Prop :=
  exists a b, conv (start_time g) = Ok a /\ conv (end_time g) = Ok b.

(** The formatter [conv] raises [e] on an entry: on its start time, or on
    its end time after the start time went through. *)
Definition raises (conv : pyval -> outcome pystr) (g : formatted_segment)
  (e : exn) : Prop :=
  conv (start_time g) = Raise e \/
  exists a, conv (start_time g) = Ok a /\ conv (end_time g) = Raise e.

(** The two times of an entry of [segments] that is a dict with a start
    and an end key. *)
Definition entry_times (entry : segment_entry) : option (pyval * pyval) :=
  match entry with
  | SegDict {| seg_start := Some st; seg_end := Some en |} => Some (st, en)
  | _ => None
  end.

Definition entry_returns (conv : pyval -> outcome pystr) (entry : segment_entry)
  : Prop :=
  exists st en a b,
    entry_times entry = Some (st, en) /\ conv st = Ok a /\ conv en = Ok b.

Definition entry_raises (conv : pyval -> outcome pystr) (entry : segment_entry)
  (e : exn) : Prop :=
  exists st en,
    entry_times entry = Some (st, en) /\
    (conv st = Raise e \/ exists a, conv st = Ok a /\ conv en = Raise e).

Lemma srt_formatted_loop_returns l : forall acc,
  Forall (returns _seconds_to_srt_time) l ->
  exists s, srt_formatted_loop l acc = Ok s.
Proof.
  induction l as [|g l IH]; intros acc H; cbn [srt_formatted_loop]; [eauto|].
  inversion H as [|x y (a & b & Ha & Hb) Hl]. subst.
  rewrite Ha, Hb. cbn [bind]. now apply IH.
Qed.

Lemma srt_formatted_loop_raises pre : forall g post acc e,
  Forall (returns _seconds_to_srt_time) pre ->
  raises _seconds_to_srt_time g e ->
  srt_formatted_loop (pre ++ g :: post) acc = Raise e.
Proof.
  induction pre as [|x pre IH]; intros g post acc e Hpre Hg;
    cbn [app srt_formatted_loop].
  - destruct Hg as [Hg|(a & Ha & Hb)].
    + now rewrite Hg.
    + now rewrite Ha, Hb.
  - inversion Hpre as [|y z (a & b & Ha & Hb) Hl]. subst.
    rewrite Ha, Hb. cbn [bind]. now apply IH.
Qed.

Lemma vtt_formatted_loop_returns l : forall acc,
  Forall (returns _seconds_to_vtt_time) l ->
  exists s, vtt_formatted_loop l acc = Ok s.
Proof.
  induction l as [|g l IH]; intros acc H; cbn [vtt_formatted_loop]; [eauto|].
  inversion H as [|x y (a & b & Ha & Hb) Hl]. subst.
  rewrite Ha, Hb. cbn [bind]. now apply IH.
Qed.

Lemma vtt_formatted_loop_raises pre : forall g post acc e,
  Forall (returns _seconds_to_vtt_time) pre ->
  raises _seconds_to_vtt_time g e ->
  vtt_formatted_loop (pre ++ g :: post) acc = Raise e.
Proof.
  induction pre as [|x pre IH]; intros g post acc e Hpre Hg;
    cbn [app vtt_formatted_loop].
  - destruct Hg as [Hg|(a & Ha & Hb)].
    + now rewrite Hg.
    + now rewrite Ha, Hb.
  - inversion Hpre as [|y z (a & b & Ha & Hb) Hl]. subst.
    rewrite Ha, Hb. cbn [bind]. now apply IH.
Qed.

Lemma entry_times_dict entry st en :
  entry_times entry = Some (st, en) ->
  exists t, entry = SegDict {| seg_text := t; seg_start := Some st;
                               seg_end := Some en |}.
Proof.
  destruct entry as [s|[t [st'|] [en'|]]]; cbn; intro H; try discriminate.
  injection H as -> ->. now exists t.
Qed.

Lemma srt_segments_loop_returns l : forall i acc,
  Forall (entry_returns _seconds_to_srt_time) l ->
  exists s, srt_segments_loop i l acc = Ok s.
Proof.
  induction l as [|x l IH]; intros i acc H; cbn [srt_segments_loop]; [eauto|].
  inversion H as [|y z (st & en & a & b & Ht & Ha & Hb) Hl]. subst.
  destruct (entry_times_dict _ _ _ Ht) as [t ->].
  rewrite Ha, Hb. cbn [bind]. now apply IH.
Qed.

Lemma srt_segments_loop_raises pre : forall x post i acc e,
  Forall (entry_returns _seconds_to_srt_time) pre ->
  entry_raises _seconds_to_srt_time x e ->
  srt_segments_loop i (pre ++ x :: post) acc = Raise e.
Proof.
  induction pre as [|y pre IH]; intros x post i acc e Hpre Hx;
    cbn [app srt_segments_loop].
  - destruct Hx as (st & en & Ht & Hx). destruct (entry_times_dict _ _ _ Ht) as [t ->].
    destruct Hx as [Hx|(a & Ha & Hb)].
    + now rewrite Hx.
    + now rewrite Ha, Hb.
  - inversion Hpre as [|y' z (st & en & a & b & Ht & Ha & Hb) Hl]. subst.
    destruct (entry_times_dict _ _ _ Ht) as [t ->].
    rewrite Ha, Hb. cbn [bind]. now apply IH.
Qed.

Lemma vtt_segments_loop_returns dict_repr l : forall i acc,
  Forall (entry_returns _seconds_to_vtt_time) l ->
  exists s, vtt_segments_loop dict_repr i l acc = Ok s.
Proof.
  induction l as [|x l IH]; intros i acc H; cbn [vtt_segments_loop]; [eauto|].
  inversion H as [|y z (st & en & a & b & Ht & Ha & Hb) Hl]. subst.
  destruct (entry_times_dict _ _ _ Ht) as [t ->]. cbn [seg_start seg_end].
  rewrite Ha, Hb. cbn [bind]. now apply IH.
Qed.

Lemma vtt_segments_loop_raises dict_repr pre : forall x post i acc e,
  Forall (entry_returns _seconds_to_vtt_time) pre ->
  entry_raises _seconds_to_vtt_time x e ->
  vtt_segments_loop dict_repr i (pre ++ x :: post) acc = Raise e.
Proof.
  induction pre as [|y pre IH]; intros x post i acc e Hpre Hx;
    cbn [app vtt_segments_loop].
  - destruct Hx as (st & en & Ht & Hx). destruct (entry_times_dict _ _ _ Ht) as [t ->].
    cbn [seg_start seg_end]. destruct Hx as [Hx|(a & Ha & Hb)].
    + now rewrite Hx.
    + now rewrite Ha, Hb.
  - inversion Hpre as [|y' z (st & en & a & b & Ht & Ha & Hb) Hl]. subst.
    destruct (entry_times_dict _ _ _ Ht) as [t ->]. cbn [seg_start seg_end].
    rewrite Ha, Hb. cbn [bind]. now apply IH.
Qed.

Lemma format_vtt dict_repr json_dumps r :
  success r = true ->
  format_transcription_output dict_repr json_dumps r (u "vtt")
  = _format_as_vtt dict_repr r.
Proof. intro H. unfold format_transcription_output. now rewrite H. Qed.

(** C4, amended. The renderer catches nothing. A failed result is
    rendered, for every format, as the failure text. For a successful
    result that has time stamps, in a non-empty [formatted_segments] or,
    without it, in a non-empty [segments] of dicts with start and end,
    SRT (VTT) rendering returns a string when the SRT (VTT) time-code
    formatter returns on every start and end time, and raises the
    formatter's exception, as it is, at the first entry on which the
    formatter raises; and both formatters raise a ValueError on an
    infinite time. *)
Theorem renderer_catches_nothing dict_repr json_dumps r :
  (success r = false ->
   forall output_format,
     format_transcription_output dict_repr json_dumps r output_format
     = Ok (u "转录失败: "
           ++ match error r with Some e => e | None => u "未知错误" end))
  /\
  (success r = true ->
   forall f fs, formatted_segments r = Some (f :: fs) ->
     (Forall (returns _seconds_to_srt_time) (f :: fs) ->
      exists s, format_transcription_output dict_repr json_dumps r (u "srt") = Ok s)
     /\
     (Forall (returns _seconds_to_vtt_time) (f :: fs) ->
      exists s, format_transcription_output dict_repr json_dumps r (u "vtt") = Ok s)
     /\
     (forall pre g post e,
         f :: fs = pre ++ g :: post ->
         Forall (returns _seconds_to_srt_time) pre ->
         raises _seconds_to_srt_time g e ->
         format_transcription_output dict_repr json_dumps r (u "srt") = Raise e)
     /\
     (forall pre g post e,
         f :: fs = pre ++ g :: post ->
         Forall (returns _seconds_to_vtt_time) pre ->
         raises _seconds_to_vtt_time g e ->
         format_transcription_output dict_repr json_dumps r (u "vtt") = Raise e))
  /\
  (success r = true ->
   formatted_segments r = None \/ formatted_segments r = Some [] ->
   forall x xs, segments r = Some (x :: xs) ->
     (Forall (entry_returns _seconds_to_srt_time) (x :: xs) ->
      exists s, format_transcription_output dict_repr json_dumps r (u "srt") = Ok s)
     /\
     (Forall (entry_returns _seconds_to_vtt_time) (x :: xs) ->
      exists s, format_transcription_output dict_repr json_dumps r (u "vtt") = Ok s)
     /\
     (forall pre y post e,
         x :: xs = pre ++ y :: post ->
         Forall (entry_returns _seconds_to_srt_time) pre ->
         entry_raises _seconds_to_srt_time y e ->
         format_transcription_output dict_repr json_dumps r (u "srt") = Raise e)
     /\
     (forall pre y post e,
         x :: xs = pre ++ y :: post ->
         Forall (entry_returns _seconds_to_vtt_time) pre ->
         entry_raises _seconds_to_vtt_time y e ->
         format_transcription_output dict_repr json_dumps r (u "vtt") = Raise e))
  /\
  (_seconds_to_srt_time (PyFloat infinity) = Raise ValueError /\
   _seconds_to_vtt_time (PyFloat infinity) = Raise ValueError).
Proof.
  split; [|split; [|split]]; [| | |split; vm_compute; reflexivity].
  - intros Hs output_format. unfold format_transcription_output. now rewrite Hs.
  - intros Hs f fs Hf.
    rewrite (format_srt _ _ r Hs), (format_vtt _ _ r Hs).
    unfold _format_as_srt, _format_as_vtt. rewrite Hf.
    split; [|split; [|split]].
    + apply srt_formatted_loop_returns.
    + apply vtt_formatted_loop_returns.
    + intros pre g post e -> Hpre Hg. now apply srt_formatted_loop_raises.
    + intros pre g post e -> Hpre Hg. now apply vtt_formatted_loop_raises.
  - intros Hs Hf x xs Hx.
    rewrite (format_srt _ _ r Hs), (format_vtt _ _ r Hs).
    unfold _format_as_srt, _format_as_vtt.
    destruct Hf as [Hf|Hf]; rewrite Hf, Hx.
    all: split; [|split; [|split]].
    all: try apply srt_segments_loop_returns.
    all: try apply vtt_segments_loop_returns.
    all: intros pre y post e -> Hpre Hy.
    all: first [ now apply srt_segments_loop_raises
               | now apply vtt_segments_loop_raises ].
Qed.

(** ** Examples *)

Definition no_repr (d : segment_dict) : pystr := [].
Definition no_json (r : transcription_result) : outcome pystr := Raise TypeError.

Definition both_tiers : transcription_result :=
  {| success := true; error := None; text := Some (u "hi");
     segments := Some [SegDict {| seg_text := Some (u "hi");
                                  seg_start := Some (PyFloat 0);
                                  seg_end := Some (PyFloat 1) |}];
     formatted_segments :=
       Some [{| index := 7; start_time := PyFloat 10; end_time := PyFloat 12.5;
                ftext := u "hi"; confidence := PyInt 0 |}] |}.

(** A result whose sources differ below the millisecond only. *)
Definition submilli : transcription_result :=
  {| success := true; error := None; text := Some (u "hi");
     segments := Some [SegDict {| seg_text := Some (u "hi");
                                  seg_start := Some (PyFloat 0);
                                  seg_end := Some (PyFloat 1) |}];
     formatted_segments :=
       Some [{| index := 1; start_time := PyFloat 0;
                end_time := PyFloat 1.00048828125;
                ftext := u "hi"; confidence := PyInt 0 |}] |}.

(** C1, as stated, fails: the two sources disagree on the end time, and
    the output is the one of tier 2, since both end times print as
    00:00:01,000. *)
Lemma sources_disagree_output_agrees :
  (1.00048828125 =? 1)%float = false
  /\ format_transcription_output no_repr no_json submilli (u "srt")
     = Ok (u "1" ++ nl ++ u "00:00:00,000 --> 00:00:01,000" ++ nl ++ u "hi" ++ nl ++ nl)
  /\ srt_segments_loop 0 [SegDict {| seg_text := Some (u "hi");
                                     seg_start := Some (PyFloat 0);
                                     seg_end := Some (PyFloat 1) |}] []
     = format_transcription_output no_repr no_json submilli (u "srt").
Proof. repeat split; vm_compute; reflexivity. Qed.

(** C1, amended, on a result whose two sources disagree on the number
    and on the times, and on the one whose sources differ below the
    millisecond. *)
Lemma srt_prefers_formatted_segments_witness :
  format_transcription_output no_repr no_json both_tiers (u "srt")
  = Ok (u "7" ++ nl ++ u "00:00:10,000 --> 00:00:12,500" ++ nl ++ u "hi" ++ nl ++ nl)
  /\ srt_segments_loop 0 [SegDict {| seg_text := Some (u "hi");
                                     seg_start := Some (PyFloat 0);
                                     seg_end := Some (PyFloat 1) |}] []
     = Ok (u "1" ++ nl ++ u "00:00:00,000 --> 00:00:01,000" ++ nl ++ u "hi" ++ nl ++ nl)
  /\ srt_segments_loop 0 [SegDict {| seg_text := Some (u "hi");
                                     seg_start := Some (PyFloat 0);
                                     seg_end := Some (PyFloat 1) |}] []
     <> Ok (u "7" ++ nl ++ u "00:00:10,000 --> 00:00:12,500" ++ nl ++ u "hi" ++ nl ++ nl)
  /\ format_transcription_output no_repr no_json submilli (u "srt")
     = srt_segments_loop 0 [SegDict {| seg_text := Some (u "hi");
                                       seg_start := Some (PyFloat 0);
                                       seg_end := Some (PyFloat 1) |}] [].
Proof.
  destruct (srt_prefers_formatted_segments no_repr no_json both_tiers
              {| index := 7; start_time := PyFloat 10; end_time := PyFloat 12.5;
                 ftext := u "hi"; confidence := PyInt 0 |} []
              eq_refl eq_refl) as (H1 & _ & H3 & _).
  assert (Hout : format_transcription_output no_repr no_json both_tiers (u "srt")
                 = Ok (u "7" ++ nl ++ u "00:00:10,000 --> 00:00:12,500" ++ nl
                       ++ u "hi" ++ nl ++ nl))
    by (rewrite H1; vm_compute; reflexivity).
  split; [exact Hout|]. split; [vm_compute; reflexivity|]. split.
  - apply (H3 [] {| index := 7; start_time := PyFloat 10; end_time := PyFloat 12.5;
                    ftext := u "hi"; confidence := PyInt 0 |} []
              [] {| seg_text := Some (u "hi"); seg_start := Some (PyFloat 0);
                    seg_end := Some (PyFloat 1) |} []
              [] (PyFloat 0) (PyFloat 1)
              (u "00:00:10,000") (u "00:00:12,500")
              (u "00:00:00,000") (u "00:00:01,000")
              (u "7" ++ nl ++ u "00:00:10,000 --> 00:00:12,500" ++ nl
               ++ u "hi" ++ nl ++ nl));
      try (vm_compute; reflexivity).
    left. discriminate.
  - apply (proj2 (proj2 (proj2
             (srt_prefers_formatted_segments no_repr no_json submilli
                {| index := 1; start_time := PyFloat 0;
                   end_time := PyFloat 1.00048828125;
                   ftext := u "hi"; confidence := PyInt 0 |} []
                eq_refl eq_refl)))).
    cbn [same_print seg_start seg_end seg_text index ftext start_time end_time].
    split; [|repeat split].
    exists (PyFloat 0), (PyFloat 1).
    repeat split; vm_compute; reflexivity.
Defined.

Definition untimed_segments : transcription_result :=
  {| success := true; error := None; text := Some (u "Hello. World.");
     segments := Some [SegStr (u "Hello");
                       SegDict {| seg_text := Some (u "World");
                                  seg_start := None; seg_end := None |}];
     formatted_segments := None |}.

(** C10 on a string entry and a dict entry without times; the fallback on
    the same text would print two blocks. *)
Lemma srt_empty_when_segments_untimed_witness :
  format_transcription_output no_repr no_json untimed_segments (u "srt") = Ok []
  /\ srt_fallback untimed_segments
     = Ok (srt_block (u "1") (u "00:00:00,000") (u "00:00:02,000") (u "Hello。")
           ++ srt_block (u "2") (u "00:00:02,000") (u "00:00:04,000") (u "World。")).
Proof.
  split; [|reflexivity].
  apply (srt_empty_when_segments_untimed no_repr no_json untimed_segments
           (SegStr (u "Hello"))
           [SegDict {| seg_text := Some (u "World");
                       seg_start := None; seg_end := None |}]).
  - reflexivity.
  - left. reflexivity.
  - reflexivity.
  - repeat constructor.
Defined.



(** A result with an end time that is a float, and infinite. *)
Definition infinite_time : transcription_result :=
  {| success := true; error := None; text := Some (u "a");
     segments := Some [SegDict {| seg_text := Some (u "a");
                                  seg_start := Some (PyFloat 0);
                                  seg_end := Some (PyFloat infinity) |}];
     formatted_segments :=
       Some [{| index := 1; start_time := PyFloat 0; end_time := PyFloat infinity;
                ftext := u "a"; confidence := PyInt 0 |}] |}.

(** The same without [formatted_segments], as [transcribe_audio] shapes
    its result. *)
Definition infinite_segment : transcription_result :=
  {| success := true; error := None; text := Some (u "a");
     segments := Some [SegDict {| seg_text := Some (u "a");
                                  seg_start := Some (PyFloat 0);
                                  seg_end := Some (PyFloat infinity) |}];
     formatted_segments := None |}.

(** The result of [transcribe_audio] when the engine returns nothing. *)
Definition failed : transcription_result :=
  {| success := false; error := Some (u "未获取到转录结果"); text := Some [];
     segments := Some []; formatted_segments := None |}.

(** C4, as stated, fails: an infinite end time is a float, the floor
    division by 3600 gives a NaN, [int] raises a ValueError on it, and
    the exception leaves the renderer, in SRT and in VTT, from
    [formatted_segments] as from [segments]. *)
Lemma renderer_raises_on_infinite_time :
  format_transcription_output no_repr no_json infinite_time (u "srt")
  = Raise ValueError
  /\ format_transcription_output no_repr no_json infinite_time (u "vtt")
     = Raise ValueError
  /\ format_transcription_output no_repr no_json infinite_segment (u "srt")
     = Raise ValueError
  /\ format_transcription_output no_repr no_json infinite_segment (u "vtt")
     = Raise ValueError.
Proof. repeat split; vm_compute; reflexivity. Qed.

(** C4, amended, on a failed result, on a result whose times convert and
    on results with an infinite end time. *)
Lemma renderer_catches_nothing_witness :
  format_transcription_output no_repr no_json failed (u "srt")
  = Ok (u "转录失败: 未获取到转录结果")
  /\ (exists s, format_transcription_output no_repr no_json both_tiers (u "srt") = Ok s)
  /\ (exists s, format_transcription_output no_repr no_json both_tiers (u "vtt") = Ok s)
  /\ format_transcription_output no_repr no_json infinite_time (u "srt")
     = Raise ValueError
  /\ format_transcription_output no_repr no_json infinite_time (u "vtt")
     = Raise ValueError
  /\ format_transcription_output no_repr no_json infinite_segment (u "srt")
     = Raise ValueError
  /\ format_transcription_output no_repr no_json infinite_segment (u "vtt")
     = Raise ValueError.
Proof.
  split; [|split; [|split; [|split; [|split; [|split]]]]].
  - rewrite (proj1 (renderer_catches_nothing no_repr no_json failed) eq_refl (u "srt")).
    vm_compute. reflexivity.
  - apply (proj1 (proj1 (proj2 (renderer_catches_nothing no_repr no_json both_tiers))
                    eq_refl _ _ eq_refl)).
    repeat constructor. exists (u "00:00:10,000"), (u "00:00:12,500").
    split; vm_compute; reflexivity.
  - apply (proj1 (proj2 (proj1 (proj2 (renderer_catches_nothing no_repr no_json
                                         both_tiers))
                           eq_refl _ _ eq_refl))).
    repeat constructor. exists (u "00:00:10.000"), (u "00:00:12.500").
    split; vm_compute; reflexivity.
  - apply (proj1 (proj2 (proj2 (proj1 (proj2 (renderer_catches_nothing no_repr
                                                no_json infinite_time))
                                  eq_refl _ _ eq_refl)))
             [] _ [] ValueError eq_refl (Forall_nil _)).
    right. exists (u "00:00:00,000"). split; vm_compute; reflexivity.
  - apply (proj2 (proj2 (proj2 (proj1 (proj2 (renderer_catches_nothing no_repr
                                                no_json infinite_time))
                                  eq_refl _ _ eq_refl)))
             [] _ [] ValueError eq_refl (Forall_nil _)).
    right. exists (u "00:00:00.000"). split; vm_compute; reflexivity.
  - apply (proj1 (proj2 (proj2 (proj1 (proj2 (proj2 (renderer_catches_nothing
                                                       no_repr no_json
                                                       infinite_segment)))
                                  eq_refl (or_introl eq_refl) _ _ eq_refl)))
             [] _ [] ValueError eq_refl (Forall_nil _)).
    exists (PyFloat 0), (PyFloat infinity). split; [reflexivity|].
    right. exists (u "00:00:00,000"). split; vm_compute; reflexivity.
  - apply (proj2 (proj2 (proj2 (proj1 (proj2 (proj2 (renderer_catches_nothing
                                                       no_repr no_json
                                                       infinite_segment)))
                                  eq_refl (or_introl eq_refl) _ _ eq_refl)))
             [] _ [] ValueError eq_refl (Forall_nil _)).
    exists (PyFloat 0), (PyFloat infinity). split; [reflexivity|].
    right. exists (u "00:00:00.000"). split; vm_compute; reflexivity.
Defined.

End RenderFacts.

(* ================================================================== *)
(** * More about strings *)
(* ================================================================== *)

Module PyStrMore.

Lemma lstrip_nil_iff s : lstrip s = [] <-> forallb is_space s = true.
Proof.
  induction s as [|c t IH]; cbn; [tauto|].
  destruct (is_space c); cbn; [exact IH | split; discriminate].
Qed.

Lemma rstrip_nil_iff s : rstrip s = [] <-> forallb is_space s = true.
Proof.
  induction s as [|c t IH]; [cbn; tauto|]. rewrite CleanFacts.rstrip_cons. cbn [forallb].
  destruct (rstrip t) as [|d r].
  - destruct (is_space c); cbn.
    + split; [intros _; now apply IH | reflexivity].
    + split; discriminate.
  - split; [discriminate|]. intro H. apply andb_true_iff in H.
    destruct H as [_ H]. apply IH in H. discriminate.
Qed.

Lemma lstrip_all_space s : forallb is_space s = true -> lstrip s = [].
Proof. apply lstrip_nil_iff. Qed.

(** A string is empty after stripping exactly when all its characters are
    whitespace. *)
Lemma strip_nil_iff s : strip s = [] <-> forallb is_space s = true.
Proof.
  unfold strip. split.
  - intro H. apply rstrip_nil_iff in H.
    induction s as [|c t IH]; [reflexivity|]. cbn in *.
    destruct (is_space c) eqn:E; cbn; [now apply IH|].
    cbn in H. rewrite E in H. discriminate.
  - intro H. now rewrite (lstrip_all_space s H).
Qed.


End PyStrMore.


(* ================================================================== *)
(** * More about the segmenter *)
(* ================================================================== *)

Module SegmenterMore.

Import Segmenter SegmenterFacts PyStrMore.
Local Open Scope Z_scope.

Section Generic.

Variable F : Type.
Variable ms_to_sec : Z -> outcome F.

Local Abbreviation segment := (segment F).
Local Abbreviation state := (segment * list segment)%type.
Local Abbreviation loop_body := (loop_body ms_to_sec).
Local Abbreviation loop := (loop ms_to_sec).

(** An invariant of the loop that may depend on the index and on the items
    still to read. *)
Lemma loop_invariant_indexed
  (I : Z -> list (pystr * list Z) -> state -> Prop) n :
  (forall i w t rest st st',
      I i ((w, t) :: rest) st -> loop_body n i w t st = Ok st' ->
      I (i + 1) rest st') ->
  forall items i st res,
    I i items st -> loop n i items st = Ok res ->
    exists j cur, I j [] (cur, res).
Proof.
  intros Hstep items. induction items as [|[w t] rest IH]; intros i st res HI H.
  - cbn in H. inversion H. subst. destruct st as [cur segs]. now exists i, cur.
  - cbn [Segmenter.loop] in H. apply bind_Ok_inv in H. destruct H as [st' [Hb H]].
    eapply IH; [|exact H]. eapply Hstep; eauto.
Qed.

(** ** No returned segment is blank *)

Lemma segmenter_not_blank text timestamps words segs :
  _create_segments_from_timestamps ms_to_sec text timestamps words = Ok segs ->
  Forall (fun sg => strip (Segmenter.text sg) <> [] /\ Segmenter.words sg <> []) segs.
Proof.
  intro H. unfold _create_segments_from_timestamps in H.
  destruct (is_nil timestamps || is_nil words
            || negb (Nat.eqb (length timestamps) (length words))).
  - inversion H. constructor.
  - destruct (loop_invariant F ms_to_sec
                (fun _ st => Forall (fun sg => strip (Segmenter.text sg) <> []
                                               /\ Segmenter.words sg <> [])
                                    (snd st))
                (Z.of_nat (length words)))
      with (items := combine words timestamps) (i := 0)
           (st := (empty_segment F, @nil segment)) (res := segs)
      as [cur Hres]; try assumption; [|constructor].
    clear. intros i w t rest [cur segs] st' Hs Hb. cbn [snd] in *.
    destruct (is_markup w) eqn:Hm.
    + rewrite loop_body_markup in Hb by assumption. now inversion Hb.
    + destruct (loop_body_word F ms_to_sec _ _ _ _ _ _ _ Hm Hb)
        as (s & e & a & b & _ & _ & _ & ->).
      destruct (mem w split_markers || _); cbn [snd]; [|assumption].
      destruct (truthy (strip (Segmenter.text (extend F cur w a b)))) eqn:Et;
        [|assumption].
      apply Forall_app. split; [assumption|]. constructor; [|constructor]. split.
      * intro E. rewrite E in Et. discriminate.
      * cbn. now destruct (Segmenter.words cur).
Qed.

(** Every returned segment has a text that is not empty after stripping,
    and at least one word record. *)
Theorem returned_segments_not_blank text timestamps words segs :
  _create_segments_from_timestamps ms_to_sec text timestamps words = Ok segs ->
  Forall (fun sg => strip (Segmenter.text sg) <> [] /\ Segmenter.words sg <> []) segs.
Proof. apply segmenter_not_blank. Qed.

Lemma segmenter_built text timestamps words segs :
  _create_segments_from_timestamps ms_to_sec text timestamps words = Ok segs ->
  Forall (built_from_words F ms_to_sec (combine words timestamps)) segs.
Proof.
  intro H. unfold _create_segments_from_timestamps in H.
  destruct (is_nil timestamps || is_nil words
            || negb (Nat.eqb (length timestamps) (length words))).
  - inversion H. constructor.
  - eapply loop_built; [apply incl_refl | | | exact H].
    + apply built_empty.
    + constructor.
Qed.

(** ** A time stamp that cannot be unpacked *)

Lemma unpack2_arity t : length t <> 2%nat -> unpack2 t = Raise ValueError.
Proof. destruct t as [|a [|b [|c t]]]; cbn; intro H; try reflexivity; lia. Qed.

Lemma segmenter_bad_arity text timestamps words pre w t post :
  length timestamps = length words ->
  combine words timestamps = pre ++ (w, t) :: post ->
  is_markup w = false -> length t <> 2%nat ->
  exists e, _create_segments_from_timestamps ms_to_sec text timestamps words
            = Raise e.
Proof.
  intros Hlen Hc Hm Ht.
  assert (Hne : timestamps <> []).
  { intros ->. destruct words; [|discriminate]. destruct pre; discriminate. }
  rewrite (segmenter_loop F ms_to_sec text timestamps words Hne Hlen), Hc.
  rewrite loop_app.
  destruct (run F ms_to_sec _ 0 pre (empty_segment F, [])) as [[cur segs]|e];
    cbn [bind]; [|now exists e].
  cbn [Segmenter.loop]. unfold Segmenter.loop_body. rewrite Hm.
  rewrite (unpack2_arity t Ht). cbn [bind]. now exists ValueError.
Qed.

(** A word that is not markup and whose time stamp does not have exactly
    two entries makes the segmenter raise: such a word is never silently
    skipped, and no segment is returned. *)
Theorem malformed_time_stamp_raises text timestamps words pre w t post :
  length timestamps = length words ->
  combine words timestamps = pre ++ (w, t) :: post ->
  is_markup w = false -> length t <> 2%nat ->
  exists e, _create_segments_from_timestamps ms_to_sec text timestamps words
            = Raise e.
Proof. apply segmenter_bad_arity. Qed.

(** ** A markup word at the end of the stream *)

(** The words of a stream that are not markup are not split markers. *)
Definition no_marker (items : list (pystr * list Z)) : Prop :=
  forall w t, In (w, t) items -> is_markup w = false ->
              mem w split_markers = false.

Lemma run_without_close n items : forall i st,
  i + Z.of_nat (length items) < n ->
  Forall (readable F ms_to_sec) items -> no_marker items ->
  exists st', run F ms_to_sec n i items st = Ok st' /\ snd st' = snd st.
Proof.
  induction items as [|[w t] rest IH]; intros i [cur segs] Hi Hr Hn.
  - now exists (cur, segs).
  - inversion Hr as [|x l Hw Hrest]. subst. cbn [run length] in *.
    assert (Hn' : no_marker rest)
      by (intros w' t' Hin Hmk; apply (Hn w' t'); [now right | assumption]).
    destruct (is_markup w) eqn:Hm.
    + rewrite loop_body_markup by assumption. cbn [bind]. apply IH; [lia|assumption..].
    + destruct Hw as [Hw|(s & e & a & b & Hst & Ha & Hb)]; cbn [fst snd] in *;
        [congruence|]. subst t.
      rewrite (loop_body_word_ok F ms_to_sec n i w s e a b cur segs Hm Ha Hb).
      rewrite (Hn w [s; e] (or_introl eq_refl) Hm).
      replace (i =? n - 1) with false by (symmetry; apply Z.eqb_neq; lia).
      cbn [orb bind].
      destruct (IH (i + 1) (extend F cur w a b, segs)) as (st' & Hrun & Hsnd);
        [lia|assumption..|]. now exists st'.
Qed.

(** When the last word of the stream is markup and no other word is a
    split marker, nothing is returned: the words read so far stay in a
    segment that is never appended. *)
Theorem trailing_markup_returns_nothing text timestamps words t m :
  is_markup m = true ->
  length timestamps = length words ->
  Forall (readable F ms_to_sec) (combine words timestamps) ->
  no_marker (combine words timestamps) ->
  _create_segments_from_timestamps ms_to_sec text
    (timestamps ++ [t]) (words ++ [m]) = Ok [].
Proof.
  intros Hm Hlen Hr Hn.
  rewrite segmenter_loop;
    [|destruct timestamps; discriminate | rewrite !length_app; cbn; lia].
  rewrite combine_app by (symmetry; assumption). cbn [combine].
  rewrite loop_app.
  destruct (run_without_close (Z.of_nat (length (words ++ [m])))
              (combine words timestamps) 0 (empty_segment F, []))
    as (st' & Hrun & Hsnd); try assumption.
  { rewrite length_app, length_combine, Hlen, Nat.min_id. cbn [length]. lia. }
  rewrite Hrun. cbn [bind Segmenter.loop].
  rewrite loop_body_markup by assumption. cbn [bind]. now rewrite Hsnd.
Qed.

(** ** No word is lost *)








End Generic.

(** ** On binary64 *)

Lemma returned_segments_not_blank_witness :
  Forall (fun sg => strip (Segmenter.text sg) <> [] /\ Segmenter.words sg <> [])
    [ {| text := u "a."; start := Some 0%float; end_ := Some 1%float;
         words := [ {| word := u "a"; w_start := 0%float; w_end := 0.5%float |};
                    {| word := u "."; w_start := 0.5%float; w_end := 1%float |} ] |} ].
Proof.
  apply (returned_segments_not_blank float ms_to_sec_float []
           [[0; 500]; [500; 1000]; [1000; 1500]] [u "a"; u "."; u " "]).
  reflexivity.
Defined.

Lemma malformed_time_stamp_raises_witness :
  exists e, segmenter_float [] [[0; 500]; [500]] [u "a"; u "b"] = Raise e.
Proof.
  apply (malformed_time_stamp_raises float ms_to_sec_float []
           [[0; 500]; [500]] [u "a"; u "b"] [(u "a", [0; 500])] (u "b") [500] []);
    [reflexivity | reflexivity | reflexivity | cbn; lia].
Defined.

Lemma trailing_markup_returns_nothing_witness :
  segmenter_float [] ([[0; 500]; [500; 1000]] ++ [[1000; 1500]])
    ([u "a"; u "b"] ++ [u "<|x|>"]) = Ok [].
Proof.
  apply (trailing_markup_returns_nothing float ms_to_sec_float []
           [[0; 500]; [500; 1000]] [u "a"; u "b"] [1000; 1500] (u "<|x|>")).
  - reflexivity.
  - reflexivity.
  - cbn [combine].
    repeat (apply Forall_cons;
            [right; cbn [snd]; do 4 eexists; repeat split; reflexivity|]).
    apply Forall_nil.
  - intros w t [H|[H|[]]] _; inversion H; reflexivity.
Defined.


End SegmenterMore.

(* ================================================================== *)
(** * More about the text cleaner *)
(* ================================================================== *)

Module CleanMore.

Import CleanFacts.

Lemma ws_norm_space b s c :
  ws_norm b s -> In c s -> is_space c = true -> c = SP.
Proof.
  revert b. induction s as [|d t IH]; intros b H Hin Hc; [destruct Hin|].
  cbn in H. destruct Hin as [->|Hin].
  - rewrite Hc in H. tauto.
  - destruct (is_space d); [destruct H as (_ & _ & H)|]; eapply IH; eauto.
Qed.

Lemma ws_norm_adjacent pre a b post : forall p,
  ws_norm p (pre ++ a :: b :: post) -> is_space a = true -> is_space b = false.
Proof.
  induction pre as [|d pre IH]; intros p H Ha.
  - cbn in H. rewrite Ha in H. destruct H as (_ & _ & H).
    destruct (is_space b); [|reflexivity]. destruct H as (_ & H & _). discriminate.
  - cbn in H. destruct (is_space d); [destruct H as (_ & _ & H)|]; eapply IH; eauto.
Qed.

Lemma rstrip_last s t c : rstrip s = t ++ [c] -> is_space c = false.
Proof.
  revert t. induction s as [|d s IH]; intros t H; [destruct t; discriminate|].
  rewrite rstrip_cons in H. destruct (rstrip s) as [|x r] eqn:E.
  - destruct (is_space d) eqn:Ed; [destruct t; discriminate|].
    destruct t as [|y t]; cbn in H; inversion H as [[Hd Hnil]];
      [congruence | destruct t; discriminate].
  - destruct t as [|y t]; [discriminate|]. cbn in H. inversion H. subst.
    eapply IH. eassumption.
Qed.

Lemma clean_length x : length (_clean_text x) <= length x.
Proof.
  rewrite clean_unfold.
  pose proof (strip_length (collapse_ws (remove_markup x))).
  pose proof (sub_ws_runs_length (remove_markup x) false).
  pose proof (remove_markup_length_le (length x) x (Nat.le_refl _)).
  unfold collapse_ws in *. lia.
Qed.

(** The cleaned text is never longer than the text; it neither starts nor
    ends with whitespace; its only whitespace is the space character, and
    no two of them are adjacent. *)
Theorem cleaned_text_normalised x :
  length (_clean_text x) <= length x
  /\ (forall c t, _clean_text x = c :: t -> is_space c = false)
  /\ (forall t c, _clean_text x = t ++ [c] -> is_space c = false)
  /\ (forall c, In c (_clean_text x) -> is_space c = true -> c = SP)
  /\ (forall pre a b post, _clean_text x = pre ++ a :: b :: post ->
                           is_space a = true -> is_space b = false).
Proof.
  split; [apply clean_length|]. rewrite clean_unfold.
  pose proof (strip_collapse_norm (remove_markup x)) as Hn.
  repeat split.
  - intros c t H.
    pose proof (rstrip_starts_clean _ (lstrip_starts_clean (collapse_ws (remove_markup x)))) as Hs.
    fold (strip (collapse_ws (remove_markup x))) in Hs. rewrite H in Hs. exact Hs.
  - intros t c H. unfold strip in H. eapply rstrip_last. eassumption.
  - intros c Hin Hc. eapply ws_norm_space; eauto.
  - intros pre a b post H Ha. rewrite H in Hn. eapply ws_norm_adjacent; eauto.
Qed.

(** The texts that cleaning leaves as they are: no markup token, only
    single spaces as whitespace, and none at either end. *)
Theorem clean_fixed_points x :
  _clean_text x = x
  <-> ~ contains_markup x /\ ws_norm false x /\ strip x = x.
Proof.
  split.
  - intro H. split; [|split].
    + intro Hc. apply remove_markup_shrinks in Hc.
      rewrite clean_unfold in H.
      pose proof (strip_length (collapse_ws (remove_markup x))) as H1.
      pose proof (sub_ws_runs_length (remove_markup x) false) as H2.
      unfold collapse_ws in *. rewrite H in H1. lia.
    + rewrite <- H, clean_unfold. apply strip_collapse_norm.
    + rewrite <- H at 1. rewrite clean_unfold, strip_idem, <- clean_unfold. exact H.
  - intros (Hc & Hn & Hs). rewrite clean_unfold, (remove_markup_id x Hc).
    unfold collapse_ws. now rewrite (sub_ws_runs_id x false Hn).
Qed.

(** ** One token *)

Lemma match_markup_needs_lt c t :
  c <> LT -> match_markup (c :: t) = None.
Proof.
  intro H. cbn. destruct t; [reflexivity|].
  destruct (N.eqb_spec c LT); [contradiction | reflexivity].
Qed.

Lemma remove_markup_keeps_prefix pre rest :
  ~ In LT pre -> remove_markup (pre ++ rest) = pre ++ remove_markup rest.
Proof.
  induction pre as [|c pre IH]; intro H; [reflexivity|].
  cbn [app]. rewrite remove_markup_keep.
  - f_equal. apply IH. intro Hin. apply H. now right.
  - apply match_markup_needs_lt. intro E. apply H. now left.
Qed.

(** A markup token is deleted, the text before it is kept when it has no
    opening angle bracket, and the scan goes on after the token. So a
    text without brackets and whitespace that stands between two tokens
    is what cleaning returns. *)
Theorem markup_token_removed pre body post :
  ~ In LT pre -> ~ In PIPE body ->
  remove_markup (pre ++ [LT; PIPE] ++ body ++ [PIPE; GT] ++ post)
  = pre ++ remove_markup post
  /\ (forall body', ~ In PIPE body' -> post = [LT; PIPE] ++ body' ++ [PIPE; GT] ->
                    pre <> [] -> forallb (fun c => negb (is_space c)) pre = true ->
                    _clean_text ([LT; PIPE] ++ body ++ [PIPE; GT] ++ pre ++ post)
                    = pre).
Proof.
  intros Hpre Hbody. split.
  - rewrite remove_markup_keeps_prefix by assumption. f_equal.
    apply remove_markup_match. now apply match_markup_complete.
  - intros body' Hb' -> Hne Hvis.
    rewrite clean_unfold.
    rewrite (remove_markup_match _ (pre ++ [LT; PIPE] ++ body' ++ [PIPE; GT]))
      by now apply match_markup_complete.
    rewrite remove_markup_keeps_prefix by assumption.
    replace ([LT; PIPE] ++ body' ++ [PIPE; GT])
      with ([LT; PIPE] ++ body' ++ [PIPE; GT] ++ []) by now rewrite app_nil_r.
    rewrite (remove_markup_match _ [] (match_markup_complete body' [] Hb')).
    change (remove_markup []) with (@nil N). rewrite app_nil_r.
    assert (Hn : ws_norm false pre).
    { clear -Hvis. generalize false.
      induction pre as [|c pre IH]; intro b; cbn in *; [exact I|].
      apply andb_true_iff in Hvis. destruct Hvis as [Hc Hvis].
      destruct (is_space c); [discriminate|]. now apply IH. }
    unfold collapse_ws. rewrite (sub_ws_runs_id pre false Hn).
    unfold strip. rewrite lstrip_id.
    + clear -Hvis. induction pre as [|c pre IH]; [reflexivity|].
      cbn in Hvis. apply andb_true_iff in Hvis. destruct Hvis as [Hc Hvis].
      rewrite rstrip_cons, (IH Hvis).
      destruct pre; [|reflexivity]. now destruct (is_space c).
    + destruct pre as [|c pre]; [exact I|]. cbn in *.
      apply andb_true_iff in Hvis. destruct Hvis as [Hc _].
      now destruct (is_space c).
Qed.

(** A language tag before and an emotion tag after a Chinese greeting. *)
Lemma markup_token_removed_witness :
  _clean_text (u "<|zh|>你好<|EMO|>") = u "你好".
Proof.
  apply (proj2 (markup_token_removed (u "你好") (u "zh") (u "<|EMO|>")
                  ltac:(vm_compute; intuition discriminate)
                  ltac:(vm_compute; intuition discriminate))
           (u "EMO")).
  - vm_compute. intuition discriminate.
  - reflexivity.
  - discriminate.
  - reflexivity.
Defined.

(** The normal form is a fixed point. *)
Lemma clean_fixed_points_witness :
  _clean_text (u "你好 world") = u "你好 world".
Proof.
  apply (proj2 (clean_fixed_points (u "你好 world"))).
  split; [|split].
  - intros (pre & body & post & H & _).
    assert (Hin : In LT (u "你好 world")).
    { rewrite H. apply in_or_app. right. now left. }
    vm_compute in Hin. intuition discriminate.
  - vm_compute. intuition.
  - reflexivity.
Defined.

End CleanMore.

(* ================================================================== *)
(** * More about the time codes *)
(* ================================================================== *)

Module TimeCodeMore.

Import PyStrFacts TimeCodeFacts.
Local Open Scope Z_scope.

(** The test that [whole_seconds_fixed3] runs on each value. *)
Definition fixed3_of_int_ok (s : Z) : bool :=
  match py_fmt_f3 6 (PyInt s) with
  | Ok str => eqb str (dd s ++ u ".000")
  | Raise _ => false
  end.

Lemma whole_seconds_fixed3 s :
  0 <= s < 60 -> py_fmt_f3 6 (PyInt s) = Ok (dd s ++ u ".000").
Proof.
  intro H.
  assert (Hb : fixed3_of_int_ok s = true).
  { apply (below_bound fixed3_of_int_ok 60); [vm_compute; reflexivity | exact H]. }
  unfold fixed3_of_int_ok in Hb. destruct (py_fmt_f3 6 (PyInt s)); [|discriminate].
  apply eqb_eq in Hb. now subst.
Qed.

Lemma whole_seconds_srt z :
  0 <= z < 360000 ->
  _seconds_to_srt_time (PyInt z)
  = Ok (dd (z / 3600) ++ u ":" ++ dd (z mod 3600 / 60) ++ u ":"
           ++ dd (z mod 60) ++ u ",000").
Proof.
  intro H.
  assert (Hh : 0 <= z / 3600 < 100)
    by (split; [apply Z.div_pos; lia | apply Z.div_lt_upper_bound; lia]).
  assert (Hr : 0 <= z mod 3600 < 3600) by (apply Z.mod_pos_bound; lia).
  assert (Hm : 0 <= z mod 3600 / 60 < 60)
    by (split; [apply Z.div_pos; lia | apply Z.div_lt_upper_bound; lia]).
  assert (Hs : 0 <= z mod 60 < 60) by (apply Z.mod_pos_bound; lia).
  unfold _seconds_to_srt_time, srt_fields, py_floordiv, py_mod, py_sub,
    py_mul, py_int, arith.
  cbn [bind Z.eqb srt_print].
  replace ((z - z) * 1000) with 0 by lia.
  rewrite !fmt_d2 by lia. reflexivity.
Qed.

Lemma whole_seconds_vtt z :
  0 <= z < 360000 ->
  _seconds_to_vtt_time (PyInt z)
  = Ok (dd (z / 3600) ++ u ":" ++ dd (z mod 3600 / 60) ++ u ":"
           ++ dd (z mod 60) ++ u ".000").
Proof.
  intro H.
  assert (Hh : 0 <= z / 3600 < 100)
    by (split; [apply Z.div_pos; lia | apply Z.div_lt_upper_bound; lia]).
  assert (Hr : 0 <= z mod 3600 < 3600) by (apply Z.mod_pos_bound; lia).
  assert (Hm : 0 <= z mod 3600 / 60 < 60)
    by (split; [apply Z.div_pos; lia | apply Z.div_lt_upper_bound; lia]).
  assert (Hs : 0 <= z mod 60 < 60) by (apply Z.mod_pos_bound; lia).
  unfold _seconds_to_vtt_time, vtt_fields, py_floordiv, py_mod, py_int, arith.
  cbn [bind Z.eqb vtt_print].
  rewrite (whole_seconds_fixed3 _ Hs). cbn [bind].
  rewrite !fmt_d2 by lia. reflexivity.
Qed.

(** A whole number of seconds below a hundred hours prints as hours,
    minutes and seconds on two digits each and zero thousandths, in SRT
    and in VTT alike up to the separator. *)
Theorem whole_seconds_time_codes z :
  0 <= z < 360000 ->
  _seconds_to_srt_time (PyInt z)
  = Ok (dd (z / 3600) ++ u ":" ++ dd (z mod 3600 / 60) ++ u ":"
           ++ dd (z mod 60) ++ u ",000")
  /\ _seconds_to_vtt_time (PyInt z)
     = Ok (dd (z / 3600) ++ u ":" ++ dd (z mod 3600 / 60) ++ u ":"
              ++ dd (z mod 60) ++ u ".000").
Proof.
  intro H. split; [now apply whole_seconds_srt | now apply whole_seconds_vtt].
Qed.

(** One hour, one minute and one second. *)
Lemma whole_seconds_time_codes_witness :
  _seconds_to_srt_time (PyInt 3661) = Ok (u "01:01:01,000")
  /\ _seconds_to_vtt_time (PyInt 3661) = Ok (u "01:01:01.000").
Proof. apply (whole_seconds_time_codes 3661). lia. Defined.

(** The specification's end-to-end scenario prints 1.2 seconds as
    00:00:01,200; the code truncates the binary64 product
    (1.2 - 1) * 1000 = 199.99999999999997 and prints 199. *)
Remark srt_milliseconds_truncate :
  _seconds_to_srt_time (PyFloat 0x1.3333333333333p+0) = Ok (u "00:00:01,199").
Proof. vm_compute. reflexivity. Qed.

End TimeCodeMore.

(* ================================================================== *)
(** * More about the renderer *)
(* ================================================================== *)

Module RenderMore.

Import Render RenderFacts PyStrMore.
Local Open Scope Z_scope.

(** ** The numbers of tier 2 *)

(** In tier 2 of SRT an entry without times prints nothing but still
    takes a number: the block of the first timed entry after [k] such
    entries is numbered from [k + 1]. *)
Theorem srt_numbers_count_skipped pre post i acc :
  Forall untimed pre ->
  srt_segments_loop i (pre ++ post) acc
  = srt_segments_loop (i + Z.of_nat (length pre)) post acc.
Proof.
  revert i. induction pre as [|entry pre IH]; intros i H.
  - cbn. now rewrite Z.add_0_r.
  - inversion H as [|x l Hu Hrest]. subst. cbn [app srt_segments_loop length].
    replace (i + Z.of_nat (S (length pre))) with (i + 1 + Z.of_nat (length pre)) by lia.
    destruct entry as [s|[t [st|] [en|]]]; cbn in Hu;
      try (destruct Hu; discriminate); now apply IH.
Qed.

(** A string entry, then a timed one: its block has the number 2. *)
Lemma srt_numbers_count_skipped_witness :
  srt_segments_loop 0
    ([SegStr (u "a")]
       ++ [SegDict {| seg_text := Some (u "b"); seg_start := Some (PyInt 1);
                      seg_end := Some (PyInt 2) |}]) []
  = Ok (srt_block (u "2") (u "00:00:01,000") (u "00:00:02,000") (u "b")).
Proof.
  rewrite (srt_numbers_count_skipped [SegStr (u "a")] _ 0 []).
  - reflexivity.
  - repeat constructor.
Defined.

(** ** VTT *)

Section WithRepr.

Variable dict_repr : segment_dict -> pystr.

Lemma vtt_formatted_loop_extends l : forall acc s,
  vtt_formatted_loop l acc = Ok s -> exists body, s = acc ++ body.
Proof.
  induction l as [|sg rest IH]; intros acc s H; cbn [vtt_formatted_loop] in H.
  - inversion H. exists []. now rewrite app_nil_r.
  - destruct (_seconds_to_vtt_time (start_time sg)); cbn [bind] in H; [|discriminate].
    destruct (_seconds_to_vtt_time (end_time sg)); cbn [bind] in H; [|discriminate].
    destruct (IH _ _ H) as [body ->]. eexists. now rewrite <- app_assoc.
Qed.

(** The text of the cue of an entry. *)
Definition cue_text (entry : segment_entry) : pystr :=
  match entry with
  | SegStr s => s
  | SegDict d => match seg_text d with Some x => x | None => dict_repr d end
  end.

Lemma vtt_segments_loop_cues l : forall i acc s,
  vtt_segments_loop dict_repr i l acc = Ok s ->
  exists times : list (pystr * pystr),
    length times = length l /\
    s = acc ++ concat (map (fun c => vtt_block (fst (fst c)) (snd (fst c)) (snd c))
                           (combine times (map cue_text l))).
Proof.
  induction l as [|entry rest IH]; intros i acc s H; cbn [vtt_segments_loop] in H.
  - inversion H. exists []. split; [reflexivity|]. cbn. now rewrite app_nil_r.
  - apply SegmenterFacts.bind_Ok_inv in H. destruct H as (cue & Hcue & H).
    destruct (IH _ _ _ H) as (times & Hlen & ->).
    exists (fst cue :: times). split; [cbn; now rewrite Hlen|].
    cbn [map combine concat fst snd]. rewrite <- app_assoc. do 2 f_equal.
    destruct entry as [str|d]; cbn [cue_text].
    + apply SegmenterFacts.bind_Ok_inv in Hcue. destruct Hcue as (tm & _ & Hc).
      now inversion Hc.
    + apply SegmenterFacts.bind_Ok_inv in Hcue. destruct Hcue as (tm & _ & Hc).
      now inversion Hc.
Qed.

Lemma vtt_sentences_loop_extends l : forall clock acc s,
  vtt_sentences_loop l clock acc = Ok s -> exists body, s = acc ++ body.
Proof.
  induction l as [|sentence rest IH]; intros clock acc s H;
    cbn [vtt_sentences_loop] in H.
  - inversion H. exists []. now rewrite app_nil_r.
  - repeat (apply SegmenterFacts.bind_Ok_inv in H; destruct H as (? & _ & H)).
    destruct (IH _ _ _ H) as [body ->]. eexists. now rewrite <- app_assoc.
Qed.

(** Whatever the tier, a VTT rendering that returns starts with the line
    WEBVTT and an empty line. *)
Theorem vtt_starts_with_header r s :
  _format_as_vtt dict_repr r = Ok s ->
  exists body, s = u "WEBVTT" ++ nl ++ nl ++ body.
Proof.
  unfold _format_as_vtt. intro H.
  assert (Hh : forall body, vtt_header ++ body = u "WEBVTT" ++ nl ++ nl ++ body)
    by (intro body; unfold vtt_header; now rewrite <- !app_assoc).
  assert (Hsegs : match segments r with
                  | Some ((_ :: _) as segments) =>
                    vtt_segments_loop dict_repr 0 segments vtt_header
                  | _ =>
                    let text := match text r with Some x => x | None => [] end in
                    if truthy text
                    then vtt_sentences_loop (split_sentences text) (PyInt 0) vtt_header
                    else Ok vtt_header
                  end = Ok s -> exists body, s = vtt_header ++ body).
  { clear H. intro H. destruct (segments r) as [[|e l]|].
    - cbv zeta in H. destruct (truthy _).
      + eapply vtt_sentences_loop_extends; eassumption.
      + inversion H. exists []. now rewrite app_nil_r.
    - destruct (vtt_segments_loop_cues _ _ _ _ H) as (times & _ & ->). now eexists.
    - cbv zeta in H. destruct (truthy _).
      + eapply vtt_sentences_loop_extends; eassumption.
      + inversion H. exists []. now rewrite app_nil_r. }
  destruct (formatted_segments r) as [[|f l]|].
  - destruct (Hsegs H) as [body ->]. exists body. apply Hh.
  - destruct (vtt_formatted_loop_extends _ _ _ H) as [body ->]. exists body. apply Hh.
  - destruct (Hsegs H) as [body ->]. exists body. apply Hh.
Qed.

(** In tier 2 of VTT every entry gets a cue, timed or not, string or
    dict: the body is one block for each entry, in order, with the text
    of the entry. *)
Theorem vtt_cue_for_every_segment r e l s :
  formatted_segments r = None \/ formatted_segments r = Some [] ->
  segments r = Some (e :: l) ->
  _format_as_vtt dict_repr r = Ok s ->
  exists times : list (pystr * pystr),
    length times = length (e :: l) /\
    s = vtt_header
        ++ concat (map (fun c => vtt_block (fst (fst c)) (snd (fst c)) (snd c))
                       (combine times (map cue_text (e :: l)))).
Proof.
  intros Hf Hs H. unfold _format_as_vtt in H.
  destruct Hf as [Hf|Hf]; rewrite Hf, Hs in H;
    now apply (vtt_segments_loop_cues (e :: l) 0 vtt_header s).
Qed.

End WithRepr.

Definition strings_only : transcription_result :=
  {| success := true; error := None; text := Some (u "ab");
     segments := Some [SegStr (u "a"); SegStr (u "b")];
     formatted_segments := None |}.

Definition two_string_cues : pystr :=
  u "WEBVTT" ++ nl ++ nl
    ++ vtt_block (u "00:00:00.000") (u "00:00:02.000") (u "a")
    ++ vtt_block (u "00:00:02.000") (u "00:00:04.000") (u "b").

(** Two strings: two cues of two seconds each, and the header. *)
Lemma vtt_cue_for_every_segment_witness :
  exists times : list (pystr * pystr),
    length times = length [SegStr (u "a"); SegStr (u "b")] /\
    two_string_cues
    = vtt_header
        ++ concat (map (fun c => vtt_block (fst (fst c)) (snd (fst c)) (snd c))
                       (combine times (map (cue_text no_repr)
                                           [SegStr (u "a"); SegStr (u "b")]))).
Proof.
  apply (vtt_cue_for_every_segment no_repr strings_only
           (SegStr (u "a")) [SegStr (u "b")] two_string_cues).
  - left. reflexivity.
  - reflexivity.
  - vm_compute. reflexivity.
Defined.

Lemma vtt_starts_with_header_witness :
  exists body, two_string_cues = u "WEBVTT" ++ nl ++ nl ++ body.
Proof.
  apply (vtt_starts_with_header no_repr strings_only two_string_cues).
  vm_compute. reflexivity.
Defined.

(** ** A text without sentences *)

Lemma re_split_blank delim s : forall piece p,
  forallb (fun c => delim c || is_space c) s = true ->
  forallb is_space piece = true ->
  In p (re_split delim s piece) -> forallb is_space p = true.
Proof.
  induction s as [|c t IH]; intros piece p Hs Hp Hin; cbn in Hin, Hs.
  - destruct Hin as [<-|[]]. assumption.
  - apply andb_true_iff in Hs. destruct Hs as [Hc Hs].
    destruct (delim c) eqn:E.
    + destruct Hin as [<-|Hin]; [assumption|]. now apply (IH [] p).
    + apply (IH (piece ++ [c]) p); try assumption.
      rewrite forallb_app, Hp. cbn in *. now rewrite Hc.
Qed.

Lemma split_sentences_blank text :
  forallb (fun c => is_delim c || is_space c) text = true ->
  split_sentences text = [].
Proof.
  intro H. unfold split_sentences.
  assert (Hall : forall p, In p (re_split is_delim text []) ->
                           forallb is_space p = true)
    by (intros p Hin; now apply (re_split_blank is_delim text [] p)).
  induction (re_split is_delim text []) as [|p l IH]; [reflexivity|].
  cbn [filter].
  rewrite (proj2 (strip_nil_iff p) (Hall p (or_introl eq_refl))). cbn [truthy].
  apply IH. intros q Hq. apply Hall. now right.
Qed.

(** When the text has only sentence ends and whitespace, and there is
    nothing in either segment list, the fallback finds no sentence: SRT
    is the empty string and VTT the header alone. *)
Theorem blank_text_renders_nothing dict_repr r t :
  text r = Some t ->
  forallb (fun c => is_delim c || is_space c) t = true ->
  formatted_segments r = None \/ formatted_segments r = Some [] ->
  segments r = None \/ segments r = Some [] ->
  _format_as_srt r = Ok [] /\ _format_as_vtt dict_repr r = Ok vtt_header.
Proof.
  intros Ht Hb Hf Hs. unfold _format_as_srt, _format_as_vtt, srt_fallback.
  rewrite Ht, (split_sentences_blank t Hb).
  destruct Hf as [-> | ->]; destruct Hs as [-> | ->];
    destruct (truthy t); split; reflexivity.
Qed.

Definition only_dots : transcription_result :=
  {| success := true; error := None; text := Some (u " ... ! ");
     segments := Some []; formatted_segments := None |}.

Lemma blank_text_renders_nothing_witness :
  _format_as_srt only_dots = Ok []
  /\ _format_as_vtt no_repr only_dots = Ok vtt_header.
Proof.
  apply (blank_text_renders_nothing no_repr only_dots (u " ... ! "));
    [reflexivity | reflexivity | left; reflexivity | right; reflexivity].
Defined.

End RenderMore.

(* ================================================================== *)
(** * Facts about the segment lists *)
(* ================================================================== *)

Module PipelineFacts.

Import Render RenderFacts Pipeline.
Local Open Scope Z_scope.

(** An entry that is a dict with a start and an end key. *)
Definition timed_dict (entry : segment_entry) : Prop :=
  exists d st en, entry = SegDict d /\ seg_start d = Some st /\ seg_end d = Some en.

Lemma formatted_loop_timed segs : forall i acc,
  Forall timed_dict segs ->
  srt_formatted_loop (formatted_loop i segs) acc = srt_segments_loop i segs acc.
Proof.
  induction segs as [|entry rest IH]; intros i acc H; [reflexivity|].
  inversion H as [|x l (d & st & en & -> & Hst & Hen) Hrest]. subst.
  cbn [formatted_loop srt_formatted_loop srt_segments_loop formatted_of
         start_time end_time index ftext].
  destruct d as [t s e]. cbn [seg_start seg_end seg_text] in *. subst s e.
  destruct (_seconds_to_srt_time st); cbn [bind]; [|reflexivity].
  destruct (_seconds_to_srt_time en); cbn [bind]; [|reflexivity].
  now apply IH.
Qed.

Lemma add_formatted_timed r r' segs :
  formatted_segments r = None ->
  segments r = Some segs -> Forall timed_dict segs ->
  add_formatted_segments r = Ok r' ->
  _format_as_srt r' = _format_as_srt r.
Proof.
  intros Hf Hs Ht H. unfold add_formatted_segments in H. rewrite Hs in H.
  destruct (success r); [|now inversion H].
  destruct segs as [|e l]; [now inversion H|].
  inversion H. subst r'. unfold _format_as_srt.
  cbn [formatted_segments segments formatted_loop]. rewrite Hf, Hs.
  now apply (formatted_loop_timed (e :: l) 0 []).
Qed.

(** When every segment is a dict with a start and an end key, adding
    [formatted_segments] as [transcribe_with_timestamps] does leaves the
    SRT rendering as it was: tier 1 prints what tier 2 printed, numbers
    included. *)
Theorem formatted_segments_keep_srt r r' segs :
  formatted_segments r = None ->
  segments r = Some segs -> Forall timed_dict segs ->
  add_formatted_segments r = Ok r' ->
  _format_as_srt r' = _format_as_srt r.
Proof. apply add_formatted_timed. Qed.

Lemma formatted_segments_keep_srt_witness :
  _format_as_srt
    {| success := true; error := None; text := Some (u "hi");
       segments := Some [SegDict {| seg_text := Some (u "hi");
                                    seg_start := Some (PyFloat 0);
                                    seg_end := Some (PyFloat 1) |}];
       formatted_segments :=
         Some [{| index := 1; start_time := PyFloat 0; end_time := PyFloat 1;
                  ftext := u "hi"; confidence := PyInt 0 |}] |}
  = _format_as_srt
      {| success := true; error := None; text := Some (u "hi");
         segments := Some [SegDict {| seg_text := Some (u "hi");
                                      seg_start := Some (PyFloat 0);
                                      seg_end := Some (PyFloat 1) |}];
         formatted_segments := None |}.
Proof.
  apply (formatted_segments_keep_srt _ _
           [SegDict {| seg_text := Some (u "hi"); seg_start := Some (PyFloat 0);
                       seg_end := Some (PyFloat 1) |}]).
  - reflexivity.
  - reflexivity.
  - repeat constructor. now eexists _, _, _.
  - reflexivity.
Defined.

(** ** String segments *)

(** The blocks that tier 1 prints for string segments: numbered, all at
    time zero. *)
Fixpoint zero_blocks (i : Z) (strs : list pystr) : pystr :=
  match strs with
  | [] => []
  | s :: rest =>
    srt_block (str_int (i + 1)) (u "00:00:00,000") (u "00:00:00,000") s
      ++ zero_blocks (i + 1) rest
  end.

Lemma formatted_loop_strings strs : forall i acc,
  srt_formatted_loop (formatted_loop i (map SegStr strs)) acc
  = Ok (acc ++ zero_blocks i strs).
Proof.
  induction strs as [|s rest IH]; intros i acc; cbn [map formatted_loop
    srt_formatted_loop zero_blocks].
  - now rewrite app_nil_r.
  - cbn [formatted_of start_time end_time index ftext].
    change (_seconds_to_srt_time (PyInt 0)) with (Ok (u "00:00:00,000")).
    cbn [bind]. rewrite IH. now rewrite <- app_assoc.
Qed.

(** When the segments are plain strings, SRT is empty without
    [formatted_segments]; once [transcribe_with_timestamps] has added
    them, every string has a numbered block from 00:00:00,000 to
    00:00:00,000. *)
Theorem string_segments_get_zero_times r r' s strs :
  success r = true -> formatted_segments r = None ->
  segments r = Some (map SegStr (s :: strs)) ->
  add_formatted_segments r = Ok r' ->
  _format_as_srt r = Ok []
  /\ _format_as_srt r' = Ok (zero_blocks 0 (s :: strs)).
Proof.
  intros Hsucc Hf Hs H. split.
  - unfold _format_as_srt. rewrite Hf, Hs. cbn [map].
    apply srt_segments_loop_untimed. cbn [map] in *.
    constructor; [exact I|]. clear. induction strs; constructor; [exact I | assumption].
  - unfold add_formatted_segments in H. rewrite Hsucc, Hs in H. cbn [map] in H.
    inversion H. subst r'. unfold _format_as_srt. cbn [formatted_segments formatted_loop].
    apply (formatted_loop_strings (s :: strs) 0 []).
Qed.

Lemma string_segments_get_zero_times_witness :
  _format_as_srt RenderMore.strings_only = Ok []
  /\ _format_as_srt
       {| success := true; error := None; text := Some (u "ab");
          segments := Some [SegStr (u "a"); SegStr (u "b")];
          formatted_segments :=
            Some (formatted_loop 0 [SegStr (u "a"); SegStr (u "b")]) |}
     = Ok (zero_blocks 0 [u "a"; u "b"]).
Proof.
  apply (string_segments_get_zero_times RenderMore.strings_only _ (u "a") [u "b"]);
    reflexivity.
Defined.

(** ** None as a time *)

(** A string segment that went through [_clean_segments_with_timestamps]
    has the keys start and end with the value None: when it comes first,
    SRT and VTT rendering raise a TypeError. *)
Theorem cleaned_string_segment_raises dict_repr json_dumps r s rest :
  success r = true ->
  formatted_segments r = None \/ formatted_segments r = Some [] ->
  segments r = Some (_clean_segments_with_timestamps (SegStr s :: rest)) ->
  format_transcription_output dict_repr json_dumps r (u "srt") = Raise TypeError
  /\ format_transcription_output dict_repr json_dumps r (u "vtt") = Raise TypeError.
Proof.
  intros Hsucc Hf Hs. unfold format_transcription_output. rewrite Hsucc.
  cbn [negb]. change (eqb (u "srt") (u "text")) with false.
  change (eqb (u "srt") (u "srt")) with true.
  change (eqb (u "vtt") (u "text")) with false.
  change (eqb (u "vtt") (u "srt")) with false.
  change (eqb (u "vtt") (u "vtt")) with true. cbv iota.
  unfold _format_as_srt, _format_as_vtt.
  destruct Hf as [Hf|Hf]; rewrite Hf, Hs; split; reflexivity.
Qed.

Lemma cleaned_string_segment_raises_witness :
  format_transcription_output no_repr no_json
    {| success := true; error := None; text := Some (u "a");
       segments := Some (_clean_segments_with_timestamps [SegStr (u "<|zh|>a")]);
       formatted_segments := None |} (u "srt") = Raise TypeError
  /\ format_transcription_output no_repr no_json
       {| success := true; error := None; text := Some (u "a");
          segments := Some (_clean_segments_with_timestamps [SegStr (u "<|zh|>a")]);
          formatted_segments := None |} (u "vtt") = Raise TypeError.
Proof.
  apply (cleaned_string_segment_raises no_repr no_json _ (u "<|zh|>a") []);
    [reflexivity | left; reflexivity | reflexivity].
Defined.

(** ** From the engine to the renderer *)

Section WithMessages.

Variable exn_str : exn -> pystr.

Lemma rev_not_nil {A} (l : list A) : l <> [] -> rev l <> [].
Proof.
  destruct l as [|x l]; [congruence|]. intros _ H.
  apply (f_equal (@length A)) in H. rewrite length_rev in H. discriminate.
Qed.

Lemma entry_of_built items sg :
  SegmenterFacts.built_from_words float Segmenter.ms_to_sec_float items sg ->
  strip (Segmenter.text sg) <> [] /\ Segmenter.words sg <> [] ->
  exists t s e,
    entry_of_segment sg
    = SegDict {| seg_text := Some t; seg_start := Some (PyFloat s);
                 seg_end := Some (PyFloat e) |}
    /\ strip t <> [].
Proof.
  intros (_ & _ & Hs & He) (Ht & Hw). unfold entry_of_segment.
  rewrite Hs, He. pose proof (rev_not_nil _ Hw) as Hr.
  destruct (Segmenter.words sg) as [|x l]; [congruence|].
  destruct (rev (x :: l)) as [|y l']; [congruence|]. cbn.
  now exists (Segmenter.text sg), (Segmenter.w_start x), (Segmenter.w_end y).
Qed.

Lemma engine_entries raw timestamps words :
  success (result_of_engine exn_str raw timestamps words) = true ->
  exists entries,
    segments (result_of_engine exn_str raw timestamps words) = Some entries /\
    Forall (fun entry =>
              exists t s e,
                entry = SegDict {| seg_text := Some t;
                                   seg_start := Some (PyFloat s);
                                   seg_end := Some (PyFloat e) |}
                /\ strip t <> []) entries.
Proof.
  unfold result_of_engine.
  destruct (Segmenter._create_segments_from_timestamps Segmenter.ms_to_sec_float
              (_clean_text raw) timestamps words) as [segs|e] eqn:E;
    cbn [success segments]; [|discriminate].
  intros _. exists (map entry_of_segment segs). split; [reflexivity|].
  pose proof (SegmenterMore.segmenter_built _ _ _ _ _ _ E) as Hb.
  pose proof (SegmenterMore.segmenter_not_blank _ _ _ _ _ _ E) as Hn.
  apply Forall_map. rewrite Forall_forall in *. intros sg Hin.
  eapply entry_of_built; eauto.
Qed.

(** Every segment that [transcribe_audio] hands over is a dict with a
    text that is not blank and with floats as start and end, never None;
    the text of the result is the cleaned engine text and there are no
    [formatted_segments] yet. *)
Theorem engine_segments_are_timed raw timestamps words :
  success (result_of_engine exn_str raw timestamps words) = true ->
  text (result_of_engine exn_str raw timestamps words) = Some (_clean_text raw)
  /\ formatted_segments (result_of_engine exn_str raw timestamps words) = None
  /\ exists entries,
       segments (result_of_engine exn_str raw timestamps words) = Some entries /\
       Forall (fun entry =>
                 exists t s e,
                   entry = SegDict {| seg_text := Some t;
                                      seg_start := Some (PyFloat s);
                                      seg_end := Some (PyFloat e) |}
                   /\ strip t <> []) entries.
Proof.
  intro H. split; [|split].
  - unfold result_of_engine in *.
    destruct (Segmenter._create_segments_from_timestamps _ _ _ _);
      [reflexivity | discriminate].
  - unfold result_of_engine.
    now destruct (Segmenter._create_segments_from_timestamps _ _ _ _).
  - now apply engine_entries.
Qed.

(** Asking for time stamps never changes the SRT rendering of a
    transcription: [transcribe_with_timestamps] returns a result, and its
    SRT output is that of the result of [transcribe_audio]. *)
Theorem timestamps_flag_keeps_srt raw timestamps words :
  exists r',
    add_formatted_segments (result_of_engine exn_str raw timestamps words) = Ok r'
    /\ _format_as_srt r'
       = _format_as_srt (result_of_engine exn_str raw timestamps words).
Proof.
  destruct (success (result_of_engine exn_str raw timestamps words)) eqn:Hs.
  - destruct (engine_entries raw timestamps words Hs) as (entries & He & Hall).
    assert (Hadd : exists r',
               add_formatted_segments (result_of_engine exn_str raw timestamps words)
               = Ok r').
    { unfold add_formatted_segments. rewrite Hs, He. destruct entries; eauto. }
    destruct Hadd as [r' Hr']. exists r'. split; [assumption|].
    apply (add_formatted_timed _ r' entries); try assumption.
    + unfold result_of_engine.
      now destruct (Segmenter._create_segments_from_timestamps _ _ _ _).
    + eapply Forall_impl; [|exact Hall].
      intros entry (t & s & e & -> & _). now eexists _, _, _.
  - eexists. split; [unfold add_formatted_segments; rewrite Hs; reflexivity|].
    reflexivity.
Qed.

(** When a word that is not markup has a time stamp without exactly two
    entries, [transcribe_audio] catches the exception and the renderer
    answers, for every format, with the failure text, in which the prefix
    appears twice: once from the transcriber and once from the
    renderer. *)
Theorem bad_time_stamp_is_reported dict_repr json_dumps raw timestamps words
  pre w t post output_format :
  length timestamps = length words ->
  combine words timestamps = pre ++ (w, t) :: post ->
  Segmenter.is_markup w = false -> length t <> 2%nat ->
  exists e,
    format_transcription_output dict_repr json_dumps
      (result_of_engine exn_str raw timestamps words) output_format
    = Ok (u "转录失败: " ++ u "转录失败: " ++ exn_str e).
Proof.
  intros Hl Hc Hm Ht.
  destruct (SegmenterMore.segmenter_bad_arity float Segmenter.ms_to_sec_float
              (_clean_text raw) timestamps words pre w t post Hl Hc Hm Ht)
    as [e He].
  exists e. unfold result_of_engine. rewrite He. reflexivity.
Qed.

End WithMessages.

Definition class_name (e : exn) : pystr :=
  match e with
  | TypeError => u "TypeError"
  | ValueError => u "ValueError"
  | OverflowError => u "OverflowError"
  | KeyError => u "KeyError"
  | ZeroDivisionError => u "ZeroDivisionError"
  end.

Lemma engine_segments_are_timed_witness :
  text (result_of_engine class_name (u "<|zh|>a.") [[0; 500]; [500; 1000]]
          [u "a"; u "."]) = Some (_clean_text (u "<|zh|>a."))
  /\ formatted_segments
       (result_of_engine class_name (u "<|zh|>a.") [[0; 500]; [500; 1000]]
          [u "a"; u "."]) = None
  /\ exists entries,
       segments (result_of_engine class_name (u "<|zh|>a.")
                   [[0; 500]; [500; 1000]] [u "a"; u "."]) = Some entries /\
       Forall (fun entry =>
                 exists t s e,
                   entry = SegDict {| seg_text := Some t;
                                      seg_start := Some (PyFloat s);
                                      seg_end := Some (PyFloat e) |}
                   /\ strip t <> []) entries.
Proof.
  apply (engine_segments_are_timed class_name (u "<|zh|>a.")
           [[0; 500]; [500; 1000]] [u "a"; u "."]).
  reflexivity.
Defined.

Lemma bad_time_stamp_is_reported_witness :
  exists e,
    format_transcription_output no_repr no_json
      (result_of_engine class_name (u "ab") [[0; 500]; [500]] [u "a"; u "b"])
      (u "srt")
    = Ok (u "转录失败: " ++ u "转录失败: " ++ class_name e).
Proof.
  apply (bad_time_stamp_is_reported class_name no_repr no_json (u "ab")
           [[0; 500]; [500]] [u "a"; u "b"] [(u "a", [0; 500])] (u "b") [500] []);
    [reflexivity | reflexivity | reflexivity | cbn; lia].
Defined.

End PipelineFacts.


(* ================================================================== *)
(** * Facts about the renderer of [mcp_server.py] *)
(* ================================================================== *)

Module McpFacts.

Import Render McpServer TimeCodeFacts TimeCodeMore.
Local Open Scope Z_scope.

(** The two VTT formatters are the same code. *)
Lemma format_vtt_time_same seconds :
  format_vtt_time seconds = _seconds_to_vtt_time seconds.
Proof.
  unfold format_vtt_time, _seconds_to_vtt_time, vtt_fields, vtt_print.
  destruct (py_floordiv seconds (PyInt 3600)) as [h|]; cbn [bind]; [|reflexivity].
  destruct (py_int h); cbn [bind]; [|reflexivity].
  destruct (py_mod seconds (PyInt 3600)) as [r|]; cbn [bind]; [|reflexivity].
  destruct (py_floordiv r (PyInt 60)) as [q|]; cbn [bind]; [|reflexivity].
  destruct (py_int q); cbn [bind]; [|reflexivity].
  destruct (py_mod seconds (PyInt 60)); cbn [bind]; reflexivity.
Qed.

Lemma replace_dd z : replace_char 46 44 (dd z) = dd z.
Proof.
  unfold replace_char, dd, digit. cbn [map].
  destruct (N.eqb_spec (48 + Z.to_N (z / 10)) 46) as [E|_]; [lia|].
  destruct (N.eqb_spec (48 + Z.to_N (z mod 10)) 46) as [E|_]; [lia|].
  reflexivity.
Qed.

Lemma replace_char_app a b s t :
  replace_char a b (s ++ t) = replace_char a b s ++ replace_char a b t.
Proof. apply map_app. Qed.

(** On a whole number of seconds below a hundred hours the SRT time code
    of the server ([format_srt_time], which rounds to thousandths and
    swaps the dot) is the one of the transcriber ([_seconds_to_srt_time],
    which truncates). *)
Theorem srt_time_codes_agree_on_whole_seconds z :
  0 <= z < 360000 ->
  format_srt_time (PyInt z) = _seconds_to_srt_time (PyInt z).
Proof.
  intro H. unfold format_srt_time.
  rewrite format_vtt_time_same, (whole_seconds_vtt z H), (whole_seconds_srt z H).
  cbn [bind]. f_equal. rewrite !replace_char_app, !replace_dd. reflexivity.
Qed.

Lemma srt_time_codes_agree_on_whole_seconds_witness :
  format_srt_time (PyInt 3661) = _seconds_to_srt_time (PyInt 3661).
Proof. apply srt_time_codes_agree_on_whole_seconds. lia. Defined.

(** On 1.2 seconds they differ: the server prints 200 thousandths and the
    transcriber 199. *)
Remark srt_time_codes_differ :
  format_srt_time (PyFloat 0x1.3333333333333p+0) = Ok (u "00:00:01,200")
  /\ _seconds_to_srt_time (PyFloat 0x1.3333333333333p+0) = Ok (u "00:00:01,199").
Proof. split; vm_compute; reflexivity. Qed.

Section WithLibrary.

Variable json_dumps : transcription_result -> outcome pystr.
Variable exn_str : exn -> pystr.

(** The server's renderer indexes every segment by key: when the first
    segment is a plain string, SRT and VTT give the failure text with the
    message of the TypeError, where the transcriber's SRT renderer skips
    the entry. *)
Theorem server_reports_string_segment r s rest :
  segments r = Some (SegStr s :: rest) ->
  McpServer.format_transcription_output json_dumps exn_str r (u "srt")
  = u "格式化输出失败: " ++ exn_str TypeError
  /\ McpServer.format_transcription_output json_dumps exn_str r (u "vtt")
     = u "格式化输出失败: " ++ exn_str TypeError.
Proof.
  intro H. unfold McpServer.format_transcription_output, format_body.
  change (eqb (u "srt") (u "text")) with false.
  change (eqb (u "srt") (u "json")) with false.
  change (eqb (u "srt") (u "srt")) with true.
  change (eqb (u "vtt") (u "text")) with false.
  change (eqb (u "vtt") (u "json")) with false.
  change (eqb (u "vtt") (u "srt")) with false.
  change (eqb (u "vtt") (u "vtt")) with true. cbv iota.
  rewrite H. split; reflexivity.
Qed.

End WithLibrary.

Lemma server_reports_string_segment_witness :
  McpServer.format_transcription_output RenderFacts.no_json
    PipelineFacts.class_name RenderMore.strings_only (u "srt")
  = u "格式化输出失败: " ++ u "TypeError"
  /\ McpServer.format_transcription_output RenderFacts.no_json
       PipelineFacts.class_name RenderMore.strings_only (u "vtt")
     = u "格式化输出失败: " ++ u "TypeError".
Proof.
  apply (server_reports_string_segment RenderFacts.no_json
           PipelineFacts.class_name RenderMore.strings_only (u "a") [SegStr (u "b")]).
  reflexivity.
Defined.

End McpFacts.

